(** * speechbox.dataset.walkers: the dataset walker, embedded and verified

    A shallow embedding of [src/speechbox/dataset/walkers.py]
    ([SpeechDatasetWalker] and, of its corpus subclasses, [OGIWalker])
    together with the
    properties of its traversal: recursion guard, duplicate detection,
    content validation, speaker filtering, extension filter, checksums and
    the constructor contract.

    Conventions of the embedding.
    - Python dicts are [gmap]s, Python sets are [gset]s, lists are lists.
    - A raised exception is a value of [exn]; a computation that may raise
      returns [exn + A].
    - The generator [walk] is run to completion: its result is the list of
      triples it yields (in order), the final value of the variables its
      closure [audiofile_ok] mutates, and how it ended (normal end or the
      exception that escaped).  A consumer that stops early sees a prefix
      of that list.
    - [print] calls write to standard output and influence neither the
      yielded triples nor any variable; they are left out, and with them
      the argument [verbosity] of [walk], which only guards [print] calls,
      and the call of [get_audio_type], which only feeds one. *)

From Stdlib Require Import String Ascii QArith.
From stdpp Require Import gmap strings list fin_maps sorting.

Local Open Scope string_scope.
Local Open Scope list_scope.

(** ** Exceptions *)

Inductive exn : Type :=
  | AssertionError
  | TypeError
  | KeyError
  | AttributeError
  | IndexError
  | DatasetRecursionError.   (* dataset/__init__.py: subclass of RecursionError *)

Global Instance exn_eq_dec : EqDecision exn.
Proof. solve_decision. Defined.

(** ** Strings and paths (the parts of [str] and [os.path] the walker uses) *)

Module Str.

(** [s.startswith(p)] *)
Definition startswith (s p : string) : bool := String.prefix p s.

(** [s.endswith(suffix)] *)
Definition endswith (s suffix : string) : bool :=
  (String.length suffix <=? String.length s)%nat
  && String.eqb
       (String.substring (String.length s - String.length suffix)
                         (String.length suffix) s)
       suffix.

(** [s[:n]] *)
Definition take (n : nat) (s : string) : string := String.substring 0 n s.

Fixpoint contains_sep (s : string) : bool :=
  match s with
  | EmptyString => false
  | String c rest => Ascii.eqb c "/"%char || contains_sep rest
  end.

(** [posixpath.basename]: the part of [s] after its last ['/'] (all of
    [s] when it has none) *)
Fixpoint basename (s : string) : string :=
  match s with
  | EmptyString => EmptyString
  | String c rest => if contains_sep s then basename rest else s
  end.

(** one round of the loop in [posixpath.join] *)
Definition join_step (path b : string) : string :=
  if startswith b "/" then b
  else if String.eqb path "" || endswith path "/" then String.append path b
  else String.append path (String.append "/" b).

(** [os.path.join(a, *p)] *)
Definition join (a : string) (p : list string) : string :=
  fold_left join_step p a.

(** [sorted] on strings: Python compares strings by code point, which on
    the byte strings used here is the bytewise lexicographic order. *)
Definition le (a b : string) : Prop := String.leb a b = true.

Global Instance le_dec a b : Decision (le a b).
Proof. unfold le. apply _. Defined.

Definition sorted (l : list string) : list string := merge_sort le l.

End Str.

Global Arguments Str.join : simpl never.
Global Arguments Str.endswith : simpl never.

(** ** The walker object *)

(** One value of [self.label_definitions]: a dict with key ["name"] and,
    optionally, ["sample_dirs"], ["sample_files"] and
    ["sample_file_checksums"]. *)
Record label_def : Type := LabelDef {
  name : string;
  sample_dirs : option (list string);
  sample_files : option (list string);
  sample_file_checksums : option (list string)
}.

Record walker : Type := Walker {
  dataset_root : option string;
  sample_frequency : option Z;
  label_definitions : gmap string label_def;
  ignored_speaker_ids_by_label : gmap string (gset string)
}.

(** What a subclass adds to [SpeechDatasetWalker]: the class attribute
    [dataset_tree] and the method [parse_speaker_id], either of which a
    subclass may lack (the base class has neither). *)
Record walker_class : Type := WalkerClass {
  dataset_tree : option (gmap string (list (list string)));
  parse_speaker_id : option (string → exn + string)
}.

(** [bool(x)] for an optional list argument: [None] and [[]] are false. *)
Definition truthy {A} (x : option (list A)) : bool :=
  match x with
  | Some (_ :: _) => true
  | _ => false
  end.

(** [SpeechDatasetWalker.__init__] *)
Definition init (dataset_root : option string)
    (paths labels checksums : option (list string))
    (sample_frequency : option Z) : exn + walker :=
  let self :=
    {| dataset_root := dataset_root;
       sample_frequency := sample_frequency;
       label_definitions := ∅;
       ignored_speaker_ids_by_label := ∅ |} in
  match dataset_root with
  | None =>
      if truthy paths && truthy labels && truthy checksums
      then inr self else inl AssertionError
  | Some _ =>
      if bool_decide (paths = None) && bool_decide (labels = None)
         && bool_decide (checksums = None)
      then inr self else inl AssertionError
  end.

(** [SpeechDatasetWalker.join_root]: [os.path.join(self.dataset_root, *paths)],
    a [TypeError] when [dataset_root] is [None]. *)
Definition join_root (self : walker) (paths : list string) : exn + string :=
  match dataset_root self with
  | None => inl TypeError
  | Some root => inr (Str.join root paths)
  end.

(** [SpeechDatasetWalker.set_speaker_filter] *)
Definition set_speaker_filter (self : walker)
    (speaker_ids_by_label : gmap string (list string)) : walker :=
  {| dataset_root := dataset_root self;
     sample_frequency := sample_frequency self;
     label_definitions := label_definitions self;
     ignored_speaker_ids_by_label :=
       (λ ids : list string, list_to_set ids : gset string)
         <$> speaker_ids_by_label |}.

(** [SpeechDatasetWalker.overwrite_target_paths]: every label's directory
    and file lists are emptied, then each given path is appended to the
    files of its label ([KeyError] for a label without a definition). *)
Definition clear_targets (d : label_def) : label_def :=
  {| name := name d;
     sample_dirs := Some [];
     sample_files := Some [];
     sample_file_checksums := Some [] |}.

Definition append_target (path checksum : string) (d : label_def) : label_def :=
  {| name := name d;
     sample_dirs := sample_dirs d;
     sample_files := Some (default [] (sample_files d) ++ [path]);
     sample_file_checksums :=
       Some (default [] (sample_file_checksums d) ++ [checksum]) |}.

Fixpoint set_targets (defs : gmap string label_def)
    (items : list (string * string * string)) : exn + gmap string label_def :=
  match items with
  | [] => inr defs
  | (label, path, checksum) :: rest =>
      match defs !! label with
      | None => inl KeyError
      | Some d => set_targets (<[label := append_target path checksum d]> defs) rest
      end
  end.

(** [zip(labels, paths, checksums)] *)
Fixpoint zip3 (labels paths checksums : list string)
    : list (string * string * string) :=
  match labels, paths, checksums with
  | l :: ls, p :: ps, c :: cs => (l, p, c) :: zip3 ls ps cs
  | _, _, _ => []
  end.

Definition with_label_definitions (self : walker)
    (defs : gmap string label_def) : walker :=
  {| dataset_root := dataset_root self;
     sample_frequency := sample_frequency self;
     label_definitions := defs;
     ignored_speaker_ids_by_label := ignored_speaker_ids_by_label self |}.

Definition overwrite_target_paths (self : walker)
    (paths labels checksums : list string) : exn + walker :=
  match set_targets (clear_targets <$> label_definitions self)
                    (zip3 labels paths checksums) with
  | inl e => inl e
  | inr defs => inr (with_label_definitions self defs)
  end.

(** [SpeechDatasetWalker.parse_directory_tree]: each label's ["sample_dirs"]
    becomes the list of its [dataset_tree] entries joined onto the root.
    A class without [dataset_tree] raises [AttributeError], a label without
    an entry [KeyError], a walker without root [TypeError] (from
    [join_root]). *)
Definition with_sample_dirs (dirs : list string) (d : label_def) : label_def :=
  {| name := name d;
     sample_dirs := Some dirs;
     sample_files := sample_files d;
     sample_file_checksums := sample_file_checksums d |}.

Fixpoint join_all (self : walker) (entries : list (list string))
    : exn + list string :=
  match entries with
  | [] => inr []
  | paths :: rest =>
      match join_root self paths with
      | inl e => inl e
      | inr dir =>
          match join_all self rest with
          | inl e => inl e
          | inr dirs => inr (dir :: dirs)
          end
      end
  end.

Fixpoint parse_labels (self : walker) (tree : gmap string (list (list string)))
    (todo : list (string * label_def)) (defs : gmap string label_def)
    : exn + gmap string label_def :=
  match todo with
  | [] => inr defs
  | (label, definition) :: rest =>
      match tree !! label with
      | None => inl KeyError
      | Some entries =>
          match join_all self entries with
          | inl e => inl e
          | inr dirs =>
              parse_labels self tree rest
                (<[label := with_sample_dirs dirs definition]> defs)
          end
      end
  end.

(** The labels are taken in the order of [map_to_list], not in the
    insertion order of the [OrderedDict].  The order decides nothing but
    which exception is raised when two labels fail differently, which
    needs a walker without root ([TypeError]) and a tree that lacks a label
    ([KeyError]); with a root [join_root] cannot fail, and the result does
    not depend on the order. *)
Definition parse_directory_tree (cls : walker_class) (self : walker)
    : exn + walker :=
  match map_to_list (label_definitions self) with
  | [] => inr self
  | todo =>
      match dataset_tree cls with
      | None => inl AttributeError
      | Some tree =>
          match parse_labels self tree todo (label_definitions self) with
          | inl e => inl e
          | inr defs => inr (with_label_definitions self defs)
          end
      end
  end.

(** ** The environment of a walk

    [os.path.exists] and [os.walk] come from the Python standard library;
    [read_wavfile] and [md5sum] come from [speechbox.system], which is not
    part of the sources embedded here.  All four are taken as given: the
    walker is verified for every file system and every behaviour of these
    helpers.  [os_walk top followlinks] is the sequence of
    [(dirpath, dirnames, filenames)] triples that [os.walk] produces. *)
Record system : Type := System {
  os_path_exists : string → bool;
  os_walk : string → bool → list (string * list string * list string);
  read_wavfile : string → option (list Z) * option Z;   (* (wav, srate) *)
  md5sum : string → string
}.

(** [os.walk(top, followlinks=followlinks)] of the Python standard library
    (top-down, [onerror=None]), over the two file-system queries it makes:
    [scandir top] is the listing of [top], split by [entry.is_dir()] (which
    follows links) into directory names and other names, or [None] when the
    listing fails with [OSError]; [islink p] is [os.path.islink p].  A
    directory is reported under the path it was reached through,
    [join(top, dirname)], and [os.walk] keeps no record of the directories
    it has visited.  [depth] bounds the nesting; the paths of a file system
    have bounded length, so a large enough [depth] changes nothing. *)
Record filesystem : Type := FileSystem {
  scandir : string → option (list string * list string);
  islink : string → bool
}.

Fixpoint os_walk_from (fs : filesystem) (depth : nat) (top : string)
    (followlinks : bool) : list (string * list string * list string) :=
  match depth with
  | 0 => []
  | S depth' =>
      match scandir fs top with
      | None => []
      | Some (dirs, nondirs) =>
          (top, dirs, nondirs) ::
          flat_map (λ dirname,
                      let new_path := Str.join top [dirname] in
                      if followlinks || negb (islink fs new_path)
                      then os_walk_from fs depth' new_path followlinks
                      else [])
                   dirs
      end
  end.

(** ** The generator

    The variables of [walk] that its closure [audiofile_ok] updates. *)
Record closure : Type := Closure {
  duplicates : gmap string (list string);   (* defaultdict(list) *)
  invalid_files : list string;
  num_walked : nat
}.

Definition triple : Type := string * string * string.

Definition t_label (t : triple) : string := t.1.1.
Definition t_path (t : triple) : string := t.1.2.
Definition t_checksum (t : triple) : string := t.2.

(** A piece of generator code: from the closure variables to the triples
    yielded, the new closure variables, and a value or the exception that
    ended it. *)
Definition gen (A : Type) : Type :=
  closure → list triple * closure * (exn + A).

Definition g_ret {A} (x : A) : gen A := λ st, ([], st, inr x).

Definition g_bind {A B} (f : A → gen B) (m : gen A) : gen B := λ st,
  match m st with
  | (ys, st1, inl e) => (ys, st1, inl e)
  | (ys, st1, inr a) =>
      match f a st1 with
      | (ys', st2, r) => (ys ++ ys', st2, r)
      end
  end.

Global Instance gen_ret : MRet gen := @g_ret.
Global Instance gen_bind : MBind gen := @g_bind.

Definition yield (t : triple) : gen unit := λ st, ([t], st, inr tt).
Definition raise {A} (e : exn) : gen A := λ st, ([], st, inl e).
Definition lift {A} (r : exn + A) : gen A := λ st, ([], st, r).
Definition update {A} (f : closure → closure * (exn + A)) : gen A := λ st,
  match f st with
  | (st', r) => ([], st', r)
  end.

(** [for x in l: body(x)] *)
Fixpoint for_each {A} (l : list A) (body : A → gen unit) : gen unit :=
  match l with
  | [] => mret tt
  | x :: rest => body x ;; for_each rest body
  end.

(** ** [SpeechDatasetWalker.walk] *)

Section Walk.

Variable sys : system.
Variable cls : walker_class.
Variable self : walker.
Variables check_duplicates check_read followlinks : bool.

(** [SpeechDatasetWalker.speaker_id_is_ignored].  A class without
    [parse_speaker_id] raises [AttributeError] when the method is looked
    up, which happens only for a label that has a filter. *)
Definition speaker_id_is_ignored (wavpath label : string) : exn + bool :=
  match ignored_speaker_ids_by_label self !! label with
  | None => inr false
  | Some ids =>
      match parse_speaker_id cls with
      | None => inl AttributeError
      | Some parse =>
          match parse wavpath with
          | inl e => inl e
          | inr speaker_id => inr (negb (bool_decide (speaker_id ∈ ids)))
          end
      end
  end.

Definition file_extensions : list string := ["wav"].

(** [invalid_files.append(wavpath)] *)
Definition record_invalid (wavpath : string) (st : closure) : closure :=
  {| duplicates := duplicates st;
     invalid_files := invalid_files st ++ [wavpath];
     num_walked := num_walked st |}.

(** [duplicates[content_hash].append(wavpath)] on a [defaultdict(list)] *)
Definition record_duplicate (content_hash wavpath : string) (st : closure)
    : closure :=
  {| duplicates :=
       <[content_hash := default [] (duplicates st !! content_hash) ++ [wavpath]]>
         (duplicates st);
     invalid_files := invalid_files st;
     num_walked := num_walked st |}.

(** the tail of [audiofile_ok], from the comment "Validity checks done" *)
Definition check_filters (wavpath label : string) : exn + bool :=
  match speaker_id_is_ignored wavpath label with
  | inl e => inl e
  | inr true => inr false
  | inr false => inr (existsb (Str.endswith wavpath) file_extensions)
  end.

(** the [if check_duplicates:] block and what follows it *)
Definition check_hash (wavpath label : string) (st : closure)
    : closure * (exn + bool) :=
  if check_duplicates then
    let content_hash := md5sum sys wavpath in
    let st' := record_duplicate content_hash wavpath st in
    if (1 <? length (default [] (duplicates st' !! content_hash)))%nat
    then (st', inr false)
    else (st', check_filters wavpath label)
  else (st, check_filters wavpath label).

(** the closure [audiofile_ok] of [walk] *)
Definition audiofile_ok (wavpath label : string) (st : closure)
    : closure * (exn + bool) :=
  if negb (os_path_exists sys wavpath) then (st, inr false)
  else if check_read then
    match read_wavfile sys wavpath with
    | (None, srate) => (record_invalid wavpath st, inr false)
    | (Some wav, srate) => check_hash wavpath label st
    end
  else check_hash wavpath label st.

(** [num_walked += 1] *)
Definition count_walked : gen unit := λ st,
  ([], {| duplicates := duplicates st;
          invalid_files := invalid_files st;
          num_walked := S (num_walked st) |}, inr tt).

(** [if audiofile_ok(wavpath, label): yield label, wavpath, md5sum(wavpath)] *)
Definition examine (label wavpath : string) : gen unit :=
  ok ← update (audiofile_ok wavpath label);
  if ok : bool then yield (label, wavpath, md5sum sys wavpath) else mret tt.

(** the body of [for f in files:] *)
Definition walk_file (label parent f : string) : gen unit :=
  count_walked ;;
  wavpath ← lift (join_root self [parent; f]);
  examine label wavpath.

(** [for parent, _, files in os.walk(...)], with the local variable
    [seen_directories] of the enclosing iteration *)
Fixpoint walk_tree (label : string)
    (entries : list (string * list string * list string))
    (seen_directories : gset string) : gen unit :=
  match entries with
  | [] => mret tt
  | (parent, _, files) :: rest =>
      this_dir ← lift (join_root self [parent]);
      if bool_decide (this_dir ∈ seen_directories)
      then raise DatasetRecursionError
      else
        for_each files (walk_file label parent) ;;
        walk_tree label rest ({[this_dir]} ∪ seen_directories)
  end.

(** the body of [for sample_dir in sample_dirs:] *)
Definition walk_sample_dir (label sample_dir : string) : gen unit :=
  walk_tree label (os_walk sys sample_dir followlinks) ∅.

(** the body of [for wavpath in sample_files:] *)
Definition walk_sample_file (label wavpath : string) : gen unit :=
  count_walked ;;
  examine label wavpath.

(** the body of [for label in sorted(self.label_definitions.keys()):] *)
Definition walk_label (label : string) : gen unit :=
  match label_definitions self !! label with
  | None => raise KeyError
  | Some definition =>
      for_each (default [] (sample_dirs definition)) (walk_sample_dir label) ;;
      for_each (default [] (sample_files definition)) (walk_sample_file label)
  end.

Definition walk_body : gen unit :=
  for_each (Str.sorted (elements (dom (label_definitions self)))) walk_label.

Definition closure0 : closure :=
  {| duplicates := ∅; invalid_files := []; num_walked := 0 |}.

(** [walk], run to its end *)
Definition walk : list triple * closure * (exn + unit) :=
  walk_body closure0.

End Walk.

(** The parts of a finished run. *)
Definition yields {A} (r : list triple * closure * (exn + A)) : list triple := r.1.1.
Definition final {A} (r : list triple * closure * (exn + A)) : closure := r.1.2.
Definition outcome {A} (r : list triple * closure * (exn + A)) : exn + A := r.2.

(** [SpeechDatasetWalker.__iter__]: [return self.walk()], that is [walk] with
    [check_duplicates=False, check_read=False, followlinks=True] *)
Definition iter (sys : system) (cls : walker_class) (self : walker)
    : list triple * closure * (exn + unit) :=
  walk sys cls self false false true.

(** ** Speaker statistics *)

(** [c[label][speaker_id] += 1], [c[label]] a [collections.Counter] *)
Definition count_one (label speaker_id : string)
    (c : gmap string (gmap string nat)) : exn + gmap string (gmap string nat) :=
  match c !! label with
  | None => inl KeyError
  | Some counter =>
      inr (<[label := <[speaker_id := S (default 0 (counter !! speaker_id))]> counter]> c)
  end.

(** the loop of [count_files_per_speaker_by_label] over the yielded triples *)
Fixpoint count_loop (cls : walker_class) (ys : list triple)
    (c : gmap string (gmap string nat)) : exn + gmap string (gmap string nat) :=
  match ys with
  | [] => inr c
  | (label, path, _) :: rest =>
      match parse_speaker_id cls with
      | None => inl AttributeError
      | Some parse =>
          match parse path with
          | inl e => inl e
          | inr speaker_id =>
              match count_one label speaker_id c with
              | inl e => inl e
              | inr c' => count_loop cls rest c'
              end
          end
      end
  end.

(** [SpeechDatasetWalker.count_files_per_speaker_by_label].  The loop body
    runs at each yield, so an exception of the body comes before an
    exception that ends the walk. *)
Definition count_files_per_speaker_by_label (sys : system) (cls : walker_class)
    (self : walker) : exn + gmap string (gmap string nat) :=
  let c := (λ _, ∅ : gmap string nat) <$> label_definitions self in
  let run := iter sys cls self in
  match count_loop cls (yields run) c with
  | inl e => inl e
  | inr c' =>
      match outcome run with
      | inl e => inl e
      | inr _ => inr c'
      end
  end.

(** [SpeechDatasetWalker.speakers_per_label] *)
Definition speakers_per_label (sys : system) (cls : walker_class)
    (self : walker) : exn + gmap string nat :=
  match count_files_per_speaker_by_label sys cls self with
  | inl e => inl e
  | inr counts =>
      inr ((λ files_per_speaker : gmap string nat, size files_per_speaker)
             <$> counts)
  end.

(** [SpeechDatasetWalker.speaker_ids_by_label] *)
Definition speaker_ids_by_label (sys : system) (cls : walker_class)
    (self : walker) : exn + gmap string (list string) :=
  match count_files_per_speaker_by_label sys cls self with
  | inl e => inl e
  | inr counts =>
      inr ((λ files_per_speaker : gmap string nat,
              Str.sorted (elements (dom files_per_speaker))) <$> counts)
  end.

(** ** [OGIWalker] *)

Module OGI.

(** [OGIWalker.dataset_tree] *)
Definition tree : gmap string (list (list string)) :=
  list_to_map
    [("cmn", [["wav"; "mandarin"]]);
     ("deu", [["wav"; "german"]]);
     ("eng", [["wav"; "english"]]);
     ("fas", [["wav"; "farsi"]]);
     ("fra", [["wav"; "french"]]);
     ("hin", [["wav"; "hindi"]]);
     ("jpn", [["wav"; "japanese"]]);
     ("kor", [["wav"; "korean"]]);
     ("spa", [["wav"; "spanish"]]);
     ("tam", [["wav"; "tamil"]]);
     ("vie", [["wav"; "vietnam"]])].

(** [OGIWalker.parse_speaker_id]: [os.path.basename(path)[:5]] *)
Definition speaker_id (path : string) : exn + string :=
  inr (Str.take 5 (Str.basename path)).

Definition class : walker_class :=
  {| dataset_tree := Some tree; parse_speaker_id := Some speaker_id |}.

Definition named (n : string) : label_def :=
  {| name := n; sample_dirs := None; sample_files := None;
     sample_file_checksums := None |}.

(** the [label_definitions] set by [OGIWalker.__init__] *)
Definition labels : gmap string label_def :=
  list_to_map
    [("cmn", named "Mandarin Chinese");
     ("deu", named "German");
     ("eng", named "English");
     ("fas", named "Persian/Farsi");
     ("fra", named "French");
     ("hin", named "Hindi");
     ("jpn", named "Japanese");
     ("kor", named "Korean");
     ("spa", named "Spanish");
     ("tam", named "Tamil");
     ("vie", named "Vietnam")].

(** [OGIWalker.__init__], called with keyword arguments; an argument that
    is [None] here was not passed, so that [kwargs["paths"]] raises
    [KeyError] for it. *)
Definition new (dataset_root : option string)
    (paths labels_arg checksums : option (list string))
    (sample_frequency : option Z) : exn + walker :=
  match init dataset_root paths labels_arg checksums sample_frequency with
  | inl e => inl e
  | inr self =>
      let self := with_label_definitions self labels in
      match dataset_root with
      | Some (String _ _) => parse_directory_tree class self
      | _ =>
          match paths, labels_arg, checksums with
          | Some ps, Some ls, Some cs => overwrite_target_paths self ps ls cs
          | _, _, _ => inl KeyError
          end
      end
  end.

End OGI.

(** ** More of [str] and of Python's containers *)

(** [l[i]] for a non-negative [i]: [IndexError] out of range *)
Definition index {A} (l : list A) (i : nat) : exn + A :=
  match l !! i with
  | Some x => inr x
  | None => inl IndexError
  end.

Module Split.

(** [s + c] *)
Definition snoc (s : string) (c : ascii) : string :=
  String.append s (String c EmptyString).

(** [s.split(sep)] for a non-empty [sep], scanning from the left: [skip]
    characters of an occurrence of [sep] are still to be passed over, and
    [cur] is the part collected since the last occurrence. *)
Fixpoint go (sep s : string) (skip : nat) (cur : string) : list string :=
  match s with
  | EmptyString => [cur]
  | String c rest =>
      match skip with
      | S skip' => go sep rest skip' cur
      | 0 =>
          if Str.startswith s sep
          then cur :: go sep rest (String.length sep - 1) EmptyString
          else go sep rest 0 (snoc cur c)
      end
  end.

Definition split (s sep : string) : list string := go sep s 0 EmptyString.

End Split.

(** [SpeechDatasetWalker.get_file_id]:
    [os.path.basename(wavpath).split(".wav")[0]] *)
Definition get_file_id (wavpath : string) : exn + string :=
  index (Split.split (Str.basename wavpath) ".wav") 0.

(** [enumerate(l)], counting from [i] *)
Fixpoint enumerate_from {A} (i : nat) (l : list A) : list (nat * A) :=
  match l with
  | [] => []
  | x :: rest => (i, x) :: enumerate_from (S i) rest
  end.

(** [SpeechDatasetWalker.make_label_to_index_dict]:
    [{label: i for i, label in enumerate(sorted(self.label_definitions))}],
    the entries written one after the other *)
Definition make_label_to_index_dict (self : walker) : gmap string nat :=
  fold_left (λ d item, <[item.2 := item.1]> d)
    (enumerate_from 0 (Str.sorted (elements (dom (label_definitions self)))))
    ∅.

(** ** [OGIWalker2] *)

Module OGI2.

(** [OGIWalker2.parse_speaker_id]:
    [os.path.basename(path).split("call-")[1].split("-")[0]] *)
Definition speaker_id (path : string) : exn + string :=
  match index (Split.split (Str.basename path) "call-") 1 with
  | inl e => inl e
  | inr after_call => index (Split.split after_call "-") 0
  end.

Definition word_boundaries : list string := [".pau"].

(** the loop of [OGIWalker2.phone_segmentation_to_words] with its variable
    [word], and the final [if word: yield word] *)
Fixpoint words_from (phoneseg : list (Z * Z * string)) (word : list string)
    : list (list string) :=
  match phoneseg with
  | [] => match word with [] => [] | _ :: _ => [word] end
  | (_, _, phoneme) :: rest =>
      if Str.startswith phoneme "." then
        if bool_decide (phoneme ∈ word_boundaries)
           && match word with [] => false | _ :: _ => true end
        then word :: words_from rest []
        else words_from rest word
      else words_from rest (word ++ [phoneme])
  end.

(** [OGIWalker2.phone_segmentation_to_words]: the words it yields *)
Definition phone_segmentation_to_words (phoneseg : list (Z * Z * string))
    : list (list string) :=
  words_from phoneseg [].

End OGI2.

(** ** [VarDial2017Walker] *)

Module VarDial.

Definition dialects : list (string * string) :=
  [("EGY", "Egyptian Arabic");
   ("GLF", "Gulf Arabic");
   ("LAV", "Levantine Arabic");
   ("MSA", "Modern Standard Arabic");
   ("NOR", "North African Arabic")].

(** the entries of the dict literal in [VarDial2017Walker.__init__],
    evaluated in order; each calls [self.join_root("wav", label)] *)
Fixpoint definitions (self : walker) (todo : list (string * string))
    : exn + list (string * label_def) :=
  match todo with
  | [] => inr []
  | (label, n) :: rest =>
      match join_root self ["wav"; label] with
      | inl e => inl e
      | inr dir =>
          match definitions self rest with
          | inl e => inl e
          | inr defs =>
              inr ((label, {| name := n; sample_dirs := Some [dir];
                              sample_files := None;
                              sample_file_checksums := None |}) :: defs)
          end
      end
  end.

(** [VarDial2017Walker.__init__] *)
Definition new (dataset_root : option string)
    (paths labels checksums : option (list string))
    (sample_frequency : option Z) : exn + walker :=
  match init dataset_root paths labels checksums sample_frequency with
  | inl e => inl e
  | inr self =>
      match definitions self dialects with
      | inl e => inl e
      | inr defs => inr (with_label_definitions self (list_to_map defs))
      end
  end.

End VarDial.

(** ** [KerasWrapper.parse_metrics] (speechbox.models) *)

(** An element of the returned list: the string itself for ["accuracy"],
    a [tf.keras.metrics.Precision] or a [tf.keras.metrics.Recall]
    object. *)
Inductive keras_metric : Type :=
| MetricName (m : string)
| Precision
| Recall.

(** the loop of [parse_metrics]; [keras_metrics] is the list built so far *)
Fixpoint parse_metrics_loop (metrics : list string)
    (keras_metrics : list keras_metric) : exn + list keras_metric :=
  match metrics with
  | [] => inr keras_metrics
  | m :: rest =>
      let metric :=
        if String.eqb m "accuracy" then Some (MetricName m)
        else if String.eqb m "precision" then Some Precision
        else if String.eqb m "recall" then Some Recall
        else None in
      match metric with
      | None => inl AssertionError
      | Some metric => parse_metrics_loop rest (keras_metrics ++ [metric])
      end
  end.

Definition parse_metrics (metrics : list string) : exn + list keras_metric :=
  parse_metrics_loop metrics [].

(** ** [speech_dataset_to_embeddings] (speechbox.preprocess.spherediar) *)

(** The first loop: every result of [system.run_for_files], decoded by
    [json.loads] to a dict from paths to files, is added to
    [paths_to_numpyfiles] after the assertion that none of its paths is
    there already. *)
Fixpoint merge_batches (batches : list (gmap string string))
    (paths_to_numpyfiles : gmap string string) : exn + gmap string string :=
  match batches with
  | [] => inr paths_to_numpyfiles
  | batch :: rest =>
      if bool_decide (dom batch ∩ dom paths_to_numpyfiles = ∅)
      then merge_batches rest (batch ∪ paths_to_numpyfiles)
      else inl AssertionError
  end.

(** The target vector of one sample:
    [onehot = np.zeros(len(label_to_index), dtype=np.float32)] and
    [onehot[label_to_index[label]] = 1.0], for a [label_to_index] with
    indexes that are not negative (as [make_label_to_index_dict] builds
    them). *)
Definition onehot (label_to_index : gmap string nat) (label : string)
    : exn + list Q :=
  let zeros := replicate (size label_to_index) 0%Q in
  match label_to_index !! label with
  | None => inl KeyError
  | Some i =>
      if bool_decide (i < size label_to_index)%nat
      then inr (<[i := 1%Q]> zeros)
      else inl IndexError
  end.

(** ** A small corpus

    An OGI corpus under [/data] with English recordings only: two speakers
    with readable files, one file that cannot be read, one entry that does
    not exist, one file that is no recording, and in a subdirectory a
    second recording of the first speaker with the content of the first.
    The stand-in for [md5sum] hashes a file to the first five characters
    of its name. *)

Module Demo.

Definition english : list (string * list string * list string) :=
  [("/data/wav/english", ["more"],
      ["en001abc.wav"; "en002abc.wav"; "notes.txt"; "ghost.wav"; "en003bad.wav"]);
   ("/data/wav/english/more", [], ["en001xyz.wav"])].

Definition sys : system :=
  {| os_path_exists := λ p, negb (String.eqb p "/data/wav/english/ghost.wav");
     os_walk := λ top followlinks,
       if String.eqb top "/data/wav/english" then english else [];
     read_wavfile := λ p,
       if Str.endswith p "bad.wav" then (None, None)
       else (Some [0%Z], Some 8000%Z);
     md5sum := λ p, Str.take 5 (Str.basename p) |}.

(** the same corpus with an [os.walk] that, following links, would report
    the Vietnamese directory a second time under the same path: the input
    on which the guard of [walk] raises.  No file system makes [os.walk]
    produce it (lemma [guard_never_fires]). *)
Definition looping : system :=
  {| os_path_exists := os_path_exists sys;
     os_walk := λ top followlinks,
       if String.eqb top "/data/wav/vietnam" && followlinks
       then [("/data/wav/vietnam", ["back"], ["vi001abc.wav"]);
             ("/data/wav/vietnam", ["back"], ["vi001abc.wav"])]
       else os_walk sys top followlinks;
     read_wavfile := read_wavfile sys;
     md5sum := md5sum sys |}.

(** A corpus whose English directory holds one recording and a symbolic
    link [back] to the directory itself.  The operating system follows at
    most [max_links] links when it resolves a path (40 on Linux) and
    refuses longer chains; [links p] counts the links in
    [/data/wav/english/back/.../back]. *)
Definition max_links : nat := 40.

Fixpoint links (fuel : nat) (p : string) : option nat :=
  if String.eqb p "/data/wav/english" then Some 0
  else
    match fuel with
    | 0 => None
    | S fuel' =>
        if Str.endswith p "/back"
        then S <$> links fuel' (String.substring 0 (String.length p - 5) p)
        else None
    end.

(** the path names the directory, through at most [max_links] links *)
Definition resolves (p : string) : bool :=
  match links (S max_links) p with
  | Some k => (k <=? max_links)%nat
  | None => false
  end.

(** At the deepest level the entry [back] cannot be resolved any more:
    [entry.is_dir()] fails and [os.walk] lists it among the files. *)
Definition linked_fs : filesystem :=
  {| scandir := λ p,
       match links (S max_links) p with
       | Some k =>
           if (k <? max_links)%nat then Some (["back"], ["en001abc.wav"])
           else if (k =? max_links)%nat then Some ([], ["en001abc.wav"; "back"])
           else None
       | None => None
       end;
     islink := λ p, Str.endswith p "/back" |}.

Definition linked : system :=
  {| os_path_exists := λ p,
       resolves p
       || (Str.endswith p "/en001abc.wav"
           && resolves (String.substring 0 (String.length p - 13) p));
     os_walk := os_walk_from linked_fs (S (S max_links));
     read_wavfile := λ p, (Some [0%Z], Some 8000%Z);
     md5sum := λ p, Str.take 5 (Str.basename p) |}.

(** the walker before [parse_directory_tree] *)
Definition bare : walker :=
  {| dataset_root := Some "/data";
     sample_frequency := None;
     label_definitions := OGI.labels;
     ignored_speaker_ids_by_label := ∅ |}.

(** [OGIWalker(dataset_root="/data")] *)
Definition ogi : walker :=
  match OGI.new (Some "/data") None None None None with
  | inr self => self
  | inl _ => bare
  end.

(** [{"eng": ["en002"]}] *)
Definition only_en002 : gmap string (list string) := {[ "eng" := ["en002"] ]}.

End Demo.

(** ** A walker made from lists *)

Module Given.

(** two recordings of the small corpus and their labels and checksums *)
Definition paths : list string :=
  ["/data/wav/english/en001abc.wav"; "/data/wav/english/en002abc.wav"].
Definition labels : list string := ["eng"; "eng"].
Definition checksums : list string := ["en001"; "en002"].

(** the walker with the OGI labels after
    [overwrite_target_paths(paths, labels, checksums)] *)
Definition listed : walker :=
  match overwrite_target_paths Demo.bare paths labels checksums with
  | inr self => self
  | inl _ => Demo.bare
  end.

(** the small corpus as a file system: the English directory and its
    subdirectory [more], no links *)
Definition fs : filesystem :=
  {| scandir := λ p,
       if String.eqb p "/data/wav/english"
       then Some (["more"], ["en001abc.wav"; "en002abc.wav"; "notes.txt"])
       else if String.eqb p "/data/wav/english/more"
       then Some ([], ["en001xyz.wav"])
       else None;
     islink := λ p, false |}.

Definition sys : system :=
  {| os_path_exists := λ p, true;
     os_walk := os_walk_from fs 3;
     read_wavfile := read_wavfile Demo.sys;
     md5sum := md5sum Demo.sys |}.

(** the small corpus of [Demo] with a [read_wavfile] that, beside the
    damaged recording, cannot read the entry that does not exist *)
Definition strict : system :=
  {| os_path_exists := os_path_exists Demo.sys;
     os_walk := os_walk Demo.sys;
     read_wavfile := λ p,
       if os_path_exists Demo.sys p then read_wavfile Demo.sys p
       else (None, None);
     md5sum := md5sum Demo.sys |}.

(** what [speaker_ids_by_label] returns on it *)
Definition own_speakers : gmap string (list string) :=
  match speaker_ids_by_label sys OGI.class Demo.ogi with
  | inr ids => ids
  | inl _ => ∅
  end.

End Given.

(** ** A corpus under a relative root

    The English directory [data/wav/english] of an OGI corpus, given by the
    relative path [data], holds one recording.  With [copy], the corpus
    has a copy of itself inside, so that [data/data/wav/english] holds the
    recording as well. *)

Module Relative.

Definition fs (copy : bool) : filesystem :=
  {| scandir := λ p,
       if String.eqb p "data/wav/english"
          || (copy && String.eqb p "data/data/wav/english")
       then Some ([], ["en001abc.wav"])
       else None;
     islink := λ p, false |}.

Definition sys (copy : bool) : system :=
  {| os_path_exists := λ p,
       String.eqb p "data/wav/english/en001abc.wav"
       || (copy && String.eqb p "data/data/wav/english/en001abc.wav");
     os_walk := os_walk_from (fs copy) 3;
     read_wavfile := λ p, (Some [0%Z], Some 8000%Z);
     md5sum := λ p, Str.take 5 (Str.basename p) |}.

(** [OGIWalker(dataset_root="data")] *)
Definition ogi : walker :=
  match OGI.new (Some "data") None None None None with
  | inr self => self
  | inl _ => Demo.bare
  end.

End Relative.

(** ** Vocabulary of the statements *)

(** A relation [R] between the closure variables before a piece of code,
    the triples it yields and the closure variables after it, holds of the
    code. *)
Definition respects {A} (R : closure → list triple → closure → Prop)
    (m : gen A) : Prop :=
  ∀ st, R st (yields (m st)) (final (m st)).

(** The pairs of label and path that a walk can hand to [audiofile_ok]:
    [join_root(parent, f)] for a directory [parent] and a file name [f]
    that [os.walk] reports below one of the label's sample directories, or
    one of the label's sample files. *)
Definition reachable (sys : system) (self : walker) (followlinks : bool)
    (label wavpath : string) : Prop :=
  ∃ definition, label_definitions self !! label = Some definition ∧
    ((∃ sample_dir parent dirs files f,
        sample_dir ∈ default [] (sample_dirs definition) ∧
        (parent, dirs, files) ∈ os_walk sys sample_dir followlinks ∧
        f ∈ files ∧
        join_root self [parent; f] = inr wavpath)
     ∨ wavpath ∈ default [] (sample_files definition)).

(** [duplicates[h]], read without inserting *)
Definition dups_at (st : closure) (h : string) : list string :=
  default [] (duplicates st !! h).

(** the paths built from the output of one [os.walk] *)
Definition tree_paths (root : string)
    (entries : list (string * list string * list string)) : list string :=
  flat_map (λ entry, map (λ f, Str.join root [entry.1.1; f]) entry.2) entries.

(** the paths that the iteration for one label passes to [audiofile_ok],
    in order *)
Definition label_paths (sys : system) (self : walker) (followlinks : bool)
    (label : string) : list string :=
  match label_definitions self !! label with
  | None => []
  | Some definition =>
      flat_map (λ sample_dir,
                  tree_paths (default "" (dataset_root self))
                    (os_walk sys sample_dir followlinks))
               (default [] (sample_dirs definition))
      ++ default [] (sample_files definition)
  end.

(** the paths that a walk which is not cut short passes to [audiofile_ok],
    in order; a walk cut short by an exception has examined the first
    [num_walked] of them *)
Definition candidates (sys : system) (self : walker) (followlinks : bool)
    : list string :=
  flat_map (label_paths sys self followlinks)
    (Str.sorted (elements (dom (label_definitions self)))).

(** the file exists and the read check, when enabled, rejects it *)
Definition unreadable (sys : system) (check_read : bool) (p : string) : bool :=
  os_path_exists sys p && check_read
  && bool_decide ((read_wavfile sys p).1 = None).

(** the file exists, passes the read check when enabled, and hashes to [h] *)
Definition hashes_to (sys : system) (check_read : bool) (h p : string) : bool :=
  os_path_exists sys p && negb (unreadable sys check_read p)
  && String.eqb (md5sum sys p) h.

(** What examining [paths], in order, does to the closure variables. *)
Definition logged (sys : system) (check_duplicates check_read : bool)
    (paths : list string) (st st' : closure) : Prop :=
  num_walked st' = num_walked st + length paths ∧
  invalid_files st' =
    invalid_files st ++ List.filter (unreadable sys check_read) paths ∧
  ∀ h, dups_at st' h =
         dups_at st h ++
         (if check_duplicates
          then List.filter (hashes_to sys check_read h) paths else []).

(** A piece of generator code examines a prefix of [paths], all of it when
    it ends without exception. *)
Definition tracks (sys : system) (check_duplicates check_read : bool)
    (paths : list string) (m : gen unit) : Prop :=
  ∀ st, ∃ k : nat, (k ≤ length paths)%nat ∧
    (outcome (m st) = inr tt → k = length paths) ∧
    logged sys check_duplicates check_read (take k paths) st (final (m st)).

(** With [check_duplicates], between two points of a walk: the lists of
    the table only grow at their end, and each triple yielded in between
    has a hash that was new at the first point and whose list begins with
    the triple's path at the second. *)
Definition first_of_hash (sys : system) (st : closure) (ys : list triple)
    (st' : closure) : Prop :=
  (∀ h, dups_at st h `prefix_of` dups_at st' h) ∧
  NoDup (map (λ t, md5sum sys (t_path t)) ys) ∧
  ∀ t, t ∈ ys →
    dups_at st (md5sum sys (t_path t)) = [] ∧
    ∃ later, dups_at st' (md5sum sys (t_path t)) = t_path t :: later.

(** the same environment with another [read_wavfile] *)
Definition with_read_wavfile (sys : system)
    (read : string → option (list Z) * option Z) : system :=
  {| os_path_exists := os_path_exists sys;
     os_walk := os_walk sys;
     read_wavfile := read;
     md5sum := md5sum sys |}.

(** [seen_directories] after the traversal went through [entries] *)
Definition seen_after (root : string)
    (entries : list (string * list string * list string))
    (seen : gset string) : gset string :=
  fold_left (λ s entry, {[Str.join root [entry.1.1]]} ∪ s) entries seen.

(** the argument was given and is a non-empty list *)
Definition given_nonempty (x : option (list string)) : Prop :=
  ∃ a l, x = Some (a :: l).

(** the speaker ids parsed from the paths of the triples of one label *)
Fixpoint speakers_of (parse : string → exn + string) (ys : list triple)
    (label : string) : gset string :=
  match ys with
  | [] => ∅
  | t :: rest =>
      (if String.eqb (t_label t) label
       then match parse (t_path t) with
            | inr speaker_id => {[speaker_id]}
            | inl _ => ∅
            end
       else ∅) ∪ speakers_of parse rest label
  end.

(** The path of a triple was found by traversing the dataset tree of its
    label: it is [os.path.join(parent, f)], the path of a file [f] that
    [os.walk] lists in a directory [parent] below one of the label's tree
    entries joined onto the root; or it is one of the label's sample
    files. *)
Definition found_in_dataset_tree (sys : system) (followlinks : bool)
    (tree : gmap string (list (list string))) (root : string)
    (self : walker) (t : triple) : Prop :=
  (∃ entries paths parent dirs files f,
      tree !! t_label t = Some entries ∧
      paths ∈ entries ∧
      (parent, dirs, files) ∈ os_walk sys (Str.join root paths) followlinks ∧
      f ∈ files ∧
      t_path t = Str.join parent [f])
  ∨ (∃ d, label_definitions self !! t_label t = Some d ∧
          t_path t ∈ default [] (sample_files d)).

(** with [check_read], every examined file that [read_wavfile] cannot
    read is recorded in [invalid_files] *)
Definition every_unreadable_examined_file_recorded (sys : system)
    (cls : walker_class) (self : walker)
    (check_duplicates followlinks : bool) : Prop :=
  let r := walk sys cls self check_duplicates true followlinks in
  ∀ p, p ∈ take (num_walked (final r)) (candidates sys self followlinks) →
       (read_wavfile sys p).1 = None →
       p ∈ invalid_files (final r).

(** [counts] and [ids] are the speaker statistics of the triples [ys]: per
    label of [defs], the number of distinct speaker ids and their sorted
    list *)
Definition statistics_of (defs : gmap string label_def)
    (parse : string → exn + string) (ys : list triple)
    (counts : gmap string nat) (ids : gmap string (list string)) : Prop :=
  dom counts = dom defs ∧
  dom ids = dom defs ∧
  ∀ label, label ∈ dom defs →
    counts !! label = Some (size (speakers_of parse ys label)) ∧
    ∃ l, ids !! label = Some l ∧ Sorted Str.le l ∧ NoDup l ∧
         ∀ s, s ∈ l ↔ s ∈ speakers_of parse ys label.

(** with [check_duplicates], every examined file that exists has its hash
    computed and is entered under it in the table *)
Definition every_examined_file_hashed (sys : system) (cls : walker_class)
    (self : walker) (check_read followlinks : bool) : Prop :=
  let r := walk sys cls self true check_read followlinks in
  ∀ p, p ∈ take (num_walked (final r)) (candidates sys self followlinks) →
       os_path_exists sys p = true →
       p ∈ dups_at (final r) (md5sum sys p).

(** the listings of a file system name their directories by non-empty
    names without ['/'], each once *)
Definition well_listed (fs : filesystem) : Prop :=
  ∀ p dirs nondirs, scandir fs p = Some (dirs, nondirs) →
    NoDup dirs ∧ ∀ d, d ∈ dirs → d ≠ "" ∧ Str.contains_sep d = false.

(** the directory paths that [os.walk] reports *)
Definition walk_paths (fs : filesystem) (depth : nat) (top : string)
    (followlinks : bool) : list string :=
  map (λ entry, entry.1.1) (os_walk_from fs depth top followlinks).

(** the rest of a path after a directory name: nothing, or ['/'] and more *)
Definition is_tail (x : string) : Prop :=
  x = "" ∨ ∃ rest, x = String "/"%char rest.

(** the separator that [os.path.join] puts after [top] *)
Definition sep_after (top : string) : string :=
  if String.eqb top "" || Str.endswith top "/" then "" else "/".

(** [parse_speaker_id], where the class has it, does not itself raise
    [DatasetRecursionError] *)
Definition parse_keeps_off_recursion_error (cls : walker_class) : Prop :=
  ∀ parse p, parse_speaker_id cls = Some parse →
             parse p ≠ inl DatasetRecursionError.

(** the phonemes of a segmentation that are no comments (a comment starts
    with a dot) *)
Definition spoken (phoneseg : list (Z * Z * string)) : list string :=
  List.filter (λ phoneme, negb (Str.startswith phoneme "."))
    (map (λ item, item.2) phoneseg).

(** [sep] occurs in [s] *)
Definition occurs (sep s : string) : Prop :=
  ∃ x y, s = String.append x (String.append sep y).

(** the character [c] occurs in [s] *)
Fixpoint has_char (c : ascii) (s : string) : bool :=
  match s with
  | EmptyString => false
  | String c' rest => Ascii.eqb c' c || has_char c rest
  end.

(** the paths (the checksums) given for [label], in the order given *)
Definition paths_of (label : string) (items : list (string * string * string))
    : list string :=
  map (λ item, item.1.2) (List.filter (λ item, String.eqb item.1.1 label) items).

Definition checksums_of (label : string)
    (items : list (string * string * string)) : list string :=
  map (λ item, item.2) (List.filter (λ item, String.eqb item.1.1 label) items).

(** the pairs of label and path that a walk which is not cut short passes
    to [audiofile_ok], in order *)
Definition labelled_paths (sys : system) (self : walker) (followlinks : bool)
    (label : string) : list (string * string) :=
  map (pair label) (label_paths sys self followlinks label).

Definition labelled_candidates (sys : system) (self : walker)
    (followlinks : bool) : list (string * string) :=
  flat_map (labelled_paths sys self followlinks)
    (Str.sorted (elements (dom (label_definitions self)))).

(** what [audiofile_ok] answers without [check_duplicates] and
    [check_read]: the file exists, its speaker is not ignored and its name
    ends with ["wav"] *)
Definition accepts (sys : system) (cls : walker_class) (self : walker)
    (item : string * string) : bool :=
  os_path_exists sys item.2
  && bool_decide (check_filters cls self item.2 item.1 = inr true).

Definition triple_of (sys : system) (item : string * string) : triple :=
  (item.1, item.2, md5sum sys item.2).

(** A piece of generator code, run without the two checks, examines a
    prefix of [items] (all of it when it ends without exception) and
    yields those it accepts. *)
Definition emits (sys : system) (cls : walker_class) (self : walker)
    (items : list (string * string)) (m : gen unit) : Prop :=
  ∀ st, ∃ k : nat, (k ≤ length items)%nat ∧
    (outcome (m st) = inr tt → k = length items) ∧
    num_walked (final (m st)) = num_walked st + k ∧
    yields (m st)
      = map (triple_of sys) (List.filter (accepts sys cls self) (take k items)).

(** the speaker check cannot raise: nothing is filtered, or the class
    parses every path *)
Definition speaker_check_is_total (cls : walker_class) (self : walker) : Prop :=
  ignored_speaker_ids_by_label self = ∅ ∨
  ∃ parse, parse_speaker_id cls = Some parse ∧
           ∀ p, ∃ speaker_id, parse p = inr speaker_id.

(** the metric that [parse_metrics] makes of a known name *)
Definition metric_of (m : string) (k : keras_metric) : Prop :=
  (m = "accuracy" ∧ k = MetricName "accuracy")
  ∨ (m = "precision" ∧ k = Precision)
  ∨ (m = "recall" ∧ k = Recall).

Definition known_metric (m : string) : Prop :=
  m = "accuracy" ∨ m = "precision" ∨ m = "recall".

(** two different batches report the same path *)
Definition reported_twice (batches : list (gmap string string))
    (path : string) : Prop :=
  ∃ i j b1 b2, (i < j)%nat ∧ batches !! i = Some b1 ∧ batches !! j = Some b2
               ∧ path ∈ dom b1 ∧ path ∈ dom b2.

(** the number of triples of [label] whose path parses to [speaker_id] *)
Definition count_of (parse : string → exn + string) (ys : list triple)
    (label speaker_id : string) : nat :=
  length (List.filter
            (λ t, String.eqb (t_label t) label
                  && bool_decide (parse (t_path t) = inr speaker_id)) ys).

(** * Verification *)

(** ** Strings *)

Lemma substring_all (s : string) : String.substring 0 (String.length s) s = s.
Proof. induction s as [|c s IH]; simpl; [done | by rewrite IH]. Qed.

Lemma substring_append_r (a b : string) :
  String.substring (String.length a) (String.length b) (String.append a b) = b.
Proof. induction a as [|c a IH]; simpl; [apply substring_all | done]. Qed.

Lemma length_append (a b : string) :
  String.length (String.append a b) = String.length a + String.length b.
Proof. induction a as [|c a IH]; simpl; [done | by rewrite IH]. Qed.

Lemma substring_split (n : nat) (s : string) :
  (n ≤ String.length s)%nat →
  s = String.append (String.substring 0 n s)
        (String.substring n (String.length s - n) s).
Proof.
  revert n. induction s as [|c s IH]; intros [|n] Hn; simpl in Hn |- *.
  - done.
  - lia.
  - by rewrite substring_all.
  - change (String c s = String c (String.append (String.substring 0 n s)
              (String.substring n (String.length s - n) s))).
    f_equal. apply IH. lia.
Qed.

(** [endswith] is the suffix test it is named after. *)
Lemma endswith_spec (s suffix : string) :
  Str.endswith s suffix = true ↔ ∃ stem, s = String.append stem suffix.
Proof.
  unfold Str.endswith. rewrite andb_true_iff, Nat.leb_le, String.eqb_eq. split.
  - intros [Hlen Hsub].
    exists (String.substring 0 (String.length s - String.length suffix) s).
    pose proof (substring_split (String.length s - String.length suffix) s) as Hs.
    replace (String.length s - (String.length s - String.length suffix))
      with (String.length suffix) in Hs by lia.
    rewrite Hsub in Hs. apply Hs. lia.
  - intros [stem ->]. rewrite length_append. split; [lia|].
    replace (String.length stem + String.length suffix - String.length suffix)
      with (String.length stem) by lia.
    apply substring_append_r.
Qed.

(** ** Reasoning about generator code *)

Lemma run_bind {A B} (m : gen A) (f : A → gen B) (st : closure) :
  (m ≫= f) st =
    match m st with
    | (ys, st1, inl e) => (ys, st1, inl e)
    | (ys, st1, inr a) =>
        match f a st1 with
        | (ys', st2, r) => (ys ++ ys', st2, r)
        end
    end.
Proof. reflexivity. Qed.

Lemma run_for_each_cons {A} (x : A) (l : list A) (body : A → gen unit) st :
  for_each (x :: l) body st = (body x ≫= λ _, for_each l body) st.
Proof. reflexivity. Qed.

(** A relation between the closure variables before a piece of code, the
    triples it yields and the closure variables after it, that holds of
    doing nothing and composes along sequencing, holds of every loop whose
    elementary steps satisfy it. *)
Section Respects.

Variable R : closure → list triple → closure → Prop.
Hypothesis R_skip : ∀ st, R st [] st.
Hypothesis R_seq : ∀ st ys st1 ys' st2,
  R st ys st1 → R st1 ys' st2 → R st (ys ++ ys') st2.

Lemma respects_ret {A} (x : A) : respects R (mret x).
Proof. intros st. apply R_skip. Qed.

Lemma respects_raise {A} (e : exn) : respects R (@raise A e).
Proof. intros st. apply R_skip. Qed.

Lemma respects_lift {A} (r : exn + A) : respects R (lift r).
Proof. intros st. apply R_skip. Qed.

Lemma respects_bind {A B} (m : gen A) (f : A → gen B) :
  respects R m → (∀ a, respects R (f a)) → respects R (m ≫= f).
Proof.
  intros Hm Hf st. rewrite run_bind. specialize (Hm st).
  destruct (m st) as [[ys st1] [e|a]]; [exact Hm|].
  specialize (Hf a st1). destruct (f a st1) as [[ys' st2] r].
  by eapply R_seq.
Qed.

Lemma respects_lift_bind {A B} (r : exn + A) (f : A → gen B) :
  (∀ a, r = inr a → respects R (f a)) → respects R (lift r ≫= f).
Proof.
  intros Hf st. rewrite run_bind. unfold lift.
  destruct r as [e|a]; [apply R_skip|].
  specialize (Hf a eq_refl st). destruct (f a st) as [[ys' st2] r].
  apply (R_seq st [] st); [apply R_skip | exact Hf].
Qed.

Lemma respects_for_each {A} (l : list A) (body : A → gen unit) :
  (∀ x, x ∈ l → respects R (body x)) → respects R (for_each l body).
Proof.
  induction l as [|x l IH]; intros Hbody.
  - apply respects_ret.
  - intros st. rewrite run_for_each_cons. revert st.
    apply respects_bind; [apply Hbody; left|].
    intros _. apply IH. intros y Hy. apply Hbody. by right.
Qed.

End Respects.

Section WalkRespects.

Variable sys : system.
Variable cls : walker_class.
Variable self : walker.
Variables check_duplicates check_read followlinks : bool.

Variable R : closure → list triple → closure → Prop.
Hypothesis R_skip : ∀ st, R st [] st.
Hypothesis R_seq : ∀ st ys st1 ys' st2,
  R st ys st1 → R st1 ys' st2 → R st (ys ++ ys') st2.
Hypothesis R_count : respects R count_walked.
Hypothesis R_examine : ∀ label wavpath,
  reachable sys self followlinks label wavpath →
  respects R (examine sys cls self check_duplicates check_read label wavpath).

Lemma respects_walk_tree label definition sample_dir entries seen :
  label_definitions self !! label = Some definition →
  sample_dir ∈ default [] (sample_dirs definition) →
  entries ⊆ os_walk sys sample_dir followlinks →
  respects R (walk_tree sys cls self check_duplicates check_read label entries seen).
Proof.
  intros Hdef Hdir. revert seen.
  induction entries as [|[[parent dirs] files] rest IH]; intros seen Hsub.
  - by apply respects_ret.
  - simpl. apply respects_bind; [done | by apply respects_lift |].
    intros this_dir. case_bool_decide; [by apply respects_raise|].
    apply respects_bind; [done | |].
    + apply respects_for_each; [done..|]. intros f Hf.
      unfold walk_file. apply respects_bind; [done..|]. intros _.
      apply respects_lift_bind; [done..|]. intros wavpath Hjoin.
      apply R_examine. exists definition. split; [done|]. left.
      exists sample_dir, parent, dirs, files, f.
      repeat split; try done. apply Hsub. by left.
    + intros _. apply IH. intros x Hx. apply Hsub. by right.
Qed.

Lemma respects_walk_label label :
  respects R (walk_label sys cls self check_duplicates check_read followlinks label).
Proof.
  unfold walk_label.
  destruct (label_definitions self !! label) as [definition|] eqn:Hdef;
    [|by apply respects_raise].
  apply respects_bind; [done | |].
  - apply respects_for_each; [done..|]. intros sample_dir Hdir.
    by eapply respects_walk_tree.
  - intros _. apply respects_for_each; [done..|]. intros wavpath Hfile.
    unfold walk_sample_file. apply respects_bind; [done..|]. intros _.
    apply R_examine. exists definition. split; [done|]. by right.
Qed.

Lemma respects_walk :
  R closure0 (yields (walk sys cls self check_duplicates check_read followlinks))
    (final (walk sys cls self check_duplicates check_read followlinks)).
Proof.
  unfold walk, walk_body. apply respects_for_each; [done..|].
  intros label _. apply respects_walk_label.
Qed.

End WalkRespects.

(** ** What [audiofile_ok] accepts *)

Section AudiofileOk.

Variable sys : system.
Variable cls : walker_class.
Variable self : walker.
Variables check_duplicates check_read followlinks : bool.

Lemma run_examine label wavpath st :
  examine sys cls self check_duplicates check_read label wavpath st =
    match audiofile_ok sys cls self check_duplicates check_read wavpath label st with
    | (st', inl e) => ([], st', inl e)
    | (st', inr true) => ([(label, wavpath, md5sum sys wavpath)], st', inr tt)
    | (st', inr false) => ([], st', inr tt)
    end.
Proof.
  unfold examine. rewrite run_bind. unfold update.
  destruct (audiofile_ok _ _ _ _ _ _ _ _) as [st' [e|[|]]]; reflexivity.
Qed.

Lemma check_filters_true wavpath label :
  check_filters cls self wavpath label = inr true →
  speaker_id_is_ignored cls self wavpath label = inr false ∧
  Str.endswith wavpath "wav" = true.
Proof.
  unfold check_filters.
  destruct (speaker_id_is_ignored cls self wavpath label) as [e|[|]];
    [done..|].
  simpl. rewrite orb_false_r. intros [= ->]. done.
Qed.

Lemma check_hash_true wavpath label st st' :
  check_hash sys cls self check_duplicates wavpath label st = (st', inr true) →
  check_filters cls self wavpath label = inr true ∧
  (if check_duplicates
   then dups_at st (md5sum sys wavpath) = [] ∧
        st' = record_duplicate (md5sum sys wavpath) wavpath st
   else st' = st).
Proof.
  unfold check_hash. destruct check_duplicates.
  - simpl. rewrite lookup_insert_eq. simpl. rewrite length_app. simpl.
    destruct (1 <? _)%nat eqn:Hlen; [done|].
    intros [= <- Hf]. apply Nat.ltb_ge in Hlen.
    split; [done|]. split; [|done]. unfold dups_at.
    destruct (default [] (duplicates st !! md5sum sys wavpath)); [done|].
    simpl in Hlen. lia.
  - by intros [= <- ->].
Qed.

Lemma audiofile_ok_true wavpath label st st' :
  audiofile_ok sys cls self check_duplicates check_read wavpath label st
    = (st', inr true) →
  os_path_exists sys wavpath = true ∧
  (check_read = true → (read_wavfile sys wavpath).1 ≠ None) ∧
  check_hash sys cls self check_duplicates wavpath label st = (st', inr true).
Proof.
  unfold audiofile_ok.
  destruct (os_path_exists sys wavpath); simpl; [|done].
  destruct check_read.
  - destruct (read_wavfile sys wavpath) as [[wav|] srate]; [|done].
    by intros ->.
  - by intros ->.
Qed.

(** Whatever holds of every accepted reachable file holds of every
    yielded triple. *)
Lemma walk_yields_sat (P : triple → Prop) :
  (∀ label wavpath st st',
      reachable sys self followlinks label wavpath →
      audiofile_ok sys cls self check_duplicates check_read wavpath label st
        = (st', inr true) →
      P (label, wavpath, md5sum sys wavpath)) →
  Forall P (yields (walk sys cls self check_duplicates check_read followlinks)).
Proof.
  intros HP.
  apply (respects_walk sys cls self check_duplicates check_read followlinks
           (λ _ ys _, Forall P ys)).
  - done.
  - intros st ys st1 ys' st2 H1 H2. by apply Forall_app.
  - by intros st.
  - intros label wavpath Hreach st. rewrite run_examine.
    destruct (audiofile_ok _ _ _ _ _ _ _ _) as [st' [e|[|]]] eqn:Hok;
      simpl; [done| |done].
    apply Forall_singleton. by eapply HP.
Qed.

End AudiofileOk.

(** ** Checksums, extension, speaker filter *)

(** C6: every triple yielded by [walk], whatever the flags, carries as
    third component [md5sum] of its path. *)
Theorem walk_checksum_is_md5sum (sys : system) (cls : walker_class)
    (self : walker) (check_duplicates check_read followlinks : bool) :
  Forall (λ t, t_checksum t = md5sum sys (t_path t))
    (yields (walk sys cls self check_duplicates check_read followlinks)).
Proof. apply walk_yields_sat. reflexivity. Qed.

(** C9: under every combination of flags, every path yielded by [walk]
    ends with ["wav"], for files found below sample directories and for
    sample files alike (both pass through [audiofile_ok]). *)
Theorem walk_yields_wav_only (sys : system) (cls : walker_class)
    (self : walker) (check_duplicates check_read followlinks : bool) :
  Forall (λ t, ∃ stem, t_path t = String.append stem "wav")
    (yields (walk sys cls self check_duplicates check_read followlinks)).
Proof.
  apply walk_yields_sat. intros label wavpath st st' _ Hok.
  apply audiofile_ok_true in Hok as (_ & _ & Hhash).
  apply check_hash_true in Hhash as [Hfilters _].
  apply check_filters_true in Hfilters as [_ Hext].
  by apply endswith_spec.
Qed.

(** C3: after [set_speaker_filter d] on a walker whose class has
    [parse_speaker_id], a walk yields a file whose label is a key of [d]
    only if its parsed speaker id is in the set built from the label's
    entry; a label that is not a key of [d] is never ignored; and a walker
    fresh from the constructor ignores nothing. *)
Theorem speaker_filter_is_set_based (sys : system) (cls : walker_class)
    (self : walker) (d : gmap string (list string))
    (parse : string → exn + string)
    (check_duplicates check_read followlinks : bool) :
  parse_speaker_id cls = Some parse →
  (∀ t ids,
      t ∈ yields (walk sys cls (set_speaker_filter self d)
                    check_duplicates check_read followlinks) →
      d !! t_label t = Some ids →
      ∃ speaker_id, parse (t_path t) = inr speaker_id ∧
                    speaker_id ∈ (list_to_set ids : gset string)) ∧
  (∀ wavpath label,
      d !! label = None →
      speaker_id_is_ignored cls (set_speaker_filter self d) wavpath label
        = inr false) ∧
  (∀ dataset_root paths labels checksums sample_frequency fresh wavpath label,
      init dataset_root paths labels checksums sample_frequency = inr fresh →
      speaker_id_is_ignored cls fresh wavpath label = inr false).
Proof.
  intros Hparse. split; [|split].
  - assert (Forall (λ t, ∀ ids, d !! t_label t = Some ids →
               ∃ speaker_id, parse (t_path t) = inr speaker_id ∧
                             speaker_id ∈ (list_to_set ids : gset string))
              (yields (walk sys cls (set_speaker_filter self d)
                         check_duplicates check_read followlinks))) as Hall.
    { apply walk_yields_sat. intros label wavpath st st' _ Hok ids Hids.
      apply audiofile_ok_true in Hok as (_ & _ & Hhash).
      apply check_hash_true in Hhash as [Hfilters _].
      apply check_filters_true in Hfilters as [Hspeaker _].
      unfold speaker_id_is_ignored in Hspeaker.
      unfold t_label, t_path in *. simpl in Hspeaker, Hids |- *.
      rewrite lookup_fmap, Hids, Hparse in Hspeaker. simpl in Hspeaker.
      destruct (parse wavpath) as [e|speaker_id]; [done|].
      exists speaker_id. split; [done|].
      injection Hspeaker as Hin. apply negb_false_iff in Hin.
      by apply bool_decide_eq_true in Hin. }
    intros t ids Ht Hd. rewrite Forall_forall in Hall. by apply Hall.
  - intros wavpath label Hnone. unfold speaker_id_is_ignored. simpl.
    by rewrite lookup_fmap, Hnone.
  - intros dr paths labels checksums sf fresh wavpath label Hinit.
    assert (ignored_speaker_ids_by_label fresh = ∅) as Hempty.
    { unfold init in Hinit.
      destruct dr; destruct (_ && _); by inversion Hinit. }
    unfold speaker_id_is_ignored. by rewrite Hempty, lookup_empty.
Qed.

(** ** The files a walk examines *)

Section Tracks.

Variable sys : system.
Variable cls : walker_class.
Variable self : walker.
Variables check_duplicates check_read followlinks : bool.

Lemma logged_nil st : logged sys check_duplicates check_read [] st st.
Proof.
  repeat split; simpl; [lia | by rewrite app_nil_r |].
  intros h. destruct check_duplicates; by rewrite app_nil_r.
Qed.

Lemma logged_app p1 p2 st st1 st2 :
  logged sys check_duplicates check_read p1 st st1 →
  logged sys check_duplicates check_read p2 st1 st2 →
  logged sys check_duplicates check_read (p1 ++ p2) st st2.
Proof.
  intros (Hn1 & Hi1 & Hd1) (Hn2 & Hi2 & Hd2). repeat split.
  - rewrite length_app. lia.
  - by rewrite Hi2, Hi1, List.filter_app, app_assoc.
  - intros h. rewrite Hd2, Hd1.
    destruct check_duplicates; [|by rewrite !app_nil_r].
    by rewrite List.filter_app, app_assoc.
Qed.

Lemma tracks_ret : tracks sys check_duplicates check_read [] (mret tt).
Proof.
  intros st. exists 0. split; [done|]. split; [done|]. apply logged_nil.
Qed.

Lemma tracks_seq p1 p2 (m k : gen unit) :
  tracks sys check_duplicates check_read p1 m →
  tracks sys check_duplicates check_read p2 k →
  tracks sys check_duplicates check_read (p1 ++ p2) (m ≫= λ _, k).
Proof.
  intros Hm Hk st. rewrite run_bind.
  destruct (Hm st) as (k1 & Hle1 & Hall1 & Hlog1).
  destruct (m st) as [[ys st1] [e|[]]]; unfold outcome, final in *; simpl in *.
  - exists k1. rewrite length_app. split; [lia|]. split; [done|].
    by rewrite take_app_le.
  - specialize (Hall1 eq_refl). subst k1. rewrite firstn_all in Hlog1.
    destruct (Hk st1) as (k2 & Hle2 & Hall2 & Hlog2).
    destruct (k st1) as [[ys' st2] r]; simpl in *.
    exists (length p1 + k2). rewrite length_app. split; [lia|].
    split; [intros Hr; rewrite (Hall2 Hr); lia|].
    rewrite take_app_add. by eapply logged_app.
Qed.

Lemma tracks_for_each {A} (paths_of : A → list string) (l : list A)
    (body : A → gen unit) :
  (∀ x, x ∈ l → tracks sys check_duplicates check_read (paths_of x) (body x)) →
  tracks sys check_duplicates check_read (flat_map paths_of l) (for_each l body).
Proof.
  induction l as [|x l IH]; intros Hbody; simpl.
  - apply tracks_ret.
  - apply tracks_seq; [apply Hbody; left|].
    apply IH. intros y Hy. apply Hbody. by right.
Qed.

(** a piece of code that raises at once examines nothing *)
Lemma tracks_raise paths (e : exn) :
  tracks sys check_duplicates check_read paths (raise e).
Proof.
  intros st. exists 0. split; [lia|]. split; [done|]. apply logged_nil.
Qed.

End Tracks.

Lemma flat_map_singleton {A B} (g : A → B) (l : list A) :
  flat_map (λ x, [g x]) l = map g l.
Proof. induction l as [|x l IH]; simpl; [done | by rewrite IH]. Qed.

Section WalkTracks.

Variable sys : system.
Variable cls : walker_class.
Variable self : walker.
Variables check_duplicates check_read followlinks : bool.

Lemma dups_at_record h0 p st h :
  dups_at (record_duplicate h0 p st) h =
    dups_at st h ++ (if String.eqb h0 h then [p] else []).
Proof.
  unfold dups_at, record_duplicate. simpl.
  destruct (String.eqb_spec h0 h) as [->|Hne].
  - by rewrite lookup_insert_eq.
  - by rewrite lookup_insert_ne, app_nil_r.
Qed.

(** the effect of one call of [audiofile_ok] on the closure variables,
    whatever it returns *)
Lemma audiofile_ok_effect wavpath label st :
  let st' := (audiofile_ok sys cls self check_duplicates check_read
                wavpath label st).1 in
  num_walked st' = num_walked st ∧
  invalid_files st' =
    invalid_files st ++ List.filter (unreadable sys check_read) [wavpath] ∧
  ∀ h, dups_at st' h =
         dups_at st h ++
         (if check_duplicates
          then List.filter (hashes_to sys check_read h) [wavpath] else []).
Proof.
  assert (∀ st0 : closure,
    let st' := (check_hash sys cls self check_duplicates wavpath label st0).1 in
    num_walked st' = num_walked st0 ∧ invalid_files st' = invalid_files st0 ∧
    ∀ h, dups_at st' h = dups_at st0 h ++
           (if check_duplicates
            then (if String.eqb (md5sum sys wavpath) h then [wavpath] else [])
            else [])) as Hhash.
  { intros st0. unfold check_hash. destruct check_duplicates.
    - destruct (1 <? _)%nat; simpl; (split; [done|]); (split; [done|]);
        intros h; apply dups_at_record.
    - simpl. split; [done|]. split; [done|]. intros h. by rewrite app_nil_r. }
  unfold audiofile_ok, unreadable, hashes_to, unreadable. simpl.
  destruct (os_path_exists sys wavpath); simpl.
  - destruct check_read; simpl.
    + destruct (read_wavfile sys wavpath) as [[wav|] srate]; simpl.
      * destruct (Hhash st) as (Hn & Hi & Hd).
        split; [done|]. split; [by rewrite Hi, app_nil_r|]. intros h.
        rewrite Hd. destruct check_duplicates; [|done].
        by destruct (String.eqb _ _).
      * split; [done|]. split; [done|]. intros h.
        destruct check_duplicates; by rewrite app_nil_r.
    + destruct (Hhash st) as (Hn & Hi & Hd).
      split; [done|]. split; [by rewrite Hi, app_nil_r|]. intros h.
      rewrite Hd. destruct check_duplicates; [|done].
      by destruct (String.eqb _ _).
  - split; [done|]. split; [by rewrite app_nil_r|]. intros h.
    destruct check_duplicates; by rewrite app_nil_r.
Qed.

Lemma tracks_counted_examine label wavpath :
  tracks sys check_duplicates check_read [wavpath]
    (count_walked ≫= λ _,
       examine sys cls self check_duplicates check_read label wavpath).
Proof.
  intros st. exists 1. split; [done|]. split; [done|].
  rewrite run_bind. unfold count_walked. rewrite run_examine.
  pose proof (audiofile_ok_effect wavpath label
    {| duplicates := duplicates st; invalid_files := invalid_files st;
       num_walked := S (num_walked st) |}) as (Hn & Hi & Hd).
  destruct (audiofile_ok _ _ _ _ _ _ _ _) as [st' [e|[|]]];
    unfold final, logged; simpl in *; (split; [lia|]); (split; [done|]);
    exact Hd.
Qed.

Lemma tracks_lift_bind {A} paths (r : exn + A) (f : A → gen unit) :
  (∀ a, r = inr a → tracks sys check_duplicates check_read paths (f a)) →
  tracks sys check_duplicates check_read paths (lift r ≫= f).
Proof.
  intros Hf st. rewrite run_bind. unfold lift. destruct r as [e|a].
  - exists 0. split; [lia|]. split; [done|]. apply logged_nil.
  - destruct (Hf a eq_refl st) as (k & Hle & Hall & Hlog).
    exists k. destruct (f a st) as [[ys st'] r]. done.
Qed.

Lemma tracks_walk_tree label entries seen :
  tracks sys check_duplicates check_read
    (tree_paths (default "" (dataset_root self)) entries)
    (walk_tree sys cls self check_duplicates check_read label entries seen).
Proof.
  revert seen.
  induction entries as [|[[parent dirs] files] rest IH]; intros seen.
  - apply tracks_ret.
  - simpl. apply tracks_lift_bind. intros this_dir Hjoin.
    unfold join_root in Hjoin.
    destruct (dataset_root self) as [root|] eqn:Hroot; [|done].
    case_bool_decide; [apply tracks_raise|].
    unfold tree_paths. simpl. apply tracks_seq; [|apply IH].
    replace (map (λ f, Str.join root [parent; f]) files)
      with (flat_map (λ f, [Str.join root [parent; f]]) files)
      by apply flat_map_singleton.
    apply tracks_for_each. intros f _. unfold walk_file.
    intros st. rewrite run_bind. unfold count_walked, join_root.
    rewrite Hroot. rewrite run_bind. unfold lift.
    pose proof (tracks_counted_examine label (Str.join root [parent; f]) st)
      as Hone.
    rewrite run_bind in Hone. unfold count_walked in Hone.
    destruct (examine _ _ _ _ _ _ _ _) as [[ys st'] r]. exact Hone.
Qed.

Lemma tracks_walk_label label :
  tracks sys check_duplicates check_read
    (label_paths sys self followlinks label)
    (walk_label sys cls self check_duplicates check_read followlinks label).
Proof.
  unfold label_paths, walk_label.
  destruct (label_definitions self !! label) as [definition|];
    [|apply tracks_raise].
  apply tracks_seq.
  - apply tracks_for_each. intros sample_dir _. apply tracks_walk_tree.
  - replace (default [] (sample_files definition))
      with (flat_map (λ p : string, [p]) (default [] (sample_files definition)))
      at 1
      by (rewrite flat_map_singleton; apply map_id).
    apply tracks_for_each. intros wavpath _. apply tracks_counted_examine.
Qed.

(** The closure variables at the end of a walk, in terms of the files it
    examined. *)
Lemma walk_logged :
  let r := walk sys cls self check_duplicates check_read followlinks in
  let examined :=
    take (num_walked (final r)) (candidates sys self followlinks) in
  (outcome r = inr tt → examined = candidates sys self followlinks) ∧
  invalid_files (final r) = List.filter (unreadable sys check_read) examined ∧
  ∀ h, dups_at (final r) h =
         if check_duplicates
         then List.filter (hashes_to sys check_read h) examined else [].
Proof.
  assert (tracks sys check_duplicates check_read
            (candidates sys self followlinks)
            (walk_body sys cls self check_duplicates check_read followlinks))
    as Htracks.
  { unfold candidates, walk_body. apply tracks_for_each.
    intros label _. apply tracks_walk_label. }
  destruct (Htracks closure0) as (k & Hle & Hall & Hn & Hi & Hd).
  fold (walk sys cls self check_duplicates check_read followlinks) in *.
  simpl. rewrite length_take in Hn. simpl in Hn.
  replace (num_walked _) with k by lia.
  split; [|split].
  - intros Hr. rewrite (Hall Hr). apply firstn_all.
  - exact Hi.
  - intros h. rewrite Hd. unfold dups_at. simpl. by rewrite lookup_empty.
Qed.

End WalkTracks.

(** ** Duplicate detection *)

Lemma first_of_hash_skip sys st : first_of_hash sys st [] st.
Proof.
  split; [done|]. split; [constructor|]. intros t Ht. by apply elem_of_nil in Ht.
Qed.

Lemma first_of_hash_seq sys st ys st1 ys' st2 :
  first_of_hash sys st ys st1 → first_of_hash sys st1 ys' st2 →
  first_of_hash sys st (ys ++ ys') st2.
Proof.
  intros (Hgrow1 & Hnodup1 & Hfirst1) (Hgrow2 & Hnodup2 & Hfirst2).
  split; [|split].
  - intros h. etrans; [apply Hgrow1 | apply Hgrow2].
  - rewrite map_app. apply NoDup_app. split; [done|]. split; [|done].
    intros h Hin1 Hin2.
    apply list_elem_of_fmap in Hin1 as (t1 & -> & Ht1).
    apply list_elem_of_fmap in Hin2 as (t2 & Heq & Ht2).
    destruct (Hfirst1 t1 Ht1) as (_ & later & Hlater).
    destruct (Hfirst2 t2 Ht2) as (Hnew & _).
    rewrite <- Heq, Hlater in Hnew. done.
  - intros t Ht. apply elem_of_app in Ht as [Ht|Ht].
    + destruct (Hfirst1 t Ht) as (Hnew & later & Hlater). split; [done|].
      destruct (Hgrow2 (md5sum sys (t_path t))) as [more Hmore].
      rewrite Hmore, Hlater. by eexists.
    + destruct (Hfirst2 t Ht) as (Hnew & later & Hlater). split; [|by eexists].
      destruct (Hgrow1 (md5sum sys (t_path t))) as [more Hmore].
      rewrite Hnew in Hmore. symmetry in Hmore.
      by apply app_eq_nil in Hmore as [-> _].
Qed.

Lemma walk_first_of_hash sys cls self check_read followlinks :
  first_of_hash sys closure0
    (yields (walk sys cls self true check_read followlinks))
    (final (walk sys cls self true check_read followlinks)).
Proof.
  apply respects_walk.
  - apply first_of_hash_skip.
  - apply first_of_hash_seq.
  - intros st. exact (first_of_hash_skip sys st).
  - intros label wavpath _ st. rewrite run_examine.
    pose proof (audiofile_ok_effect sys cls self true check_read
                  wavpath label st) as (_ & _ & Hd).
    destruct (audiofile_ok _ _ _ _ _ _ _ _) as [st' [e|[|]]] eqn:Hok;
      unfold yields, final; simpl in *.
    + split; [|split]; [|constructor|by intros t Ht; apply elem_of_nil in Ht].
      intros h. rewrite Hd. by apply prefix_app_r.
    + apply audiofile_ok_true in Hok as (_ & _ & Hhash).
      apply check_hash_true in Hhash as (_ & Hnew & ->).
      split; [|split].
      * intros h. rewrite Hd. by apply prefix_app_r.
      * apply NoDup_singleton.
      * intros t Ht. apply list_elem_of_singleton in Ht as ->.
        unfold t_path. simpl. split; [done|]. exists [].
        rewrite dups_at_record, Hnew, String.eqb_refl. done.
    + split; [|split]; [|constructor|by intros t Ht; apply elem_of_nil in Ht].
      intros h. rewrite Hd. by apply prefix_app_r.
Qed.

(** C2: with [check_duplicates=True] the table [duplicates] groups by MD5
    hash, in the order examined, the examined files that exist and pass
    the read check; a file whose hash already has an entry is rejected;
    each yielded file is the first of its group; so no two yielded files
    have the same hash. *)
Theorem duplicates_skipped_by_hash (sys : system) (cls : walker_class)
    (self : walker) (check_read followlinks : bool) :
  let r := walk sys cls self true check_read followlinks in
  let examined := take (num_walked (final r)) (candidates sys self followlinks) in
  (∀ h, dups_at (final r) h = List.filter (hashes_to sys check_read h) examined) ∧
  (∀ wavpath label st,
      dups_at st (md5sum sys wavpath) ≠ [] →
      ∃ st', audiofile_ok sys cls self true check_read wavpath label st
               = (st', inr false)) ∧
  (∀ t, t ∈ yields r →
      ∃ later, dups_at (final r) (md5sum sys (t_path t)) = t_path t :: later) ∧
  NoDup (map (λ t, md5sum sys (t_path t)) (yields r)).
Proof.
  intros r examined.
  destruct (walk_first_of_hash sys cls self check_read followlinks)
    as (_ & Hnodup & Hfirst).
  split; [|split; [|split]].
  - apply (walk_logged sys cls self true check_read followlinks).
  - intros wavpath label st Hseen. unfold audiofile_ok.
    destruct (os_path_exists sys wavpath); simpl; [|by eexists].
    assert (∃ st', check_hash sys cls self true wavpath label st
                     = (st', inr false)) as Hhash.
    { unfold check_hash. simpl. rewrite lookup_insert_eq. simpl.
      rewrite length_app. simpl. fold (dups_at st (md5sum sys wavpath)).
      destruct (dups_at st (md5sum sys wavpath)) as [|p ps]; [done|].
      replace (1 <? length (p :: ps) + 1)%nat with true
        by (symmetry; apply Nat.ltb_lt; simpl; lia).
      by eexists. }
    destruct check_read; [|done].
    destruct (read_wavfile sys wavpath) as [[wav|] srate]; [done|by eexists].
  - intros t Ht. by apply Hfirst.
  - done.
Qed.

(** ** Content validation *)

Lemma unreadable_unchecked sys (paths : list string) :
  List.filter (unreadable sys false) paths = [].
Proof.
  induction paths as [|p paths IH]; [done|]. simpl.
  unfold unreadable at 1. by rewrite andb_false_r.
Qed.

(** C4: with [check_read=True] every yielded file exists and was read,
    and [invalid_files] ends up as the list, in order, of the examined
    files that exist and could not be read: an examined path that does not
    exist is dropped before the read and is not recorded, and an existing
    file that cannot be read is recorded and rejected whatever the other
    checks would say.  With [check_read=False] the walk does not depend on
    [read_wavfile] and [invalid_files] stays empty. *)
Theorem unreadable_files_recorded_not_yielded (sys : system)
    (cls : walker_class) (self : walker)
    (check_duplicates followlinks : bool) :
  let checked := walk sys cls self check_duplicates true followlinks in
  let unchecked := walk sys cls self check_duplicates false followlinks in
  let examined :=
    take (num_walked (final checked)) (candidates sys self followlinks) in
  Forall (λ t, os_path_exists sys (t_path t) = true ∧
               (read_wavfile sys (t_path t)).1 ≠ None) (yields checked) ∧
  invalid_files (final checked) =
    List.filter (λ p, os_path_exists sys p
                      && bool_decide ((read_wavfile sys p).1 = None)) examined ∧
  (∀ wavpath label st,
      os_path_exists sys wavpath = true →
      (read_wavfile sys wavpath).1 = None →
      audiofile_ok sys cls self check_duplicates true wavpath label st
        = (record_invalid wavpath st, inr false)) ∧
  (∀ read, walk (with_read_wavfile sys read) cls self check_duplicates false
             followlinks = unchecked) ∧
  invalid_files (final unchecked) = [].
Proof.
  intros checked unchecked examined. split; [|split; [|split; [|split]]].
  - apply walk_yields_sat. intros label wavpath st st' _ Hok.
    apply audiofile_ok_true in Hok as (Hexists & Hread & _).
    unfold t_path. simpl. split; [done | by apply Hread].
  - destruct (walk_logged sys cls self check_duplicates true followlinks)
      as (_ & Hinvalid & _).
    fold checked examined in Hinvalid. rewrite Hinvalid.
    apply List.filter_ext. intros p. unfold unreadable.
    by rewrite andb_true_r.
  - intros wavpath label st Hexists Hnone. unfold audiofile_ok.
    rewrite Hexists. simpl.
    destruct (read_wavfile sys wavpath) as [[wav|] srate]; done.
  - (* with [check_read] off, [read_wavfile] is not called: the two walks
       are the same computation *)
    intros read. reflexivity.
  - destruct (walk_logged sys cls self check_duplicates false followlinks)
      as (_ & Hinvalid & _).
    fold unchecked in Hinvalid. rewrite Hinvalid. apply unreadable_unchecked.
Qed.

(** ** Default iteration *)

Lemma walk_default_closure sys cls self followlinks :
  duplicates (final (walk sys cls self false false followlinks)) = ∅ ∧
  invalid_files (final (walk sys cls self false false followlinks)) = [].
Proof.
  apply (respects_walk sys cls self false false followlinks
           (λ st _ st', duplicates st = ∅ ∧ invalid_files st = [] →
                        duplicates st' = ∅ ∧ invalid_files st' = [])).
  - done.
  - intros st ys st1 ys' st2 H1 H2 H. by apply H2, H1.
  - by intros st.
  - intros label wavpath _ st. rewrite run_examine. unfold audiofile_ok.
    destruct (os_path_exists sys wavpath); simpl; [|done].
    by destruct (check_filters cls self wavpath label) as [e|[|]].
  - done.
Qed.

(** C8: iterating a walker is [walk] with its default arguments
    ([check_duplicates=False], [check_read=False], [followlinks=True]):
    same triples, same end; under these defaults [audiofile_ok] only tests
    existence and the two filters, records no hash and no invalid file. *)
Theorem iter_is_default_walk (sys : system) (cls : walker_class)
    (self : walker) :
  iter sys cls self = walk sys cls self false false true ∧
  (∀ wavpath label st,
      audiofile_ok sys cls self false false wavpath label st =
        (st, if os_path_exists sys wavpath
             then check_filters cls self wavpath label else inr false)) ∧
  duplicates (final (iter sys cls self)) = ∅ ∧
  invalid_files (final (iter sys cls self)) = [].
Proof.
  split; [reflexivity|]. split.
  - intros wavpath label st. unfold audiofile_ok.
    by destruct (os_path_exists sys wavpath).
  - apply walk_default_closure.
Qed.

(** ** Constructor *)

Lemma truthy_given (x : option (list string)) :
  truthy x = true ↔ given_nonempty x.
Proof.
  unfold given_nonempty. destruct x as [[|a l]|]; simpl; split;
    try done; try (intros (? & ? & ?); done).
  intros _. by exists a, l.
Qed.

(** C10: the constructor returns a walker exactly when either there is no
    [dataset_root] and [paths], [labels], [checksums] are all given and
    non-empty, or there is a [dataset_root] and all three are [None]; for
    every other combination it raises [AssertionError]. *)
Theorem init_exactly_one_source (dataset_root : option string)
    (paths labels checksums : option (list string))
    (sample_frequency : option Z) :
  let one_source :=
    (dataset_root = None ∧ given_nonempty paths ∧ given_nonempty labels
       ∧ given_nonempty checksums)
    ∨ (dataset_root ≠ None ∧ paths = None ∧ labels = None ∧ checksums = None) in
  (one_source ↔
     ∃ self, init dataset_root paths labels checksums sample_frequency = inr self) ∧
  (¬ one_source ↔
     init dataset_root paths labels checksums sample_frequency = inl AssertionError).
Proof.
  unfold init. destruct dataset_root as [root|].
  - destruct (bool_decide (paths = None) && bool_decide (labels = None)
              && bool_decide (checksums = None)) eqn:Hnone.
    + apply andb_true_iff in Hnone as [Hnone Hc].
      apply andb_true_iff in Hnone as [Hp Hl].
      apply bool_decide_eq_true in Hp, Hl, Hc.
      split; split; try done.
      * intros _. by eexists.
      * intros _. right. done.
      * intros Hnot. destruct Hnot. right. done.
    + split; split; try done.
      * intros [(? & _)|(_ & -> & -> & ->)]; done.
      * intros (? & ?). done.
      * intros _ [(? & _)|(_ & -> & -> & ->)]; done.
  - destruct (truthy paths && truthy labels && truthy checksums) eqn:Hgiven.
    + apply andb_true_iff in Hgiven as [Hgiven Hc].
      apply andb_true_iff in Hgiven as [Hp Hl].
      apply truthy_given in Hp, Hl, Hc.
      split; split; try done.
      * intros _. by eexists.
      * intros _. by left.
      * intros Hnot. destruct Hnot. by left.
    + assert (¬ (given_nonempty paths ∧ given_nonempty labels
                 ∧ given_nonempty checksums)) as Hnot.
      { intros (Hp & Hl & Hc). apply truthy_given in Hp, Hl, Hc.
        by rewrite Hp, Hl, Hc in Hgiven. }
      split; split; try done.
      * intros [(_ & H)|(? & _)]; done.
      * intros (? & ?). done.
      * intros _ [(_ & H)|(? & _)]; done.
Qed.

(** ** The recursion guard *)

Section Guard.

Variable sys : system.
Variable cls : walker_class.
Variable self : walker.
Variables check_duplicates check_read followlinks : bool.

Lemma seen_after_mono root entries seen d :
  d ∈ seen → d ∈ seen_after root entries seen.
Proof.
  revert seen. induction entries as [|entry rest IH]; intros seen Hd; [done|].
  simpl. apply IH. set_solver.
Qed.

Lemma seen_after_entry root entries seen entry :
  entry ∈ entries → Str.join root [entry.1.1] ∈ seen_after root entries seen.
Proof.
  revert seen. induction entries as [|e rest IH]; intros seen Hin.
  - by apply elem_of_nil in Hin.
  - simpl. apply elem_of_cons in Hin as [->|Hin].
    + apply seen_after_mono. set_solver.
    + by apply IH.
Qed.

(** traversing [pre ++ post] is traversing [pre] and then, unless that
    raised, [post] with the directories of [pre] added to the seen ones *)
Lemma walk_tree_app root label pre post seen st :
  dataset_root self = Some root →
  walk_tree sys cls self check_duplicates check_read label (pre ++ post) seen st =
    match walk_tree sys cls self check_duplicates check_read label pre seen st with
    | (ys, st1, inl e) => (ys, st1, inl e)
    | (ys, st1, inr _) =>
        match walk_tree sys cls self check_duplicates check_read label post
                (seen_after root pre seen) st1 with
        | (ys', st2, r) => (ys ++ ys', st2, r)
        end
    end.
Proof.
  intros Hroot. revert seen st.
  induction pre as [|[[parent dirs] files] rest IH]; intros seen st.
  - simpl. by destruct (walk_tree _ _ _ _ _ _ post seen st) as [[ys' st2] r].
  - simpl. rewrite !run_bind. unfold join_root, lift. rewrite Hroot. simpl.
    case_bool_decide; [done|]. rewrite !run_bind.
    destruct (for_each files _ st) as [[ys0 st0] [e|[]]]; [done|].
    rewrite IH.
    destruct (walk_tree _ _ _ _ _ _ rest _ st0) as [[ys1 st1] [e|[]]]; [done|].
    destruct (walk_tree _ _ _ _ _ _ post _ st1) as [[ys2 st2] r].
    by rewrite app_assoc.
Qed.

(** a traversal that ends normally went through pairwise distinct
    directories, none of them seen before *)
Lemma walk_tree_finished_distinct root label entries seen st :
  dataset_root self = Some root →
  outcome (walk_tree sys cls self check_duplicates check_read label
             entries seen st) = inr tt →
  NoDup (map (λ entry, Str.join root [entry.1.1]) entries) ∧
  ∀ entry, entry ∈ entries → Str.join root [entry.1.1] ∉ seen.
Proof.
  intros Hroot. revert seen st.
  induction entries as [|[[parent dirs] files] rest IH]; intros seen st.
  - intros _. split; [constructor|]. intros entry Hin.
    by apply elem_of_nil in Hin.
  - simpl. rewrite !run_bind. unfold join_root, lift. rewrite Hroot. simpl.
    case_bool_decide as Hseen; [done|]. rewrite !run_bind.
    destruct (for_each files _ st) as [[ys0 st0] [e|[]]]; [done|].
    destruct (walk_tree _ _ _ _ _ _ rest _ st0) as [[ys1 st1] r] eqn:Hrest.
    unfold outcome. simpl. intros ->.
    destruct (IH ({[Str.join root [parent]]} ∪ seen) st0) as [Hnodup Hnew].
    { by rewrite Hrest. }
    split.
    + apply NoDup_cons. split; [|done]. intros Hin.
      apply list_elem_of_fmap in Hin as (entry & Heq & Hin).
      apply (Hnew entry Hin). rewrite <- Heq.
      apply elem_of_union. left. by apply elem_of_singleton.
    + intros entry Hin. apply elem_of_cons in Hin as [->|Hin]; [done|].
      intros Hs. apply (Hnew entry Hin). apply elem_of_union. by right.
Qed.

End Guard.

(** a loop that ends normally ran each of its iterations to a normal end *)
Lemma for_each_finished {A} (l : list A) (body : A → gen unit) (st : closure) :
  outcome (for_each l body st) = inr tt →
  ∀ x, x ∈ l → ∃ st', outcome (body x st') = inr tt.
Proof.
  revert st. induction l as [|a l IH]; intros st Hend x Hin.
  - by apply elem_of_nil in Hin.
  - rewrite run_for_each_cons, run_bind in Hend.
    destruct (body a st) as [[ys st1] [e|[]]] eqn:Hbody; [done|].
    apply elem_of_cons in Hin as [->|Hin].
    + exists st. by rewrite Hbody.
    + apply (IH st1); [|done].
      by destruct (for_each l body st1) as [[ys' st2] r].
Qed.

Lemma elem_of_sorted (l : list string) (x : string) :
  x ∈ Str.sorted l ↔ x ∈ l.
Proof. unfold Str.sorted. by rewrite merge_sort_Permutation. Qed.

(** The guard of [walk]: in the traversal of one sample directory, when
    the output of [os.walk] has a directory whose joined path occurred
    before, the traversal ends there with [DatasetRecursionError], having
    yielded what the entries before it yielded and nothing of that
    directory or of anything after it; a traversal that ends normally went
    through pairwise distinct paths; and a walk over a dataset where some
    sample directory has such a repetition never ends normally. *)
Lemma guard_raises_on_repeated_path (sys : system) (cls : walker_class)
    (self : walker) (check_duplicates check_read followlinks : bool) :
  (∀ label pre parent dirs files post seen st,
      (∃ entry, entry ∈ pre ∧
                join_root self [entry.1.1] = join_root self [parent]) →
      let before :=
        walk_tree sys cls self check_duplicates check_read label pre seen st in
      walk_tree sys cls self check_duplicates check_read label
        (pre ++ (parent, dirs, files) :: post) seen st =
        match outcome before with
        | inl e => before
        | inr _ => (yields before, final before, inl DatasetRecursionError)
        end) ∧
  (∀ label sample_dir root st,
      dataset_root self = Some root →
      outcome (walk_sample_dir sys cls self check_duplicates check_read
                 followlinks label sample_dir st) = inr tt →
      NoDup (map (λ entry, Str.join root [entry.1.1])
               (os_walk sys sample_dir followlinks))) ∧
  (∀ label definition sample_dir pre parent dirs files post,
      label_definitions self !! label = Some definition →
      sample_dir ∈ default [] (sample_dirs definition) →
      os_walk sys sample_dir followlinks = pre ++ (parent, dirs, files) :: post →
      (∃ entry, entry ∈ pre ∧
                join_root self [entry.1.1] = join_root self [parent]) →
      ∃ e, outcome (walk sys cls self check_duplicates check_read followlinks)
             = inl e).
Proof.
  assert (∀ label pre parent dirs files post seen st,
      (∃ entry, entry ∈ pre ∧
                join_root self [entry.1.1] = join_root self [parent]) →
      walk_tree sys cls self check_duplicates check_read label
        (pre ++ (parent, dirs, files) :: post) seen st =
        match outcome (walk_tree sys cls self check_duplicates check_read
                         label pre seen st) with
        | inl e => walk_tree sys cls self check_duplicates check_read
                     label pre seen st
        | inr _ =>
            (yields (walk_tree sys cls self check_duplicates check_read
                       label pre seen st),
             final (walk_tree sys cls self check_duplicates check_read
                      label pre seen st),
             inl DatasetRecursionError)
        end) as Hguard.
  { intros label pre parent dirs files post seen st (entry & Hin & Hsame).
    destruct (dataset_root self) as [root|] eqn:Hroot.
    - rewrite (walk_tree_app sys cls self _ _ root) by done.
      destruct (walk_tree _ _ _ _ _ _ pre seen st) as [[ys st1] [e|[]]];
        unfold outcome, yields, final; simpl; [done|].
      rewrite run_bind. unfold join_root, lift in *. rewrite Hroot in *.
      simpl. injection Hsame as Hsame.
      rewrite bool_decide_eq_true_2.
      + unfold raise. by rewrite app_nil_r.
      + rewrite <- Hsame. by apply seen_after_entry.
    - destruct pre as [|[[parent0 dirs0] files0] rest];
        [by apply elem_of_nil in Hin|].
      simpl. rewrite !run_bind. unfold join_root, lift. by rewrite Hroot. }
  split; [exact Hguard|]. split.
  - intros label sample_dir root st Hroot Hend.
    by apply (walk_tree_finished_distinct sys cls self check_duplicates
                check_read root label _ ∅ st).
  - intros label definition sample_dir pre parent dirs files post
      Hdef Hdir Hwalk Hrepeat.
    destruct (outcome (walk sys cls self check_duplicates check_read followlinks))
      as [e|[]] eqn:Hend; [by exists e|]. exfalso.
    unfold walk, walk_body in Hend.
    destruct (for_each_finished _ _ _ Hend label) as [st1 Hlabel].
    { apply elem_of_sorted, elem_of_elements, elem_of_dom. by eexists. }
    unfold walk_label in Hlabel. rewrite Hdef, run_bind in Hlabel.
    destruct (for_each (default [] (sample_dirs definition)) _ st1)
      as [[ys st2] [e|[]]] eqn:Hdirs; [done|].
    destruct (for_each_finished _ _ st1 ltac:(by rewrite Hdirs) sample_dir Hdir)
      as [st3 Hsample].
    unfold walk_sample_dir in Hsample.
    rewrite Hwalk, (Hguard label pre parent dirs files post ∅ st3 Hrepeat)
      in Hsample.
    by destruct (outcome (walk_tree _ _ _ _ _ _ pre ∅ st3)) as [e|[]] eqn:Hpre;
      [rewrite Hpre in Hsample|].
Qed.

(** ** [os.walk] never reports a path twice *)

Lemma append_cons (c : ascii) (a b : string) :
  String.append (String c a) b = String c (String.append a b).
Proof. reflexivity. Qed.

Lemma append_nil_l (a : string) : String.append "" a = a.
Proof. reflexivity. Qed.

Lemma append_nil_r (a : string) : String.append a "" = a.
Proof. induction a as [|c a IH]; [done|]. by rewrite append_cons, IH. Qed.

Lemma append_assoc (a b c : string) :
  String.append (String.append a b) c = String.append a (String.append b c).
Proof. induction a as [|ch a IH]; [done|]. by rewrite !append_cons, IH. Qed.

Lemma append_eq_self (a x : string) : String.append a x = a → x = "".
Proof.
  intros Heq. apply (f_equal String.length) in Heq.
  rewrite length_append in Heq. destruct x; [done|]. simpl in Heq. lia.
Qed.

Lemma contains_sep_append (a b : string) :
  Str.contains_sep (String.append a b)
    = Str.contains_sep a || Str.contains_sep b.
Proof.
  induction a as [|c a IH]; [done|].
  rewrite append_cons. simpl. by rewrite IH, orb_assoc.
Qed.

(** a name without ['/'] does not start with one *)
Lemma startswith_sep_name (d : string) :
  Str.contains_sep d = false → Str.startswith d "/" = false.
Proof.
  destruct d as [|c d]; [done|]. intros Hd. simpl in Hd.
  apply orb_false_iff in Hd as [Hc _]. apply Ascii.eqb_neq in Hc.
  unfold Str.startswith.
  change (String.prefix "/" (String c d))
    with (if ascii_dec "/" c then String.prefix "" d else false).
  destruct (ascii_dec "/" c) as [<-|Hne]; [by destruct Hc|done].
Qed.

(** a path that ends in a non-empty name without ['/'] does not end in
    ['/'] *)
Lemma endswith_sep_name (a d : string) :
  d ≠ "" → Str.contains_sep d = false →
  Str.endswith (String.append a d) "/" = false.
Proof.
  intros Hne Hd. destruct (Str.endswith _ _) eqn:Hends; [|done].
  apply endswith_spec in Hends as [stem Hstem]. exfalso.
  revert stem Hstem. induction a as [|c a IH]; intros stem Hstem.
  - rewrite append_nil_l in Hstem. revert stem Hstem.
    induction d as [|c d IHd]; intros stem Hstem; [done|].
    simpl in Hd. apply orb_false_iff in Hd as [Hc Hd].
    destruct stem as [|c' stem];
      rewrite ?append_nil_l, ?append_cons in Hstem.
    + injection Hstem as -> ->. done.
    + injection Hstem as <- Hstem.
      destruct d as [|c'' d]; [by destruct stem|].
      by apply (IHd ltac:(done) Hd stem).
  - destruct stem as [|c' stem];
      rewrite ?append_nil_l, ?append_cons in Hstem.
    + injection Hstem as -> Hnil. destruct a; [by destruct d|done].
    + injection Hstem as <- Hstem. by apply (IH stem).
Qed.

Lemma join_name (top d : string) :
  Str.contains_sep d = false →
  Str.join top [d] = String.append top (String.append (sep_after top) d).
Proof.
  intros Hd. unfold Str.join, sep_after. simpl. unfold Str.join_step.
  rewrite (startswith_sep_name d Hd).
  by destruct (String.eqb top "" || Str.endswith top "/").
Qed.

(** below a directory that is not named with a final ['/'], names are
    joined with ['/'] *)
Lemma sep_after_name (a d : string) :
  d ≠ "" → Str.contains_sep d = false →
  sep_after (String.append a d) = "/".
Proof.
  intros Hne Hd. unfold sep_after. rewrite endswith_sep_name by done.
  destruct (String.eqb_spec (String.append a d) "") as [Heq|]; [|done].
  destruct a; [by destruct d|done].
Qed.

(** two names without ['/'], each followed by the rest of a path, that
    give the same string are the same name *)
Lemma name_before_tail (d1 d2 x y : string) :
  Str.contains_sep d1 = false → Str.contains_sep d2 = false →
  is_tail x → is_tail y →
  String.append d1 x = String.append d2 y → d1 = d2.
Proof.
  revert d2. induction d1 as [|c1 d1 IH]; intros d2 H1 H2 Hx Hy Heq.
  - destruct d2 as [|c2 d2]; [done|]. exfalso.
    rewrite append_nil_l, append_cons in Heq.
    simpl in H2. apply orb_false_iff in H2 as [Hc _].
    destruct Hx as [->|[rest ->]]; [done|]. by injection Heq as <- _.
  - simpl in H1. apply orb_false_iff in H1 as [Hc1 H1].
    destruct d2 as [|c2 d2].
    + exfalso. rewrite append_nil_l, append_cons in Heq.
      destruct Hy as [->|[rest ->]]; [done|].
      by injection Heq as -> _.
    + rewrite !append_cons in Heq. injection Heq as -> Heq. f_equal.
      simpl in H2. apply orb_false_iff in H2 as [_ H2]. by apply IH.
Qed.

Lemma NoDup_flat_map {A B} (f : A → list B) (l : list A) :
  NoDup l →
  (∀ x, x ∈ l → NoDup (f x)) →
  (∀ x1 x2 y, x1 ∈ l → x2 ∈ l → y ∈ f x1 → y ∈ f x2 → x1 = x2) →
  NoDup (flat_map f l).
Proof.
  induction 1 as [|x l Hx Hl IH]; intros Hf Hinj; simpl; [constructor|].
  apply NoDup_app. split; [apply Hf; left|]. split.
  - intros y Hy Hin. apply list_elem_of_In, in_flat_map in Hin as (x' & Hx' & Hy').
    apply list_elem_of_In in Hx', Hy'.
    apply Hx. rewrite (Hinj x x' y); [done|by left|by right|done..].
  - apply IH.
    + intros x' Hx'. apply Hf. by right.
    + intros x1 x2 y H1 H2. apply Hinj; by right.
Qed.

Section OsWalk.

Variable fs : filesystem.
Variable followlinks : bool.
Hypothesis Hfs : well_listed fs.

Lemma walk_paths_unfold depth top :
  walk_paths fs (S depth) top followlinks =
    match scandir fs top with
    | None => []
    | Some (dirs, nondirs) =>
        top :: flat_map (λ dirname,
                  if followlinks || negb (islink fs (Str.join top [dirname]))
                  then walk_paths fs depth (Str.join top [dirname]) followlinks
                  else []) dirs
    end.
Proof.
  unfold walk_paths. simpl. destruct (scandir fs top) as [[dirs nondirs]|]; [|done].
  simpl. f_equal. induction dirs as [|d dirs IH]; [done|].
  simpl. rewrite map_app, IH. f_equal. by destruct (_ || _).
Qed.

(** every reported path is the top path and the rest of a path *)
Lemma walk_paths_below depth top q :
  sep_after top = "/" →
  q ∈ walk_paths fs depth top followlinks →
  ∃ x, q = String.append top x ∧ is_tail x.
Proof.
  revert top q. induction depth as [|depth IH]; intros top q Hsep Hq.
  - by apply elem_of_nil in Hq.
  - rewrite walk_paths_unfold in Hq.
    destruct (scandir fs top) as [[dirs nondirs]|] eqn:Hscan;
      [|by apply elem_of_nil in Hq].
    apply elem_of_cons in Hq as [->|Hq].
    + exists "". split; [by rewrite append_nil_r | by left].
    + apply list_elem_of_In, in_flat_map in Hq as (d & Hd & Hq).
      apply list_elem_of_In in Hd, Hq.
      destruct (Hfs top dirs nondirs Hscan) as [_ Hnames].
      destruct (Hnames d Hd) as [Hne Hslash].
      destruct (_ || _); [|by apply elem_of_nil in Hq].
      rewrite join_name, Hsep in Hq by done.
      apply IH in Hq as (x & -> & Hx).
      * exists (String.append (String.append "/" d) x).
        split; [by rewrite append_assoc | right; by eexists].
      * rewrite <- append_assoc. by apply sep_after_name.
Qed.

Lemma walk_paths_NoDup depth top :
  NoDup (walk_paths fs depth top followlinks).
Proof.
  revert top. induction depth as [|depth IH]; intros top; [constructor|].
  rewrite walk_paths_unfold.
  destruct (scandir fs top) as [[dirs nondirs]|] eqn:Hscan; [|constructor].
  destruct (Hfs top dirs nondirs Hscan) as [Hnodup Hnames].
  assert (∀ d q, d ∈ dirs →
    q ∈ (if followlinks || negb (islink fs (Str.join top [d]))
         then walk_paths fs depth (Str.join top [d]) followlinks else []) →
    ∃ x, q = String.append top
               (String.append (sep_after top) (String.append d x))
         ∧ is_tail x) as Hbelow.
  { intros d q Hd Hq. destruct (Hnames d Hd) as [Hne Hslash].
    destruct (_ || _); [|by apply elem_of_nil in Hq].
    rewrite join_name in Hq by done.
    apply walk_paths_below in Hq as (x & -> & Hx).
    - exists x. split; [by rewrite !append_assoc | done].
    - rewrite <- append_assoc. by apply sep_after_name. }
  apply NoDup_cons. split.
  - intros Hin. apply list_elem_of_In, in_flat_map in Hin as (d & Hd & Hq).
    apply list_elem_of_In in Hd, Hq.
    destruct (Hbelow d top Hd Hq) as (x & Heq & _).
    destruct (Hnames d Hd) as [Hne _].
    symmetry in Heq. apply append_eq_self in Heq.
    destruct (sep_after top); [by destruct d|done].
  - apply NoDup_flat_map; [done| |].
    + intros d _. destruct (_ || _); [apply IH | constructor].
    + intros d1 d2 q Hd1 Hd2 Hq1 Hq2.
      destruct (Hbelow d1 q Hd1 Hq1) as (x & -> & Hx).
      destruct (Hbelow d2 _ Hd2 Hq2) as (y & Heq & Hy).
      apply (inj (String.append top)), (inj (String.append (sep_after top))) in Heq.
      destruct (Hnames d1 Hd1) as [_ Hs1]. destruct (Hnames d2 Hd2) as [_ Hs2].
      by apply (name_before_tail d1 d2 x y).
Qed.

End OsWalk.

Section GuardNeverFires.

Variable fs : filesystem.
Hypothesis Hfs : well_listed fs.

Lemma walk_paths_prefix depth top followlinks q :
  q ∈ walk_paths fs depth top followlinks →
  q = top ∨ ∃ d x, d ≠ "" ∧ Str.contains_sep d = false ∧
        q = String.append top (String.append (sep_after top) (String.append d x)).
Proof.
  destruct depth as [|depth]; [intros Hq; by apply elem_of_nil in Hq|].
  rewrite walk_paths_unfold.
  destruct (scandir fs top) as [[dirs nondirs]|] eqn:Hscan;
    [|intros Hq; by apply elem_of_nil in Hq].
  intros Hq. apply elem_of_cons in Hq as [->|Hq]; [by left|]. right.
  apply list_elem_of_In, in_flat_map in Hq as (d & Hd & Hq).
  apply list_elem_of_In in Hd, Hq.
  destruct (Hfs top dirs nondirs Hscan) as [_ Hnames].
  destruct (Hnames d Hd) as [Hne Hslash].
  destruct (_ || _); [|by apply elem_of_nil in Hq].
  rewrite join_name in Hq by done.
  apply (walk_paths_below fs followlinks Hfs) in Hq as (x & -> & Hx).
  - exists d, x. by rewrite !append_assoc.
  - rewrite <- append_assoc. by apply sep_after_name.
Qed.

(** the reported paths all start with ['/'], or none does *)
Lemma walk_paths_uniform depth top followlinks :
  ∃ absolute, ∀ q, q ∈ walk_paths fs depth top followlinks →
                   Str.startswith q "/" = absolute.
Proof.
  exists (Str.startswith top "/"). intros q Hq.
  apply walk_paths_prefix in Hq as [->|(d & x & Hne & Hslash & ->)]; [done|].
  destruct top as [|c top].
  - rewrite append_nil_l. unfold sep_after. simpl. rewrite append_nil_l.
    destruct d as [|c d]; [done|]. rewrite append_cons.
    pose proof (startswith_sep_name (String c d) Hslash) as Hstart.
    unfold Str.startswith in *.
    change (String.prefix "/" (String c ?r))
      with (if ascii_dec "/" c then String.prefix "" r else false) in *.
    destruct (ascii_dec "/" c); [by destruct d|done].
  - rewrite append_cons. unfold Str.startswith.
    change (String.prefix "/" (String c ?r))
      with (if ascii_dec "/" c then String.prefix "" r else false).
    destruct (ascii_dec "/" c); [|done].
    destruct top; [|done]. rewrite append_nil_l.
    by destruct (String.append _ _).
Qed.

(** [join_root] keeps the reported paths apart *)
Lemma this_dirs_NoDup depth top followlinks root :
  NoDup (map (λ entry, Str.join root [entry.1.1])
           (os_walk_from fs depth top followlinks)).
Proof.
  pose proof (walk_paths_NoDup fs followlinks Hfs depth top) as Hnodup.
  destruct (walk_paths_uniform depth top followlinks) as [absolute Habs].
  unfold walk_paths in Hnodup, Habs.
  rewrite <- (map_map (λ entry, entry.1.1) (λ q, Str.join root [q])).
  apply NoDup_fmap_2_strong; [|done].
  intros q1 q2 H1 H2 Heq.
  unfold Str.join in Heq. simpl in Heq. unfold Str.join_step in Heq.
  rewrite (Habs q1 H1), (Habs q2 H2) in Heq.
  destruct absolute; [done|].
  destruct (String.eqb root "" || Str.endswith root "/").
  - by apply (inj (String.append root)) in Heq.
  - by apply (inj (String.append root)), (inj (String.append "/")) in Heq.
Qed.

Variable sys : system.
Variable depth : nat.
Hypothesis Hwalk : ∀ top followlinks,
  os_walk sys top followlinks = os_walk_from fs depth top followlinks.

Variable cls : walker_class.
Hypothesis Hparse : parse_keeps_off_recursion_error cls.

Variable self : walker.
Variables check_duplicates check_read followlinks : bool.

Lemma for_each_never {A} (e : exn) (l : list A) (body : A → gen unit) :
  (∀ x st, x ∈ l → outcome (body x st) ≠ inl e) →
  ∀ st, outcome (for_each l body st) ≠ inl e.
Proof.
  induction l as [|x l IH]; intros Hbody st; [done|].
  rewrite run_for_each_cons, run_bind.
  pose proof (Hbody x st ltac:(left)) as Hx.
  destruct (body x st) as [[ys st1] [e'|[]]]; [done|].
  pose proof (IH (λ y st' Hy, Hbody y st' ltac:(by right)) st1) as Hrest.
  by destruct (for_each l body st1) as [[ys' st2] r].
Qed.

Lemma examine_never label wavpath st :
  outcome (examine sys cls self check_duplicates check_read label wavpath st)
    ≠ inl DatasetRecursionError.
Proof.
  rewrite run_examine.
  destruct (audiofile_ok _ _ _ _ _ _ _ _) as [st' [e|[|]]] eqn:Hok;
    [|done..].
  unfold outcome. simpl. intros [= ->]. revert Hok.
  assert (check_filters cls self wavpath label ≠ inl DatasetRecursionError)
    as Hfilters.
  { unfold check_filters, speaker_id_is_ignored.
    destruct (ignored_speaker_ids_by_label self !! label); [|done].
    destruct (parse_speaker_id cls) as [parse|] eqn:Hcls; [|done].
    pose proof (Hparse parse wavpath Hcls) as Hp.
    destruct (parse wavpath) as [e|speaker_id]; [congruence|].
    by destruct (negb _). }
  assert (∀ st0, (check_hash sys cls self check_duplicates wavpath label st0).2
                 ≠ inl DatasetRecursionError) as Hhash.
  { intros st0. unfold check_hash. destruct check_duplicates; [|done].
    by destruct (1 <? _)%nat. }
  unfold audiofile_ok. destruct (os_path_exists sys wavpath); simpl; [|done].
  destruct check_read.
  - destruct (read_wavfile sys wavpath) as [[wav|] srate]; [|done].
    intros Hok. specialize (Hhash st). by rewrite Hok in Hhash.
  - intros Hok. specialize (Hhash st). by rewrite Hok in Hhash.
Qed.

Lemma walk_tree_never label entries seen st :
  (∀ root, dataset_root self = Some root →
     NoDup (map (λ entry, Str.join root [entry.1.1]) entries) ∧
     ∀ entry, entry ∈ entries → Str.join root [entry.1.1] ∉ seen) →
  outcome (walk_tree sys cls self check_duplicates check_read label
             entries seen st) ≠ inl DatasetRecursionError.
Proof.
  revert seen st.
  induction entries as [|[[parent dirs] files] rest IH]; intros seen st Hnew;
    [done|].
  simpl. rewrite !run_bind. unfold join_root, lift.
  destruct (dataset_root self) as [root|] eqn:Hroot; [|done]. simpl.
  destruct (Hnew root eq_refl) as [Hnodup Hseen].
  apply NoDup_cons in Hnodup as [Hfirst Hnodup].
  rewrite bool_decide_eq_false_2 by (apply (Hseen (parent, dirs, files)); left).
  rewrite run_bind.
  assert (outcome (for_each files
            (walk_file sys cls self check_duplicates check_read label parent) st)
          ≠ inl DatasetRecursionError) as Hfiles.
  { apply for_each_never. intros f st0 _. unfold walk_file.
    rewrite !run_bind. unfold count_walked, join_root, lift. rewrite Hroot.
    rewrite run_bind.
    pose proof (examine_never label (Str.join root [parent; f])
      {| duplicates := duplicates st0; invalid_files := invalid_files st0;
         num_walked := S (num_walked st0) |}) as He.
    by destruct (examine _ _ _ _ _ _ _ _) as [[ys' st'] r]. }
  destruct (for_each files _ st) as [[ys0 st0] [e|[]]]; [exact Hfiles|].
  pose proof (IH ({[Str.join root [parent]]} ∪ seen) st0) as Hrest.
  destruct (walk_tree _ _ _ _ _ _ rest _ st0) as [[ys1 st1] r].
  apply Hrest. intros root' Hroot'. injection Hroot' as <-.
  split; [done|]. intros entry Hin Hs.
  apply elem_of_union in Hs as [Hs|Hs].
  - apply elem_of_singleton in Hs. apply Hfirst. simpl. rewrite <- Hs.
    apply list_elem_of_fmap. by exists entry.
  - apply (Hseen entry); [by right|done].
Qed.

(** On the output of [os.walk], whatever the file system and its links,
    the guard of [walk] never fires: no walk ends with
    [DatasetRecursionError]. *)
Lemma guard_never_fires :
  outcome (walk sys cls self check_duplicates check_read followlinks)
    ≠ inl DatasetRecursionError.
Proof.
  unfold walk, walk_body. apply for_each_never. intros label st _.
  unfold walk_label.
  destruct (label_definitions self !! label) as [definition|]; [|done].
  rewrite run_bind.
  assert (outcome (for_each (default [] (sample_dirs definition))
            (walk_sample_dir sys cls self check_duplicates check_read
               followlinks label) st)
          ≠ inl DatasetRecursionError) as Hdirs.
  { apply for_each_never. intros sample_dir st0 _. unfold walk_sample_dir.
    rewrite Hwalk. apply walk_tree_never. intros root _.
    split; [apply this_dirs_NoDup|]. intros entry _. apply not_elem_of_empty. }
  destruct (for_each (default [] (sample_dirs definition)) _ st)
    as [[ys0 st0] [e|[]]]; [exact Hdirs|].
  assert (outcome (for_each (default [] (sample_files definition))
            (walk_sample_file sys cls self check_duplicates check_read label)
            st0)
          ≠ inl DatasetRecursionError) as Hfiles.
  { apply for_each_never. intros wavpath st1 _. unfold walk_sample_file.
    rewrite run_bind. unfold count_walked.
    pose proof (examine_never label wavpath
      {| duplicates := duplicates st1; invalid_files := invalid_files st1;
         num_walked := S (num_walked st1) |}) as He.
    by destruct (examine _ _ _ _ _ _ _ _) as [[ys' st'] r]. }
  by destruct (for_each (default [] (sample_files definition)) _ st0)
    as [[ys1 st1] r].
Qed.

End GuardNeverFires.

Lemma linked_fs_well_listed : well_listed Demo.linked_fs.
Proof.
  intros p dirs nondirs. unfold Demo.linked_fs. cbv beta iota delta [scandir].
  generalize (Demo.links (S Demo.max_links) p). intros [k|]; [|discriminate].
  generalize (k <? Demo.max_links)%nat (k =? Demo.max_links)%nat.
  intros [|] b.
  - intros [= <- <-]. split; [apply NoDup_singleton|].
    intros d Hd. apply list_elem_of_singleton in Hd as ->.
    split; [discriminate | reflexivity].
  - destruct b; [|discriminate].
    intros [= <- <-]. split; [constructor|].
    intros d Hd. by apply elem_of_nil in Hd.
Qed.

Lemma ogi_parse_keeps_off_recursion_error :
  parse_keeps_off_recursion_error OGI.class.
Proof. intros parse p [= <-]. done. Qed.

(** whatever the walker and the flags, a walk over the corpus with the
    link to itself does not end with [DatasetRecursionError] *)
Lemma linked_corpus_never_raises (self : walker)
    (check_duplicates check_read followlinks : bool) :
  outcome (walk Demo.linked OGI.class self check_duplicates check_read followlinks)
    ≠ inl DatasetRecursionError.
Proof.
  apply (guard_never_fires Demo.linked_fs linked_fs_well_listed
           Demo.linked (S (S Demo.max_links))).
  - reflexivity.
  - apply ogi_parse_keeps_off_recursion_error.
Qed.

(** C1: on a sample directory that holds a symbolic link to itself the
    guard does not fire.  [os.walk], following links, reports the
    directory once per level under a longer path each time, so the paths
    are pairwise distinct, none is found in [seen_directories], the
    directory is traversed again at every level and its recording is
    yielded once per level; the walk ends normally, without
    [DatasetRecursionError], only because the operating system refuses to
    resolve the path any further. *)
Theorem link_to_ancestor_traversed_again :
  let entries := os_walk Demo.linked "/data/wav/english" true in
  let r := walk Demo.linked OGI.class Demo.ogi false false true in
  length entries = S Demo.max_links ∧
  NoDup (map (λ entry, entry.1.1) entries) ∧
  Forall (λ entry, Demo.resolves entry.1.1 = true
                   ∧ "en001abc.wav" ∈ entry.2) entries ∧
  outcome r = inr tt ∧
  map t_path (yields r) =
    map (λ entry, Str.join entry.1.1 ["en001abc.wav"]) entries ∧
  ("eng", "/data/wav/english/back/en001abc.wav", "en001") ∈ yields r.
Proof.
  split; [vm_compute; reflexivity|].
  split; [apply (bool_decide_unpack _); vm_compute; exact I|].
  split; [apply (bool_decide_unpack _); vm_compute; exact I|].
  split; [vm_compute; reflexivity|].
  split; [vm_compute; reflexivity|].
  apply (bool_decide_unpack _). vm_compute. exact I.
Qed.

(** ** Labels and the dataset tree *)

Lemma join_all_rooted self root (entries : list (list string)) :
  dataset_root self = Some root →
  join_all self entries = inr (map (Str.join root) entries).
Proof.
  intros Hroot. induction entries as [|paths rest IH]; [done|].
  simpl. unfold join_root. by rewrite Hroot, IH.
Qed.

Lemma parse_labels_spec self root tree todo defs defs' :
  dataset_root self = Some root →
  NoDup (map fst todo) →
  parse_labels self tree todo defs = inr defs' →
  ∀ label,
    (∀ d, (label, d) ∈ todo →
       ∃ entries, tree !! label = Some entries ∧
         defs' !! label =
           Some (with_sample_dirs (map (Str.join root) entries) d)) ∧
    (label ∉ map fst todo → defs' !! label = defs !! label).
Proof.
  intros Hroot. revert defs.
  induction todo as [|[label0 d0] rest IH]; intros defs Hnodup Hparse label.
  - injection Hparse as <-. split; [|done]. intros d Hin.
    by apply elem_of_nil in Hin.
  - simpl in Hparse, Hnodup. apply NoDup_cons in Hnodup as [Hfresh Hnodup].
    destruct (tree !! label0) as [entries|] eqn:Htree; [|done].
    rewrite (join_all_rooted self root) in Hparse by done.
    destruct (IH _ Hnodup Hparse label) as [Hin Hout].
    destruct (IH _ Hnodup Hparse label0) as [_ Hout0].
    split.
    + intros d Hd. apply elem_of_cons in Hd as [[= -> ->]|Hd]; [|by apply Hin].
      exists entries. split; [done|].
      by rewrite (Hout0 Hfresh), lookup_insert_eq.
    + intros Hnotin. simpl in Hnotin.
      apply not_elem_of_cons in Hnotin as [Hne Hnotin].
      by rewrite (Hout Hnotin), lookup_insert_ne.
Qed.

(** what [parse_directory_tree] leaves in [label_definitions] *)
Lemma parse_directory_tree_spec cls self0 self tree root :
  dataset_tree cls = Some tree →
  dataset_root self0 = Some root →
  parse_directory_tree cls self0 = inr self →
  dataset_root self = Some root ∧
  ∀ label definition,
    label_definitions self !! label = Some definition →
    ∃ d entries,
      label_definitions self0 !! label = Some d ∧
      tree !! label = Some entries ∧
      sample_dirs definition = Some (map (Str.join root) entries) ∧
      sample_files definition = sample_files d.
Proof.
  intros Htree Hroot. unfold parse_directory_tree.
  destruct (map_to_list (label_definitions self0)) as [|item todo] eqn:Hlist.
  - intros [= <-]. split; [done|]. intros label definition Hdef.
    apply map_to_list_empty_iff in Hlist. by rewrite Hlist in Hdef.
  - rewrite Htree.
    destruct (parse_labels self0 tree (item :: todo) (label_definitions self0))
      as [e|defs] eqn:Hparse; [done|].
    intros [= <-]. split; [done|]. simpl. intros label definition Hdef.
    rewrite <- Hlist in Hparse.
    destruct (parse_labels_spec self0 root tree _ _ _ Hroot
                (NoDup_fst_map_to_list _) Hparse label) as [Hin Hout].
    destruct (label_definitions self0 !! label) as [d|] eqn:Hd0.
    + destruct (Hin d) as (entries & Hentries & Hdefs).
      { by apply elem_of_map_to_list. }
      rewrite Hdefs in Hdef. injection Hdef as <-.
      by exists d, entries.
    + rewrite Hout in Hdef; [done|].
      intros Hk. apply list_elem_of_fmap in Hk as ([label' d] & -> & Hk).
      apply elem_of_map_to_list in Hk. simpl in Hd0. by rewrite Hk in Hd0.
Qed.

(** an absolute path stays absolute when more is joined onto it, and
    replaces what it is joined onto *)
Lemma startswith_sep_inv (s : string) :
  Str.startswith s "/" = true ↔ ∃ rest, s = String "/" rest.
Proof.
  destruct s as [|c r]; [split; [done | by intros [? ?]]|].
  unfold Str.startswith.
  change (String.prefix "/" (String c r))
    with (if ascii_dec "/" c then String.prefix "" r else false).
  destruct (ascii_dec "/" c) as [<-|Hne].
  - split; [by eexists|]. intros _. by destruct r.
  - split; [done|]. intros [r' Heq]. injection Heq as Hc _. by destruct Hne.
Qed.

Lemma join_step_absolute (path b : string) :
  Str.startswith path "/" = true →
  Str.startswith (Str.join_step path b) "/" = true.
Proof.
  intros Hpath. unfold Str.join_step.
  destruct (Str.startswith b "/") eqn:Hb; [done|].
  apply startswith_sep_inv in Hpath as [rest ->]. apply startswith_sep_inv.
  destruct (String.eqb _ "" || Str.endswith _ "/");
    rewrite append_cons; by eexists.
Qed.

Lemma join_absolute (root : string) (paths : list string) :
  Str.startswith root "/" = true →
  Str.startswith (Str.join root paths) "/" = true.
Proof.
  unfold Str.join. revert root.
  induction paths as [|p paths IH]; intros root Hroot; [done|].
  simpl. apply IH. by apply join_step_absolute.
Qed.

Lemma join_onto_absolute (root parent f : string) :
  Str.startswith parent "/" = true →
  Str.join root [parent; f] = Str.join parent [f].
Proof.
  intros Hparent. unfold Str.join. simpl.
  unfold Str.join_step at 2. by rewrite Hparent.
Qed.

(** below an absolute directory [os.walk] reports absolute paths *)
Lemma os_walk_from_absolute (fs : filesystem) (depth : nat) (top : string)
    (followlinks : bool) (entry : string * list string * list string) :
  Str.startswith top "/" = true →
  entry ∈ os_walk_from fs depth top followlinks →
  Str.startswith entry.1.1 "/" = true.
Proof.
  revert top. induction depth as [|depth IH]; intros top Htop Hin;
    [by apply elem_of_nil in Hin|].
  simpl in Hin.
  destruct (scandir fs top) as [[dirs nondirs]|]; [|by apply elem_of_nil in Hin].
  apply elem_of_cons in Hin as [->|Hin]; [done|].
  apply list_elem_of_In, in_flat_map in Hin as (d & _ & Hin).
  destruct (followlinks || negb _); [|done].
  apply list_elem_of_In in Hin. apply (IH (Str.join top [d])); [|done].
  by apply join_absolute.
Qed.

(** X21: for a walker with an absolute root whose sample directories were
    set by [parse_directory_tree] from the class's [dataset_tree], every
    yielded triple has a path that was found by traversing the tree of
    its label: it is the path [parent/f] of a file [f] that [os.walk]
    lists in a directory [parent] below one of the directories that the
    tree assigns to the label, joined onto the root; or it is one of the
    label's sample files. *)
Theorem absolute_root_paths_found_in_tree (sys : system) (fs : filesystem)
    (depth : nat) (cls : walker_class) (self0 self : walker)
    (tree : gmap string (list (list string))) (root : string)
    (check_duplicates check_read followlinks : bool) :
  (∀ top links, os_walk sys top links = os_walk_from fs depth top links) →
  Str.startswith root "/" = true →
  dataset_tree cls = Some tree →
  dataset_root self0 = Some root →
  parse_directory_tree cls self0 = inr self →
  Forall (found_in_dataset_tree sys followlinks tree root self)
    (yields (walk sys cls self check_duplicates check_read followlinks)).
Proof.
  intros Hwalk Habs Htree Hroot Hparse. unfold found_in_dataset_tree.
  destruct (parse_directory_tree_spec cls self0 self tree root Htree Hroot Hparse)
    as [Hroot' Hdefs].
  apply walk_yields_sat.
  intros label wavpath st st' (definition & Hdef & Hfrom) _.
  destruct (Hdefs label definition Hdef)
    as (d & entries & Hd & Hentries & Hdirs & Hfiles).
  unfold t_label, t_path. simpl.
  destruct Hfrom
    as [(sample_dir & parent & dirs & files & f & Hdir & Hin & Hf & Hjoin)
       |Hfile].
  - left. rewrite Hdirs in Hdir. simpl in Hdir.
    apply list_elem_of_fmap in Hdir as (paths & -> & Hpaths).
    unfold join_root in Hjoin. rewrite Hroot' in Hjoin. injection Hjoin as <-.
    exists entries, paths, parent, dirs, files, f.
    repeat split; try done.
    apply join_onto_absolute. rewrite Hwalk in Hin.
    apply (os_walk_from_absolute fs depth (Str.join root paths) followlinks
             (parent, dirs, files)); [by apply join_absolute|done].
  - right. by exists definition.
Qed.

(** C5: with the relative root [data] the walker joins the root a second
    time onto what [os.walk] reports.  [os.walk] lists the recording in
    [data/wav/english], and the walker examines
    [data/data/wav/english/en001abc.wav]: in the plain corpus that path
    does not exist and nothing is yielded; in the corpus with a copy of
    itself inside, the walk yields that path, which is not the path of a
    file found by traversing a sample directory of its label. *)
Theorem relative_root_yields_file_outside_sample_dirs :
  OGI.new (Some "data") None None None None = inr Relative.ogi ∧
  (∀ copy, os_walk (Relative.sys copy) "data/wav/english" true
           = [("data/wav/english", [], ["en001abc.wav"])]) ∧
  (let r := iter (Relative.sys false) OGI.class Relative.ogi in
   candidates (Relative.sys false) Relative.ogi true
     = ["data/data/wav/english/en001abc.wav"] ∧
   num_walked (final r) = 1 ∧ yields r = [] ∧ outcome r = inr tt) ∧
  (let r := iter (Relative.sys true) OGI.class Relative.ogi in
   yields r = [("eng", "data/data/wav/english/en001abc.wav", "en001")] ∧
   outcome r = inr tt ∧
   ¬ Forall (found_in_dataset_tree (Relative.sys true) true OGI.tree "data"
               Relative.ogi) (yields r)).
Proof.
  split; [vm_compute; reflexivity|].
  split; [intros [|]; vm_compute; reflexivity|].
  split; [repeat split; vm_compute; reflexivity|].
  cbv zeta.
  assert (yields (iter (Relative.sys true) OGI.class Relative.ogi)
          = [("eng", "data/data/wav/english/en001abc.wav", "en001")]) as Hy
    by (vm_compute; reflexivity).
  split; [done|]. split; [vm_compute; reflexivity|].
  rewrite Hy. intros Hall. apply Forall_cons in Hall as [Hfound _].
  unfold found_in_dataset_tree, t_label, t_path in Hfound. simpl in Hfound.
  destruct Hfound
    as [(entries & paths & parent & dirs & files & f
         & Htree & Hpaths & Hin & Hf & Hpath)
       |(d & Hd & Hfile)].
  - assert (OGI.tree !! "eng" = Some [["wav"; "english"]]) as Heng
      by (vm_compute; reflexivity).
    rewrite Heng in Htree. injection Htree as <-.
    apply list_elem_of_singleton in Hpaths as ->.
    replace (os_walk (Relative.sys true) (Str.join "data" ["wav"; "english"]) true)
      with [("data/wav/english", @nil string, ["en001abc.wav"])] in Hin
      by (vm_compute; reflexivity).
    apply list_elem_of_singleton in Hin. injection Hin as -> -> ->.
    apply list_elem_of_singleton in Hf as ->.
    vm_compute in Hpath. discriminate.
  - assert (label_definitions Relative.ogi !! "eng"
            = Some {| name := "English";
                      sample_dirs := Some ["data/wav/english"];
                      sample_files := None;
                      sample_file_checksums := None |}) as Heng
      by (vm_compute; reflexivity).
    rewrite Heng in Hd. injection Hd as <-. simpl in Hfile.
    by apply elem_of_nil in Hfile.
Qed.

(** ** Speaker statistics *)

Global Instance str_le_total : Total Str.le.
Proof. intros a b. apply String.leb_total. Qed.

Lemma count_loop_spec cls parse ys (c : gmap string (gmap string nat)) :
  parse_speaker_id cls = Some parse →
  (∀ t, t ∈ ys →
        t_label t ∈ dom c ∧ ∃ speaker_id, parse (t_path t) = inr speaker_id) →
  ∃ c', count_loop cls ys c = inr c' ∧ dom c' = dom c ∧
    ∀ label counter', c' !! label = Some counter' →
      ∃ counter, c !! label = Some counter ∧
        dom counter' = dom counter ∪ speakers_of parse ys label.
Proof.
  intros Hparse. revert c.
  induction ys as [|[[label0 path] checksum] rest IH]; intros c Hys.
  - exists c. split; [done|]. split; [done|]. intros label counter' Hc.
    exists counter'. split; [done|]. simpl. by rewrite union_empty_r_L.
  - destruct (Hys (label0, path, checksum)) as [Hlabel [speaker_id Hid]];
      [by left|].
    unfold t_label, t_path in Hlabel, Hid. simpl in Hlabel, Hid.
    apply elem_of_dom in Hlabel as [counter0 Hcounter0].
    simpl. rewrite Hparse, Hid. unfold count_one. rewrite Hcounter0.
    set (c1 := <[label0 := _]> c).
    assert (dom c1 = dom c) as Hdom1.
    { unfold c1. apply dom_insert_lookup_L. by eexists. }
    destruct (IH c1) as (c' & Hloop & Hdom & Hcounts).
    { intros t Ht. rewrite Hdom1. apply Hys. by right. }
    exists c'. split; [done|]. split; [by rewrite Hdom|].
    intros label counter' Hc'.
    destruct (Hcounts label counter' Hc') as (counter1 & Hc1 & Hdomc).
    unfold t_label, t_path. simpl. rewrite Hid.
    destruct (String.eqb_spec label0 label) as [->|Hne].
    + unfold c1 in Hc1. rewrite lookup_insert_eq in Hc1. injection Hc1 as <-.
      exists counter0. split; [done|]. rewrite Hdomc, dom_insert_L.
      apply set_eq. intros x. rewrite !elem_of_union. tauto.
    + unfold c1 in Hc1. rewrite lookup_insert_ne in Hc1 by done.
      exists counter1. split; [done|]. by rewrite Hdomc, union_empty_l_L.
Qed.

(** C7: for a class with [parse_speaker_id], when the default iteration
    ends normally and every yielded path parses, [speakers_per_label]
    returns a dict with the labels of [label_definitions] as keys that
    maps each to the number of distinct speaker ids parsed from the paths
    yielded for it, and [speaker_ids_by_label] returns a dict with the
    same keys that maps each to the sorted, duplicate-free list of those
    ids. *)
Theorem speaker_statistics (sys : system) (cls : walker_class)
    (self : walker) (parse : string → exn + string) :
  parse_speaker_id cls = Some parse →
  outcome (iter sys cls self) = inr tt →
  (∀ t, t ∈ yields (iter sys cls self) →
        ∃ speaker_id, parse (t_path t) = inr speaker_id) →
  ∃ counts ids,
    speakers_per_label sys cls self = inr counts ∧
    speaker_ids_by_label sys cls self = inr ids ∧
    statistics_of (label_definitions self) parse (yields (iter sys cls self))
      counts ids.
Proof.
  intros Hparse Hend Hids. unfold statistics_of.
  destruct (count_loop_spec cls parse (yields (iter sys cls self))
              ((λ _, ∅ : gmap string nat) <$> label_definitions self) Hparse)
    as (c' & Hloop & Hdom & Hcounts).
  { intros t Ht. split; [|by apply Hids].
    rewrite dom_fmap_L. revert t Ht. apply Forall_forall.
    apply walk_yields_sat. intros label wavpath st st' (d & Hd & _) _.
    apply elem_of_dom. by eexists. }
  rewrite dom_fmap_L in Hdom.
  assert (count_files_per_speaker_by_label sys cls self = inr c') as Hcount.
  { unfold count_files_per_speaker_by_label. by rewrite Hloop, Hend. }
  exists (size <$> c'),
         ((λ files_per_speaker : gmap string nat,
             Str.sorted (elements (dom files_per_speaker))) <$> c').
  unfold speakers_per_label, speaker_ids_by_label. rewrite Hcount.
  split; [done|]. split; [done|].
  split; [by rewrite dom_fmap_L|]. split; [by rewrite dom_fmap_L|].
  intros label Hlabel. rewrite <- Hdom in Hlabel.
  apply elem_of_dom in Hlabel as [counter' Hc'].
  destruct (Hcounts label counter' Hc') as (counter & Hc & Hdomc).
  rewrite lookup_fmap in Hc.
  destruct (label_definitions self !! label); [|done].
  injection Hc as <-. rewrite dom_empty_L, union_empty_l_L in Hdomc.
  rewrite !lookup_fmap, Hc'. simpl. split.
  - by rewrite <- Hdomc, size_dom.
  - eexists. split; [done|]. split; [apply Sorted_merge_sort, _|].
    split.
    + unfold Str.sorted. rewrite merge_sort_Permutation. apply NoDup_elements.
    + intros s. by rewrite elem_of_sorted, elem_of_elements, Hdomc.
Qed.

(** ** The small corpus, walked *)

Example demo_checked_walk :
  walk Demo.sys OGI.class Demo.ogi true true true =
    ([("eng", "/data/wav/english/en001abc.wav", "en001");
      ("eng", "/data/wav/english/en002abc.wav", "en002")],
     final (walk Demo.sys OGI.class Demo.ogi true true true),
     inr tt)
  ∧ invalid_files (final (walk Demo.sys OGI.class Demo.ogi true true true))
    = ["/data/wav/english/en003bad.wav"]
  ∧ num_walked (final (walk Demo.sys OGI.class Demo.ogi true true true)) = 6.
Proof. vm_compute. done. Qed.

Example demo_default_iteration :
  yields (iter Demo.sys OGI.class Demo.ogi) =
    [("eng", "/data/wav/english/en001abc.wav", "en001");
     ("eng", "/data/wav/english/en002abc.wav", "en002");
     ("eng", "/data/wav/english/en003bad.wav", "en003");
     ("eng", "/data/wav/english/more/en001xyz.wav", "en001")].
Proof. vm_compute. done. Qed.

Example demo_looping_walk :
  yields (walk Demo.looping OGI.class Demo.ogi false false true) =
    [("eng", "/data/wav/english/en001abc.wav", "en001");
     ("eng", "/data/wav/english/en002abc.wav", "en002");
     ("eng", "/data/wav/english/en003bad.wav", "en003");
     ("eng", "/data/wav/english/more/en001xyz.wav", "en001");
     ("vie", "/data/wav/vietnam/vi001abc.wav", "vi001")]
  ∧ outcome (walk Demo.looping OGI.class Demo.ogi false false true)
    = inl DatasetRecursionError.
Proof. vm_compute. done. Qed.

(** The speaker filter on the small corpus: with [{"eng": ["en002"]}] every
    yielded English file parses to a speaker of that set. *)
Lemma speaker_filter_is_set_based_witness :
  parse_speaker_id OGI.class = Some OGI.speaker_id ∧
  ∀ t ids,
    t ∈ yields (walk Demo.sys OGI.class
                  (set_speaker_filter Demo.ogi Demo.only_en002)
                  true true true) →
    Demo.only_en002 !! t_label t = Some ids →
    ∃ speaker_id, OGI.speaker_id (t_path t) = inr speaker_id ∧
                  speaker_id ∈ (list_to_set ids : gset string).
Proof.
  split; [reflexivity|].
  exact (proj1 (speaker_filter_is_set_based Demo.sys OGI.class Demo.ogi
                  Demo.only_en002 OGI.speaker_id true true true eq_refl)).
Defined.

(** The speaker statistics of the small corpus. *)
Lemma speaker_statistics_witness :
  parse_speaker_id OGI.class = Some OGI.speaker_id ∧
  outcome (iter Demo.sys OGI.class Demo.ogi) = inr tt ∧
  ∃ counts ids,
    speakers_per_label Demo.sys OGI.class Demo.ogi = inr counts ∧
    speaker_ids_by_label Demo.sys OGI.class Demo.ogi = inr ids ∧
    statistics_of (label_definitions Demo.ogi) OGI.speaker_id
      (yields (iter Demo.sys OGI.class Demo.ogi)) counts ids.
Proof.
  split; [reflexivity|]. split; [vm_compute; reflexivity|].
  apply (speaker_statistics Demo.sys OGI.class Demo.ogi OGI.speaker_id).
  - reflexivity.
  - vm_compute. reflexivity.
  - intros t _. by eexists.
Defined.

(** On the small corpus, with both checks on, the unreadable file is
    examined and exists, but no hash is entered for it: not every examined
    file is hashed. *)
Lemma unreadable_file_is_not_hashed :
  ¬ every_examined_file_hashed Demo.sys OGI.class Demo.ogi true true.
Proof.
  intros Hall.
  specialize (Hall "/data/wav/english/en003bad.wav").
  assert (dups_at (final (walk Demo.sys OGI.class Demo.ogi true true true))
            (md5sum Demo.sys "/data/wav/english/en003bad.wav") = []) as Hnone
    by (vm_compute; reflexivity).
  rewrite Hnone in Hall. eapply elem_of_nil, Hall.
  - replace (take _ _) with (candidates Demo.sys Demo.ogi true)
      by (vm_compute; reflexivity).
    apply list_elem_of_In. vm_compute. tauto.
  - reflexivity.
Qed.

(** On the small corpus read strictly, the entry that does not exist is
    examined and cannot be read, but it is not recorded in
    [invalid_files]: not every examined file that cannot be read is
    recorded. *)
Lemma missing_file_is_not_recorded :
  ¬ every_unreadable_examined_file_recorded Given.strict OGI.class Demo.ogi
      true true.
Proof.
  intros Hall.
  specialize (Hall "/data/wav/english/ghost.wav").
  assert (invalid_files (final (walk Given.strict OGI.class Demo.ogi true true true))
          = ["/data/wav/english/en003bad.wav"]) as Hinvalid
    by (vm_compute; reflexivity).
  rewrite Hinvalid in Hall.
  assert ("/data/wav/english/ghost.wav" ∈ ["/data/wav/english/en003bad.wav"])
    as Hin.
  { apply Hall.
    - replace (take _ _) with (candidates Given.strict Demo.ogi true)
        by (vm_compute; reflexivity).
      apply list_elem_of_In. vm_compute. tauto.
    - reflexivity. }
  apply list_elem_of_singleton in Hin. discriminate.
Qed.

(** * Further properties of the code *)

(** ** [OGIWalker2.phone_segmentation_to_words] *)

Lemma words_from_concat phoneseg word :
  concat (OGI2.words_from phoneseg word) = word ++ spoken phoneseg.
Proof.
  revert word. induction phoneseg as [|[[start stop] phoneme] rest IH];
    intros word; unfold spoken in *; simpl.
  - destruct word; simpl; by rewrite ?app_nil_r.
  - destruct (Str.startswith phoneme "."); simpl.
    + destruct (bool_decide _ && _); simpl; rewrite IH; by rewrite ?app_nil_r.
    + rewrite IH. by rewrite <- app_assoc.
Qed.

Lemma words_from_nonempty phoneseg word :
  Forall (λ w, w ≠ []) (OGI2.words_from phoneseg word).
Proof.
  revert word. induction phoneseg as [|[[start stop] phoneme] rest IH];
    intros word; simpl.
  - destruct word; [constructor|]. by apply Forall_singleton.
  - destruct (Str.startswith phoneme "."); [|apply IH].
    destruct (bool_decide _) eqn:Hb; simpl; [|apply IH].
    destruct word; [apply IH|]. constructor; [done | apply IH].
Qed.

(** X1: the words that [phone_segmentation_to_words] yields are non-empty
    and, put one after the other, are exactly the phonemes of the
    segmentation that do not start with a dot, in their order: no phoneme
    is lost, repeated or reordered, and no comment gets into a word. *)
Theorem phone_words_partition (phoneseg : list (Z * Z * string)) :
  concat (OGI2.phone_segmentation_to_words phoneseg) = spoken phoneseg ∧
  Forall (λ w, w ≠ []) (OGI2.phone_segmentation_to_words phoneseg) ∧
  Forall (Forall (λ phoneme, Str.startswith phoneme "." = false))
    (OGI2.phone_segmentation_to_words phoneseg).
Proof.
  assert (concat (OGI2.phone_segmentation_to_words phoneseg) = spoken phoneseg)
    as Hconcat by apply (words_from_concat phoneseg []).
  split; [done|]. split; [apply words_from_nonempty|].
  apply Forall_forall. intros w Hw. apply Forall_forall. intros phoneme Hin.
  assert (phoneme ∈ spoken phoneseg) as Hspoken.
  { rewrite <- Hconcat. apply list_elem_of_In, in_concat.
    exists w. split; by apply list_elem_of_In. }
  apply list_elem_of_In, filter_In in Hspoken as [_ Hdot].
  by apply negb_true_iff in Hdot.
Qed.

Lemma words_from_pause before after (start stop : Z) word :
  OGI2.words_from (before ++ (start, stop, ".pau") :: after) word =
    OGI2.words_from before word ++ OGI2.words_from after [].
Proof.
  revert word. induction before as [|[[s e] phoneme] rest IH]; intros word.
  - simpl. change (Str.startswith ".pau" ".") with true. simpl.
    by destruct word.
  - simpl. destruct (Str.startswith phoneme "."); [|apply IH].
    destruct (bool_decide _ && _); [|apply IH]. simpl. by rewrite IH.
Qed.

(** X2: a pause [.pau] cuts a segmentation into two parts that are turned
    into words independently: the words of the whole are the words of
    what precedes the pause followed by the words of what follows it. *)
Theorem phone_words_split_at_pause (before after : list (Z * Z * string))
    (start stop : Z) :
  OGI2.phone_segmentation_to_words (before ++ (start, stop, ".pau") :: after) =
    OGI2.phone_segmentation_to_words before
    ++ OGI2.phone_segmentation_to_words after.
Proof. apply words_from_pause. Qed.

(** ** [SpeechDatasetWalker.make_label_to_index_dict] *)

Lemma str_le_iff (a b : string) : Str.le a b ↔ String.le a b.
Proof. unfold Str.le, String.le. by rewrite Is_true_true. Qed.

Global Instance str_le_trans : Transitive Str.le.
Proof. intros a b c. rewrite !str_le_iff. apply transitivity. Qed.

Global Instance str_le_antisymm : AntiSymm (=) Str.le.
Proof. intros a b. rewrite !str_le_iff. apply (anti_symm String.le). Qed.

Lemma str_le_refl (a : string) : Str.le a a.
Proof. apply str_le_iff. reflexivity. Qed.

Lemma StronglySorted_lookup_lt {A} (R : relation A) (l : list A)
    (i j : nat) (a b : A) :
  StronglySorted R l → l !! i = Some a → l !! j = Some b → (i < j)%nat → R a b.
Proof.
  intros Hsorted. revert i j.
  induction Hsorted as [|x l Hl IH Hx]; intros i j Hi Hj Hlt; [done|].
  destruct j as [|j]; [lia|]. simpl in Hj. destruct i as [|i].
  - injection Hi as <-. rewrite Forall_forall in Hx.
    apply Hx. by eapply list_elem_of_lookup_2.
  - simpl in Hi. apply (IH i j); [done..|lia].
Qed.

(** a dict built from [enumerate] over distinct keys maps each key to its
    position *)
Lemma enumerate_dict_lookup (l : list string) (i : nat)
    (d : gmap string nat) (x : string) :
  NoDup l →
  fold_left (λ d item, <[item.2 := item.1]> d) (enumerate_from i l) d !! x =
    match list_find (λ y, y = x) l with
    | Some (k, _) => Some (i + k)
    | None => d !! x
    end.
Proof.
  intros Hnodup. revert i d.
  induction Hnodup as [|y l Hy Hl IH]; intros i d; [done|].
  simpl. rewrite IH. case_decide as Hyx.
  - subst y. simpl.
    destruct (list_find (λ y, y = x) l) as [[k z]|] eqn:Hfind.
    + apply list_find_Some in Hfind as (Hk & -> & _).
      destruct Hy. by eapply list_elem_of_lookup_2.
    + simpl. rewrite lookup_insert_eq. f_equal. lia.
  - destruct (list_find (λ y, y = x) l) as [[k z]|]; simpl.
    + f_equal. lia.
    + by rewrite lookup_insert_ne.
Qed.

(** X3: [make_label_to_index_dict] numbers the labels of
    [label_definitions] by their position in sorted order: a label has
    index [i] exactly when it is the [i]-th label in that order, so the
    keys are the labels, the indices are [0 .. n-1] without gap or
    repetition, and a smaller label has a smaller index. *)
Theorem label_index_is_sorted_position (self : walker) :
  let labels := Str.sorted (elements (dom (label_definitions self))) in
  let d := make_label_to_index_dict self in
  (∀ label i, d !! label = Some i ↔ labels !! i = Some label) ∧
  dom d = dom (label_definitions self) ∧
  size d = size (label_definitions self) ∧
  (∀ a b i j, d !! a = Some i → d !! b = Some j →
              ((i ≤ j)%nat ↔ Str.le a b)).
Proof.
  intros labels d.
  assert (NoDup labels) as Hnodup.
  { unfold labels, Str.sorted. rewrite merge_sort_Permutation.
    apply NoDup_elements. }
  assert (StronglySorted Str.le labels) as Hsorted.
  { apply StronglySorted_merge_sort; apply _. }
  assert (∀ label i, d !! label = Some i ↔ labels !! i = Some label) as Hpos.
  { intros label i. unfold d, make_label_to_index_dict. fold labels.
    rewrite enumerate_dict_lookup by done. simpl.
    destruct (list_find (λ y, y = label) labels) as [[k z]|] eqn:Hfind.
    - apply list_find_Some in Hfind as (Hk & -> & _). split.
      + by intros [= <-].
      + intros Hi. f_equal. by eapply NoDup_lookup.
    - rewrite lookup_empty. split; [done|]. intros Hi.
      eapply list_find_None in Hfind. rewrite Forall_forall in Hfind.
      destruct (Hfind label); [|done]. by eapply list_elem_of_lookup_2. }
  assert (dom d = dom (label_definitions self)) as Hdom.
  { apply set_eq. intros label. rewrite elem_of_dom.
    rewrite <- (elem_of_elements (dom (label_definitions self))).
    rewrite <- (elem_of_sorted (elements _)). fold labels. split.
    - intros [i Hi]. apply Hpos in Hi. by eapply list_elem_of_lookup_2.
    - intros Hin. apply list_elem_of_lookup in Hin as [i Hi].
      exists i. by apply Hpos. }
  split; [done|]. split; [done|]. split.
  - by rewrite <- !size_dom, Hdom.
  - intros a b i j Ha Hb. apply Hpos in Ha, Hb. split.
    + intros Hle. destruct (decide (i = j)) as [->|Hne].
      * rewrite Ha in Hb. injection Hb as <-. apply str_le_refl.
      * apply (StronglySorted_lookup_lt Str.le labels i j); [done..|lia].
    + intros Hab. destruct (decide (i ≤ j)%nat) as [|Hgt]; [done|].
      assert (Str.le b a) as Hba.
      { apply (StronglySorted_lookup_lt Str.le labels j i); [done..|lia]. }
      assert (a = b) as -> by by apply (anti_symm Str.le).
      assert (i = j) as -> by by eapply NoDup_lookup. lia.
Qed.

(** ** [str.split], [basename] and the functions built on them *)

Lemma prefix_nil (s : string) : String.prefix "" s = true.
Proof. by destruct s. Qed.

Lemma prefix_cons (a b : ascii) (p s : string) :
  String.prefix (String a p) (String b s) =
    if ascii_dec a b then String.prefix p s else false.
Proof. reflexivity. Qed.

Lemma startswith_spec (s p : string) :
  Str.startswith s p = true ↔ ∃ b, s = String.append p b.
Proof.
  unfold Str.startswith. revert s. induction p as [|a p IH]; intros s.
  - rewrite prefix_nil. split; [|done]. intros _. by exists s.
  - destruct s as [|b s].
    + split; [done|]. intros [t Ht]. by rewrite append_cons in Ht.
    + rewrite prefix_cons. destruct (ascii_dec a b) as [->|Hne].
      * rewrite IH. split; intros [t Ht]; exists t.
        -- by rewrite append_cons, Ht.
        -- rewrite append_cons in Ht. by injection Ht.
      * split; [done|]. intros [t Ht]. rewrite append_cons in Ht.
        injection Ht as Hab _. by destruct Hne.
Qed.

Lemma has_char_append (c : ascii) (a b : string) :
  has_char c (String.append a b) = has_char c a || has_char c b.
Proof.
  induction a as [|c' a IH]; [done|].
  rewrite append_cons. simpl. by rewrite IH, orb_assoc.
Qed.

(** two ways of cutting the same string: one first part begins with the
    other *)
Lemma append_cut (a p x t : string) :
  String.append a x = String.append p t →
  (∃ u, a = String.append p u) ∨
  (∃ p2, p = String.append a p2 ∧ p2 ≠ "" ∧ x = String.append p2 t).
Proof.
  revert p. induction a as [|c a IH]; intros p Heq.
  - rewrite append_nil_l in Heq. destruct p as [|c p].
    + left. by exists "".
    + right. exists (String c p). by rewrite append_nil_l.
  - destruct p as [|c' p].
    + left. exists (String c a). by rewrite append_nil_l.
    + rewrite !append_cons in Heq. injection Heq as <- Heq.
      destruct (IH p Heq) as [[u ->]|(p2 & -> & Hne & ->)].
      * left. exists u. by rewrite append_cons.
      * right. exists p2. by rewrite append_cons.
Qed.

(** When the first character of [sep] does not come again in [sep], an
    occurrence of [sep] that starts inside [a], in [a] followed by [sep],
    lies inside [a]. *)
Lemma no_straddle (c0 : ascii) (sep' a a1 a2 b : string) :
  has_char c0 sep' = false →
  ¬ occurs (String c0 sep') a →
  a = String.append a1 a2 → a2 ≠ "" →
  Str.startswith (String.append a2 (String.append (String c0 sep') b))
    (String c0 sep') = false.
Proof.
  intros Hfresh Hnone -> Hne.
  destruct (Str.startswith _ _) eqn:Hstart; [|done]. exfalso.
  apply startswith_spec in Hstart as [t Ht].
  apply append_cut in Ht as [[u ->]|(p2 & Hsep & Hp2 & Hx)].
  - apply Hnone. by exists a1, u.
  - destruct a2 as [|c a2]; [done|]. rewrite append_cons in Hsep.
    injection Hsep as <- ->.
    destruct p2 as [|c p2]; [done|].
    rewrite !append_cons in Hx. injection Hx as <- _.
    rewrite has_char_append in Hfresh. simpl in Hfresh.
    rewrite Ascii.eqb_refl in Hfresh. simpl in Hfresh.
    by rewrite orb_true_r in Hfresh.
Qed.

Global Arguments Str.startswith : simpl never.

Section SplitLemmas.

Variable sep : string.
Hypothesis sep_nonempty : sep ≠ "".

Lemma go_skip (x b cur : string) :
  Split.go sep (String.append x b) (String.length x) cur
    = Split.go sep b 0 cur.
Proof.
  induction x as [|c x IH]; [by rewrite append_nil_l|].
  rewrite append_cons. simpl. apply IH.
Qed.

Lemma go_match (b cur : string) :
  Split.go sep (String.append sep b) 0 cur
    = cur :: Split.go sep b 0 "".
Proof.
  destruct sep as [|c rest] eqn:Hsep; [done|]. rewrite <- Hsep.
  assert (Str.startswith (String.append sep b) sep = true) as Hstart
    by (apply startswith_spec; by exists b).
  rewrite Hsep in *. rewrite append_cons in *. simpl.
  rewrite Hstart. f_equal. rewrite Nat.sub_0_r. rewrite <- Hsep. apply go_skip.
Qed.

Lemma snoc_append (cur : string) (c : ascii) (a : string) :
  String.append (Split.snoc cur c) a = String.append cur (String c a).
Proof. unfold Split.snoc. by rewrite append_assoc, append_cons, append_nil_l. Qed.

(** up to the first occurrence of [sep] *)
Lemma go_first (a b cur : string) :
  (∀ a1 a2, a = String.append a1 a2 → a2 ≠ "" →
     Str.startswith (String.append a2 (String.append sep b)) sep = false) →
  Split.go sep (String.append a (String.append sep b)) 0 cur
    = String.append cur a :: Split.go sep b 0 "".
Proof.
  revert cur. induction a as [|c a IH]; intros cur Hfirst.
  - rewrite append_nil_l, append_nil_r. apply go_match.
  - pose proof (Hfirst "" (String c a) eq_refl ltac:(done)) as Hhere.
    rewrite append_cons in Hhere |- *. simpl. rewrite Hhere.
    rewrite IH; [by rewrite snoc_append|].
    intros a1 a2 -> Hne. apply (Hfirst (String c a1) a2); [|done].
    by rewrite append_cons.
Qed.

(** without occurrence of [sep] there is one part, the string itself *)
Lemma go_none (s cur : string) :
  (∀ s1 s2, s = String.append s1 s2 → Str.startswith s2 sep = false) →
  Split.go sep s 0 cur = [String.append cur s].
Proof.
  revert cur. induction s as [|c s IH]; intros cur Hnone.
  - by rewrite append_nil_r.
  - simpl. rewrite (Hnone "" (String c s) eq_refl).
    rewrite IH; [by rewrite snoc_append|].
    intros s1 s2 ->. apply (Hnone (String c s1) s2). by rewrite append_cons.
Qed.

(** the first part begins with what was collected *)
Lemma go_hd (s : string) (skip : nat) (cur : string) :
  ∃ u parts, Split.go sep s skip cur = String.append cur u :: parts.
Proof.
  revert skip cur. induction s as [|c s IH]; intros skip cur.
  - exists "", []. by rewrite append_nil_r.
  - simpl. destruct skip as [|skip]; [|apply IH].
    destruct (Str.startswith _ _).
    + exists "", (Split.go sep s (String.length sep - 1) "").
      by rewrite append_nil_r.
    + destruct (IH 0 (Split.snoc cur c)) as (u & parts & ->).
      exists (String c u), parts. by rewrite snoc_append.
Qed.

(** there is a second part exactly when [sep] occurs *)
Lemma go_second_iff_occurs (s cur : string) :
  (2 ≤ length (Split.go sep s 0 cur))%nat ↔ occurs sep s.
Proof.
  revert cur. induction s as [|c s IH]; intros cur.
  - simpl. split; [lia|]. intros (x & y & Heq). exfalso.
    destruct x; [|by rewrite append_cons in Heq].
    rewrite append_nil_l in Heq. destruct sep; [done|].
    by rewrite append_cons in Heq.
  - simpl. destruct (Str.startswith (String c s) sep) eqn:Hstart.
    + split.
      * intros _. apply startswith_spec in Hstart as [b Hb].
        exists "", b. by rewrite append_nil_l.
      * intros _. destruct (go_hd s (String.length sep - 1) "")
          as (u & parts & ->). simpl. lia.
    + rewrite IH. split; intros (x & y & Heq).
      * exists (String c x), y. by rewrite append_cons, Heq.
      * destruct x as [|c' x].
        -- rewrite append_nil_l in Heq.
           assert (Str.startswith (String c s) sep = true) as Hyes
             by (apply startswith_spec; by exists y).
           congruence.
        -- rewrite append_cons in Heq. injection Heq as _ ->. by exists x, y.
Qed.

End SplitLemmas.

Lemma basename_name (name : string) :
  Str.contains_sep name = false → Str.basename name = name.
Proof. destruct name as [|c name]; [done|]. simpl. by intros ->. Qed.

(** the directory part of a path does not matter to [basename] *)
Lemma basename_join (dir name : string) :
  Str.contains_sep name = false →
  Str.basename (String.append dir (String "/" name)) = name.
Proof.
  intros Hname. induction dir as [|c dir IH].
  - rewrite append_nil_l. simpl. by apply basename_name.
  - rewrite append_cons.
    change (Str.basename (String c ?s))
      with (if Str.contains_sep (String c s) then Str.basename s
            else String c s).
    assert (Str.contains_sep (String c (String.append dir (String "/" name)))
            = true) as ->; [|done].
    simpl. rewrite contains_sep_append. simpl. by rewrite !orb_true_r.
Qed.

Lemma split_nonempty (s sep : string) :
  sep ≠ "" → ∃ first parts, Split.split s sep = first :: parts.
Proof.
  intros Hsep. destruct (go_hd sep s 0 "") as (u & parts & Heq).
  exists u, parts. by rewrite append_nil_l in Heq.
Qed.

(** X4: [get_file_id] never raises; and for a file [<stem>.wav] (with
    anything without ['/'] after it) in any directory, where [stem] holds
    neither ['/'] nor [".wav"], it returns [stem]. *)
Theorem get_file_id_is_stem :
  (∀ wavpath, ∃ file_id, get_file_id wavpath = inr file_id) ∧
  (∀ dir stem rest,
      Str.contains_sep stem = false →
      Str.contains_sep rest = false →
      ¬ occurs ".wav" stem →
      get_file_id
        (String.append dir
           (String "/" (String.append stem (String.append ".wav" rest))))
        = inr stem).
Proof.
  split.
  - intros wavpath. unfold get_file_id, index.
    destruct (split_nonempty (Str.basename wavpath) ".wav")
      as (first & parts & ->); [done|]. by exists first.
  - intros dir stem rest Hstem Hrest Hnone. unfold get_file_id.
    rewrite basename_join.
    + unfold Split.split. rewrite go_first; [by rewrite append_nil_l|done|].
      intros a1 a2 Hcut Hne. by eapply no_straddle.
    + rewrite !contains_sep_append, Hstem, Hrest. reflexivity.
Qed.

(** X5: [OGIWalker2.parse_speaker_id] raises [IndexError] exactly when the
    file name holds no ["call-"], and raises nothing else; for a file name
    [<lang>call-<id>-<rest>] in any directory, where [lang] holds no
    ["call-"] and [id] neither ['-'] nor ['c'], it returns [id]. *)
Theorem ogi2_speaker_id_after_call :
  (∀ path, OGI2.speaker_id path = inl IndexError
           ↔ ¬ occurs "call-" (Str.basename path)) ∧
  (∀ path e, OGI2.speaker_id path = inl e → e = IndexError) ∧
  (∀ dir lang id rest,
      Str.contains_sep lang = false →
      Str.contains_sep id = false →
      Str.contains_sep rest = false →
      ¬ occurs "call-" lang →
      has_char "-" id = false →
      has_char "c" id = false →
      OGI2.speaker_id
        (String.append dir
           (String "/"
              (String.append lang
                 (String.append "call-"
                    (String.append id (String.append "-" rest))))))
        = inr id).
Proof.
  assert (∀ path,
    (∃ id, OGI2.speaker_id path = inr id)
    ∨ OGI2.speaker_id path = inl IndexError) as Hcases.
  { intros path. unfold OGI2.speaker_id.
    destruct (index (Split.split (Str.basename path) "call-") 1)
      as [e|after_call] eqn:Hafter.
    - right. unfold index in Hafter. destruct (_ !! 1); [done|].
      by injection Hafter as <-.
    - left. unfold index.
      destruct (split_nonempty after_call "-") as (first & parts & ->); [done|].
      by exists first. }
  split; [|split].
  - intros path.
    rewrite <- (go_second_iff_occurs "call-" ltac:(done) (Str.basename path) "").
    fold (Split.split (Str.basename path) "call-").
    unfold OGI2.speaker_id, index.
    destruct (Split.split (Str.basename path) "call-") as [|p0 [|p1 parts]];
      simpl.
    + split; [lia | done].
    + split; [lia | done].
    + destruct (split_nonempty p1 "-") as (first & rest' & ->); [done|].
      simpl. split; [done | lia].
  - intros path e He.
    destruct (Hcases path) as [[id Hid]|Herr]; congruence.
  - intros dir lang id rest Hlang Hid Hrest Hnone Hdash Hc.
    unfold OGI2.speaker_id. rewrite basename_join.
    2:{ rewrite !contains_sep_append, Hlang, Hid, Hrest. reflexivity. }
    unfold Split.split at 1.
    rewrite go_first; [|done|by intros a1 a2 Hcut Hne; eapply no_straddle].
    rewrite append_nil_l.
    destruct (go_hd "call-" (String.append id (String.append "-" rest)) 0 "")
      as (u & parts & Hparts).
    assert (∃ t, u = String.append id (String "-" t)) as [t ->].
    { clear -Hparts Hc Hdash.
      assert (∀ a s cur, has_char "c" a = false →
        Split.go "call-" (String.append a s) 0 cur
          = Split.go "call-" s 0 (String.append cur a)) as Hpass.
      { clear. intros a. induction a as [|c a IH]; intros s cur Ha.
        - by rewrite append_nil_l, append_nil_r.
        - simpl in Ha. apply orb_false_iff in Ha as [Hc Ha].
          rewrite append_cons. simpl.
          assert (Str.startswith (String c (String.append a s)) "call-" = false)
            as ->.
          { unfold Str.startswith. rewrite prefix_cons.
            destruct (ascii_dec "c" c) as [<-|]; [|done].
            by rewrite Ascii.eqb_refl in Hc. }
          rewrite IH by done. by rewrite snoc_append. }
      rewrite Hpass in Hparts by done. rewrite append_nil_l in Hparts.
      change (String.append "-" rest) with (String "-" rest) in Hparts.
      simpl in Hparts.
      change (Str.startswith (String "-" rest) "call-") with false in Hparts.
      simpl in Hparts.
      destruct (go_hd "call-" rest 0 (Split.snoc id "-"))
        as (t & parts' & Hrest).
      rewrite Hrest in Hparts. injection Hparts as Hu _.
      exists t. rewrite append_nil_l in Hu. rewrite <- Hu.
      by rewrite snoc_append. }
    rewrite Hparts, append_nil_l. unfold index at 1. simpl.
    unfold Split.split.
    change (String "-" t) with (String.append "-" t).
    rewrite go_first; [by rewrite append_nil_l|done|].
    intros a1 a2 Hcut Hne. eapply (no_straddle "-" ""); [done| |done..].
    intros (x & y & Hocc). rewrite Hocc, !has_char_append in Hdash.
    simpl in Hdash. by rewrite orb_true_r in Hdash.
Qed.

Lemma substring_prefix (a b : string) :
  String.substring 0 (String.length a) (String.append a b) = a.
Proof.
  induction a as [|c a IH]; [by destruct b|].
  rewrite append_cons. simpl. by rewrite IH.
Qed.

(** X6: [OGIWalker.parse_speaker_id] never raises and looks at the file
    name only: for a file in any directory whose name begins with the five
    characters [speaker] (language code and call number) it returns
    [speaker]; its result is never longer than five characters. *)
Theorem ogi_speaker_id_is_name_prefix :
  (∀ dir speaker rest,
      String.length speaker = 5 →
      Str.contains_sep speaker = false →
      Str.contains_sep rest = false →
      OGI.speaker_id (String.append dir (String "/" (String.append speaker rest)))
        = inr speaker) ∧
  (∀ path, ∃ speaker,
      OGI.speaker_id path = inr speaker ∧ (String.length speaker ≤ 5)%nat).
Proof.
  split.
  - intros dir speaker rest Hlen Hspeaker Hrest. unfold OGI.speaker_id.
    rewrite basename_join by by rewrite contains_sep_append, Hspeaker, Hrest.
    unfold Str.take. by rewrite <- Hlen, substring_prefix.
  - intros path. eexists. split; [reflexivity|]. unfold Str.take.
    generalize (Str.basename path). generalize 5. clear.
    intros n s. revert n. induction s as [|c s IH]; intros [|n]; simpl; try lia.
    specialize (IH n). lia.
Qed.

(** ** [VarDial2017Walker] *)

(** X7: [VarDial2017Walker] can only be built on a dataset root: without
    [dataset_root] its constructor always raises ([AssertionError] from
    the base class, or [TypeError] from [join_root] when paths, labels and
    checksums were given instead); with a root and nothing else it
    succeeds, and each of its five labels gets the one sample directory
    [root/wav/<label>] and no sample files. *)
Theorem vardial_needs_dataset_root :
  (∀ paths labels checksums sample_frequency,
      VarDial.new None paths labels checksums sample_frequency
        = inl AssertionError
      ∨ VarDial.new None paths labels checksums sample_frequency
        = inl TypeError) ∧
  (∀ root sample_frequency,
      ∃ self,
        VarDial.new (Some root) None None None sample_frequency = inr self ∧
        dataset_root self = Some root ∧
        dom (label_definitions self)
          = list_to_set (map fst VarDial.dialects) ∧
        ∀ label definition,
          label_definitions self !! label = Some definition →
          sample_dirs definition = Some [Str.join root ["wav"; label]] ∧
          sample_files definition = None).
Proof.
  split.
  - intros paths labels checksums sample_frequency. unfold VarDial.new, init.
    destruct (truthy paths && truthy labels && truthy checksums);
      [by right | by left].
  - intros root sample_frequency. eexists. split; [reflexivity|].
    split; [reflexivity|]. split.
    + simpl. rewrite !dom_insert_L, dom_empty_L. reflexivity.
    + intros label definition. simpl.
      rewrite !lookup_insert. repeat case_decide; subst;
        intros [= <-]; done.
Qed.

(** ** [overwrite_target_paths] *)

Lemma set_targets_spec items :
  ∀ defs defs',
    set_targets defs items = inr defs' →
    dom defs' = dom defs ∧
    Forall (λ item, item.1.1 ∈ dom defs) items ∧
    ∀ label d,
      defs !! label = Some d →
      ∃ d', defs' !! label = Some d' ∧
        name d' = name d ∧ sample_dirs d' = sample_dirs d ∧
        (∀ files, sample_files d = Some files →
           sample_files d' = Some (files ++ paths_of label items)) ∧
        (∀ sums, sample_file_checksums d = Some sums →
           sample_file_checksums d' = Some (sums ++ checksums_of label items)).
Proof.
  induction items as [|[[label0 path] checksum] rest IH]; intros defs defs' Hset.
  - injection Hset as <-. split; [done|]. split; [constructor|].
    intros label d Hd. exists d. split; [done|]. split; [done|]. split; [done|].
    unfold paths_of, checksums_of. simpl.
    split; intros l ->; by rewrite app_nil_r.
  - simpl in Hset. destruct (defs !! label0) as [d0|] eqn:Hd0; [|done].
    destruct (IH _ _ Hset) as (Hdom & Hall & Hlookup).
    assert (dom (<[label0:=append_target path checksum d0]> defs) = dom defs)
      as Hdom0 by (apply dom_insert_lookup_L; by eexists).
    rewrite Hdom0 in Hdom, Hall.
    split; [done|]. split.
    { constructor; [|done]. simpl. apply elem_of_dom. by eexists. }
    intros label d Hd. unfold paths_of, checksums_of. simpl.
    destruct (String.eqb_spec label0 label) as [->|Hne].
    + rewrite Hd in Hd0. injection Hd0 as <-.
      destruct (Hlookup label (append_target path checksum d))
        as (d' & Hd' & Hname & Hdirs & Hfiles & Hsums);
        [by rewrite lookup_insert_eq|].
      exists d'. split; [done|]. split; [done|]. split; [done|]. split.
      * intros files Hf. rewrite (Hfiles (files ++ [path])).
        -- by rewrite <- app_assoc.
        -- simpl. by rewrite Hf.
      * intros sums Hs. rewrite (Hsums (sums ++ [checksum])).
        -- by rewrite <- app_assoc.
        -- simpl. by rewrite Hs.
    + apply Hlookup. by rewrite lookup_insert_ne.
Qed.

Lemma set_targets_fails items :
  ∀ defs e, set_targets defs items = inl e →
    e = KeyError ∧ ¬ Forall (λ item, item.1.1 ∈ dom defs) items.
Proof.
  induction items as [|[[label0 path] checksum] rest IH]; intros defs e Hset;
    [done|].
  simpl in Hset. destruct (defs !! label0) as [d0|] eqn:Hd0.
  - destruct (IH _ _ Hset) as [-> Hnot]. split; [done|].
    intros Hall. apply Hnot. apply Forall_cons in Hall as [_ Hall].
    by rewrite dom_insert_lookup_L by by eexists.
  - injection Hset as <-. split; [done|]. intros Hall.
    apply Forall_cons in Hall as [Hin _]. simpl in Hin.
    apply elem_of_dom in Hin as [d Hd]. congruence.
Qed.

(** X8: [overwrite_target_paths] succeeds exactly when every label it is
    given (up to the shortest of the three argument lists) has a label
    definition, and raises [KeyError] otherwise.  On success the labels
    and their names are unchanged, every label has no sample directories
    left, and its sample files (checksums) are exactly the paths
    (checksums) given for it, in the order given, whatever was there
    before. *)
Theorem overwrite_target_paths_sets_exactly (self : walker)
    (paths labels checksums : list string) :
  let items := zip3 labels paths checksums in
  let known := Forall (λ item, item.1.1 ∈ dom (label_definitions self)) items in
  (known →
     ∃ self',
       overwrite_target_paths self paths labels checksums = inr self' ∧
       dataset_root self' = dataset_root self ∧
       ignored_speaker_ids_by_label self' = ignored_speaker_ids_by_label self ∧
       ∀ label,
         label_definitions self' !! label =
           (λ d, {| name := name d;
                    sample_dirs := Some [];
                    sample_files := Some (paths_of label items);
                    sample_file_checksums := Some (checksums_of label items) |})
             <$> label_definitions self !! label) ∧
  (¬ known →
     overwrite_target_paths self paths labels checksums = inl KeyError).
Proof.
  intros items known. unfold overwrite_target_paths. fold items.
  destruct (set_targets (clear_targets <$> label_definitions self) items)
    as [e|defs'] eqn:Hset.
  - apply set_targets_fails in Hset as [-> Hnot]. rewrite dom_fmap_L in Hnot.
    split; [done|]. done.
  - apply set_targets_spec in Hset as (Hdom & Hall & Hlookup).
    rewrite dom_fmap_L in Hdom, Hall. split; [|done].
    intros _. eexists. split; [done|]. split; [done|]. split; [done|].
    intros label. simpl.
    destruct (label_definitions self !! label) as [d|] eqn:Hd; simpl.
    + destruct (Hlookup label (clear_targets d))
        as (d' & Hd' & Hname & Hdirs & Hfiles & Hsums);
        [by rewrite lookup_fmap, Hd|].
      rewrite Hd'. f_equal. destruct d' as [n' dirs' files' sums'].
      simpl in *. specialize (Hfiles [] eq_refl). specialize (Hsums [] eq_refl).
      simpl in *. by subst.
    + apply not_elem_of_dom. rewrite Hdom. by apply not_elem_of_dom.
Qed.

Lemma overwrite_target_paths_lookup self paths labels checksums self' :
  overwrite_target_paths self paths labels checksums = inr self' →
  ∀ label definition,
    label_definitions self' !! label = Some definition →
    sample_dirs definition = Some [] ∧
    sample_files definition
      = Some (paths_of label (zip3 labels paths checksums)).
Proof.
  unfold overwrite_target_paths.
  destruct (set_targets _ _) as [e|defs'] eqn:Hset; [done|].
  intros [= <-] label definition Hdef. simpl in Hdef.
  apply set_targets_spec in Hset as (Hdom & _ & Hlookup).
  assert (is_Some ((clear_targets <$> label_definitions self) !! label))
    as [d Hd].
  { apply elem_of_dom. rewrite <- Hdom. apply elem_of_dom. by eexists. }
  destruct (Hlookup label d Hd) as (d' & Hd' & _ & Hdirs & Hfiles & _).
  rewrite Hd' in Hdef. injection Hdef as <-.
  rewrite lookup_fmap in Hd.
  destruct (label_definitions self !! label) as [d0|]; [|done].
  injection Hd as <-. split; [done|]. by apply (Hfiles []).
Qed.

Lemma flat_map_ext_in {A B} (f g : A → list B) (l : list A) :
  (∀ x, x ∈ l → f x = g x) → flat_map f l = flat_map g l.
Proof.
  induction l as [|x l IH]; intros Hfg; [done|]. simpl.
  rewrite (Hfg x) by left. rewrite IH; [done|].
  intros y Hy. apply Hfg. by right.
Qed.

(** ** [parse_directory_tree] and the constructor of [OGIWalker] *)

Lemma parse_labels_total self root tree todo defs :
  dataset_root self = Some root →
  (Forall (λ item, item.1 ∈ dom tree) todo →
     ∃ defs', parse_labels self tree todo defs = inr defs') ∧
  (¬ Forall (λ item, item.1 ∈ dom tree) todo →
     parse_labels self tree todo defs = inl KeyError).
Proof.
  intros Hroot. revert defs.
  induction todo as [|[label0 d0] rest IH]; intros defs.
  - split; [by eexists|]. intros Hnot. destruct Hnot. constructor.
  - simpl. destruct (tree !! label0) as [entries|] eqn:Htree.
    + rewrite (join_all_rooted self root) by done.
      destruct (IH (<[label0:=with_sample_dirs (map (Str.join root) entries) d0]>
                      defs)) as [Hyes Hno].
      split.
      * intros Hall. apply Forall_cons in Hall as [_ Hall]. by apply Hyes.
      * intros Hnot. apply Hno. intros Hall. apply Hnot.
        constructor; [|done]. simpl. apply elem_of_dom. by eexists.
    + split; [|done]. intros Hall. apply Forall_cons in Hall as [Hin _].
      simpl in Hin. apply elem_of_dom in Hin as [x Hx]. congruence.
Qed.

Lemma parse_directory_tree_lookup cls self self' tree root :
  dataset_tree cls = Some tree →
  dataset_root self = Some root →
  parse_directory_tree cls self = inr self' →
  dataset_root self' = Some root ∧
  sample_frequency self' = sample_frequency self ∧
  ignored_speaker_ids_by_label self' = ignored_speaker_ids_by_label self ∧
  ∀ label,
    label_definitions self' !! label =
      (λ d, with_sample_dirs
              (map (Str.join root) (default [] (tree !! label))) d)
        <$> label_definitions self !! label.
Proof.
  intros Htree Hroot. unfold parse_directory_tree.
  destruct (map_to_list (label_definitions self)) as [|item todo] eqn:Hlist.
  - intros [= <-]. split; [done|]. split; [done|]. split; [done|].
    intros label. apply map_to_list_empty_iff in Hlist.
    by rewrite Hlist, lookup_empty.
  - rewrite Htree.
    destruct (parse_labels self tree (item :: todo) (label_definitions self))
      as [e|defs] eqn:Hparse; [done|].
    intros [= <-]. split; [done|]. split; [done|]. split; [done|].
    simpl. intros label. rewrite <- Hlist in Hparse.
    destruct (parse_labels_spec self root tree _ _ _ Hroot
                (NoDup_fst_map_to_list _) Hparse label) as [Hin Hout].
    destruct (label_definitions self !! label) as [d|] eqn:Hd; simpl.
    + destruct (Hin d) as (entries & Hentries & Hdefs).
      { by apply elem_of_map_to_list. }
      by rewrite Hdefs, Hentries.
    + rewrite Hout; [done|].
      intros Hk. apply list_elem_of_fmap in Hk as ([label' d] & -> & Hk).
      apply elem_of_map_to_list in Hk. simpl in Hd. congruence.
Qed.

Lemma parse_directory_tree_total cls self tree root :
  dataset_tree cls = Some tree →
  dataset_root self = Some root →
  (dom (label_definitions self) ⊆ dom tree →
     ∃ self', parse_directory_tree cls self = inr self') ∧
  (¬ dom (label_definitions self) ⊆ dom tree →
     parse_directory_tree cls self = inl KeyError).
Proof.
  intros Htree Hroot. unfold parse_directory_tree.
  assert (Forall (λ item : string * label_def, item.1 ∈ dom tree)
            (map_to_list (label_definitions self))
          ↔ dom (label_definitions self) ⊆ dom tree) as Hiff.
  { rewrite Forall_forall. split.
    - intros Hall label Hlabel. apply elem_of_dom in Hlabel as [d Hd].
      apply (Hall (label, d)). by apply elem_of_map_to_list.
    - intros Hsub [label d] Hin. apply elem_of_map_to_list in Hin.
      apply Hsub, elem_of_dom. by eexists. }
  destruct (map_to_list (label_definitions self)) as [|item todo] eqn:Hlist.
  - split; [by eexists|]. intros Hnot. destruct Hnot. apply Hiff. constructor.
  - rewrite Htree.
    destruct (parse_labels_total self root tree (item :: todo)
                (label_definitions self) Hroot) as [Hyes Hno].
    split.
    + intros Hsub. destruct (Hyes (proj2 Hiff Hsub)) as [defs' ->]. by eexists.
    + intros Hnot. rewrite Hno; [done|]. intros Hall. by apply Hnot, Hiff.
Qed.

Lemma walker_eq (a b : walker) :
  dataset_root a = dataset_root b →
  sample_frequency a = sample_frequency b →
  label_definitions a = label_definitions b →
  ignored_speaker_ids_by_label a = ignored_speaker_ids_by_label b →
  a = b.
Proof. destruct a, b. simpl. by intros -> -> -> ->. Qed.

(** X10: for a class with a [dataset_tree] and a walker with a root,
    [parse_directory_tree] succeeds exactly when the tree has an entry for
    every label (it raises [KeyError] otherwise).  On success it changes
    nothing but every label's sample directories, which become the
    label's tree entries joined onto the root; and doing it again changes
    nothing. *)
Theorem parse_directory_tree_sets_sample_dirs (cls : walker_class)
    (self : walker) (tree : gmap string (list (list string))) (root : string) :
  dataset_tree cls = Some tree →
  dataset_root self = Some root →
  (dom (label_definitions self) ⊆ dom tree →
     ∃ self',
       parse_directory_tree cls self = inr self' ∧
       dataset_root self' = Some root ∧
       (∀ label,
          label_definitions self' !! label =
            (λ d, with_sample_dirs
                    (map (Str.join root) (default [] (tree !! label))) d)
              <$> label_definitions self !! label) ∧
       parse_directory_tree cls self' = inr self') ∧
  (¬ dom (label_definitions self) ⊆ dom tree →
     parse_directory_tree cls self = inl KeyError).
Proof.
  intros Htree Hroot.
  destruct (parse_directory_tree_total cls self tree root Htree Hroot)
    as [Hyes Hno].
  split; [|done]. intros Hsub. destruct (Hyes Hsub) as [self' Hparse].
  destruct (parse_directory_tree_lookup cls self self' tree root
              Htree Hroot Hparse) as (Hroot' & Hfreq & Hign & Hlookup).
  exists self'. split; [done|]. split; [done|]. split; [done|].
  assert (dom (label_definitions self') = dom (label_definitions self)) as Hdom.
  { apply set_eq. intros label. rewrite !elem_of_dom, Hlookup.
    by rewrite fmap_is_Some. }
  destruct (parse_directory_tree_total cls self' tree root Htree Hroot')
    as [Hyes' _].
  destruct Hyes' as [self'' Hparse']; [by rewrite Hdom|].
  rewrite Hparse'. f_equal.
  destruct (parse_directory_tree_lookup cls self' self'' tree root
              Htree Hroot' Hparse') as (Hroot'' & Hfreq' & Hign' & Hlookup').
  apply walker_eq; [congruence..| |congruence].
  apply map_eq. intros label. rewrite Hlookup', Hlookup.
  by destruct (label_definitions self !! label).
Qed.

(** X11: [OGIWalker(dataset_root=root)] succeeds for every non-empty root:
    the walker has that root, the eleven OGI labels, and for each label
    the sample directories that [OGIWalker.dataset_tree] lists for it
    joined onto the root, for English [root/wav/english]. *)
Theorem ogi_walker_on_root (c : ascii) (rest : string)
    (sample_frequency : option Z) :
  let root := String c rest in
  ∃ self,
    OGI.new (Some root) None None None sample_frequency = inr self ∧
    dataset_root self = Some root ∧
    dom (label_definitions self) = dom OGI.labels ∧
    (∀ label definition,
       label_definitions self !! label = Some definition →
       ∃ entries, OGI.tree !! label = Some entries ∧
         sample_dirs definition = Some (map (Str.join root) entries) ∧
         sample_files definition = None) ∧
    ∃ english, label_definitions self !! "eng" = Some english ∧
      sample_dirs english = Some [Str.join root ["wav"; "english"]].
Proof.
  intros root. unfold OGI.new, init. simpl.
  set (base := with_label_definitions _ OGI.labels).
  destruct (parse_directory_tree_total OGI.class base OGI.tree root
              eq_refl eq_refl) as [Hyes _].
  destruct Hyes as [self Hparse].
  { apply (bool_decide_unpack _). vm_compute. exact I. }
  destruct (parse_directory_tree_lookup OGI.class base self OGI.tree root
              eq_refl eq_refl Hparse) as (Hroot & _ & _ & Hlookup).
  exists self. split; [done|]. split; [done|]. split; [|split].
  - apply set_eq. intros label. rewrite !elem_of_dom, Hlookup.
    by rewrite fmap_is_Some.
  - intros label definition Hdef. rewrite Hlookup in Hdef.
    change (label_definitions base) with OGI.labels in Hdef.
    destruct (OGI.labels !! label) as [d|] eqn:Hd; [|done].
    injection Hdef as <-.
    assert (is_Some (OGI.tree !! label)) as [entries Hentries].
    { apply elem_of_dom.
      assert (dom OGI.labels ⊆ dom OGI.tree) as Hsub
        by (apply (bool_decide_unpack _); vm_compute; exact I).
      apply Hsub, elem_of_dom. by eexists. }
    exists entries. rewrite Hentries. split; [done|]. split; [done|].
    simpl. assert (Forall (λ d, sample_files d = None)
                     (map snd (map_to_list OGI.labels))) as Hall
      by (apply (bool_decide_unpack _); vm_compute; exact I).
    rewrite Forall_forall in Hall. apply Hall.
    apply list_elem_of_fmap. exists (label, d).
    split; [done|]. by apply elem_of_map_to_list.
  - eexists. rewrite Hlookup. split; [reflexivity|]. reflexivity.
Qed.

(** ** The default iteration, exactly *)

Section Emits.

Variable sys : system.
Variable cls : walker_class.
Variable self : walker.

Lemma emits_ret : emits sys cls self [] (mret tt).
Proof.
  intros st. exists 0. unfold outcome, final, yields. simpl.
  split; [done|]. split; [done|]. split; [lia|done].
Qed.

Lemma emits_raise items (e : exn) : emits sys cls self items (raise e).
Proof.
  intros st. exists 0. unfold outcome, final, yields. simpl.
  split; [lia|]. split; [done|]. split; [lia|done].
Qed.

Lemma emits_seq items1 items2 (m k : gen unit) :
  emits sys cls self items1 m → emits sys cls self items2 k →
  emits sys cls self (items1 ++ items2) (m ≫= λ _, k).
Proof.
  intros Hm Hk st. rewrite run_bind.
  destruct (Hm st) as (k1 & Hle1 & Hall1 & Hn1 & Hy1).
  destruct (m st) as [[ys st1] [e|[]]]; unfold outcome, final, yields in *;
    simpl in *.
  - exists k1. rewrite length_app. split; [lia|]. split; [done|].
    split; [done|]. by rewrite take_app_le.
  - specialize (Hall1 eq_refl). subst k1. rewrite firstn_all in Hy1.
    destruct (Hk st1) as (k2 & Hle2 & Hall2 & Hn2 & Hy2).
    destruct (k st1) as [[ys' st2] r]; unfold outcome, final, yields in *;
      simpl in *.
    exists (length items1 + k2). rewrite length_app. split; [lia|].
    split; [intros Hr; rewrite (Hall2 Hr); lia|]. split; [lia|].
    by rewrite take_app_add, List.filter_app, map_app, Hy1, Hy2.
Qed.

Lemma emits_for_each {A} (items_of : A → list (string * string))
    (l : list A) (body : A → gen unit) :
  (∀ x, x ∈ l → emits sys cls self (items_of x) (body x)) →
  emits sys cls self (flat_map items_of l) (for_each l body).
Proof.
  induction l as [|x l IH]; intros Hbody; simpl.
  - apply emits_ret.
  - apply emits_seq; [apply Hbody; left|].
    apply IH. intros y Hy. apply Hbody. by right.
Qed.

Lemma emits_lift_bind {A} items (r : exn + A) (f : A → gen unit) :
  (∀ a, r = inr a → emits sys cls self items (f a)) →
  emits sys cls self items (lift r ≫= f).
Proof.
  intros Hf st. rewrite run_bind. unfold lift. destruct r as [e|a].
  - exists 0. unfold outcome, final, yields. simpl.
    split; [lia|]. split; [done|]. split; [lia|done].
  - destruct (Hf a eq_refl st) as (k & Hle & Hall & Hn & Hy).
    exists k. destruct (f a st) as [[ys st'] r]. done.
Qed.

Lemma emits_counted_examine label wavpath :
  emits sys cls self [(label, wavpath)]
    (count_walked ≫= λ _, examine sys cls self false false label wavpath).
Proof.
  intros st. exists 1. split; [done|]. split; [done|].
  rewrite run_bind. unfold count_walked. rewrite run_examine.
  unfold audiofile_ok, accepts, check_hash, outcome, final, yields. simpl.
  destruct (os_path_exists sys wavpath); simpl; [|split; [lia|done]].
  destruct (check_filters cls self wavpath label) as [e|[|]];
    simpl; (split; [lia|done]).
Qed.

Lemma emits_walk_tree label entries seen :
  emits sys cls self
    (map (pair label) (tree_paths (default "" (dataset_root self)) entries))
    (walk_tree sys cls self false false label entries seen).
Proof.
  revert seen.
  induction entries as [|[[parent dirs] files] rest IH]; intros seen.
  - apply emits_ret.
  - simpl. apply emits_lift_bind. intros this_dir Hjoin.
    unfold join_root in Hjoin.
    destruct (dataset_root self) as [root|] eqn:Hroot; [|done].
    case_bool_decide; [apply emits_raise|].
    unfold tree_paths. simpl. rewrite map_app. apply emits_seq; [|apply IH].
    rewrite map_map.
    rewrite <- (flat_map_singleton (λ f, (label, Str.join root [parent; f]))).
    apply emits_for_each. intros f _. unfold walk_file.
    intros st. rewrite run_bind. unfold count_walked, join_root.
    rewrite Hroot. rewrite run_bind. unfold lift.
    pose proof (emits_counted_examine label (Str.join root [parent; f]) st)
      as Hone.
    rewrite run_bind in Hone. unfold count_walked in Hone.
    destruct (examine _ _ _ _ _ _ _ _) as [[ys st'] r]. exact Hone.
Qed.

Lemma emits_walk_label followlinks label :
  emits sys cls self (labelled_paths sys self followlinks label)
    (walk_label sys cls self false false followlinks label).
Proof.
  unfold labelled_paths, label_paths, walk_label.
  destruct (label_definitions self !! label) as [definition|];
    [|apply emits_raise].
  rewrite map_app. apply emits_seq.
  - induction (default [] (sample_dirs definition)) as [|sample_dir dirs IH];
      [apply emits_ret|].
    simpl. rewrite map_app. apply emits_seq; [|apply IH].
    by apply emits_walk_tree.
  - rewrite <- (flat_map_singleton (pair label)).
    apply emits_for_each. intros wavpath _. apply emits_counted_examine.
Qed.

(** the triples a default walk yields, in terms of the files it examined *)
Lemma walk_emits followlinks :
  let r := walk sys cls self false false followlinks in
  yields r =
    map (triple_of sys)
      (List.filter (accepts sys cls self)
         (take (num_walked (final r)) (labelled_candidates sys self followlinks)))
  ∧ (outcome r = inr tt →
     num_walked (final r) = length (labelled_candidates sys self followlinks)).
Proof.
  assert (emits sys cls self (labelled_candidates sys self followlinks)
            (walk_body sys cls self false false followlinks)) as Hemits.
  { unfold labelled_candidates, walk_body. apply emits_for_each.
    intros label _. apply emits_walk_label. }
  destruct (Hemits closure0) as (k & Hle & Hall & Hn & Hy).
  fold (walk sys cls self false false followlinks) in *.
  simpl in Hn. simpl. rewrite Hn. split; [done|].
  intros Hr. by apply Hall.
Qed.

End Emits.


(** ** Walks that cannot fail *)

Lemma for_each_ends {A} (l : list A) (body : A → gen unit) :
  (∀ x st, x ∈ l → outcome (body x st) = inr tt) →
  ∀ st, outcome (for_each l body st) = inr tt.
Proof.
  induction l as [|x l IH]; intros Hbody st; [done|].
  rewrite run_for_each_cons, run_bind.
  pose proof (Hbody x st ltac:(left)) as Hx.
  destruct (body x st) as [[ys st1] [e|[]]]; [done|].
  pose proof (IH (λ y st' Hy, Hbody y st' ltac:(by right)) st1) as Hrest.
  by destruct (for_each l body st1) as [[ys' st2] r].
Qed.

Section Ends.

Variable sys : system.
Variable cls : walker_class.
Variable self : walker.
Variables check_duplicates check_read followlinks : bool.
Hypothesis Htotal : speaker_check_is_total cls self.

Lemma speaker_check_returns wavpath label :
  ∃ ignored, speaker_id_is_ignored cls self wavpath label = inr ignored.
Proof.
  unfold speaker_id_is_ignored.
  destruct Htotal as [Hempty|(parse & Hparse & Hall)].
  - rewrite Hempty, lookup_empty. by eexists.
  - destruct (ignored_speaker_ids_by_label self !! label); [|by eexists].
    rewrite Hparse. destruct (Hall wavpath) as [speaker_id ->]. by eexists.
Qed.

Lemma examine_ends label wavpath st :
  outcome (examine sys cls self check_duplicates check_read label wavpath st)
    = inr tt.
Proof.
  rewrite run_examine.
  assert (∃ ok, check_filters cls self wavpath label = inr ok) as [ok Hok].
  { unfold check_filters.
    destruct (speaker_check_returns wavpath label) as [[|] ->]; by eexists. }
  assert (∀ st0, ∃ ok', (check_hash sys cls self check_duplicates wavpath
                           label st0).2 = inr ok') as Hhash.
  { intros st0. unfold check_hash. rewrite Hok.
    destruct check_duplicates; [|by eexists].
    destruct (1 <? _)%nat; by eexists. }
  unfold audiofile_ok. destruct (os_path_exists sys wavpath); simpl; [|done].
  destruct check_read.
  - destruct (read_wavfile sys wavpath) as [[wav|] srate]; [|done].
    destruct (Hhash st) as [ok' Hok'].
    destruct (check_hash _ _ _ _ _ _ st) as [st' r]. simpl in Hok'. subst r.
    by destruct ok'.
  - destruct (Hhash st) as [ok' Hok'].
    destruct (check_hash _ _ _ _ _ _ st) as [st' r]. simpl in Hok'. subst r.
    by destruct ok'.
Qed.

Lemma walk_tree_ends root label entries seen st :
  dataset_root self = Some root →
  NoDup (map (λ entry, Str.join root [entry.1.1]) entries) →
  (∀ entry, entry ∈ entries → Str.join root [entry.1.1] ∉ seen) →
  outcome (walk_tree sys cls self check_duplicates check_read label
             entries seen st) = inr tt.
Proof.
  intros Hroot. revert seen st.
  induction entries as [|[[parent dirs] files] rest IH];
    intros seen st Hnodup Hseen; [done|].
  simpl. rewrite !run_bind. unfold join_root, lift. rewrite Hroot. simpl.
  apply NoDup_cons in Hnodup as [Hfirst Hnodup].
  rewrite bool_decide_eq_false_2 by (apply (Hseen (parent, dirs, files)); left).
  rewrite run_bind.
  assert (outcome (for_each files
            (walk_file sys cls self check_duplicates check_read label parent) st)
          = inr tt) as Hfiles.
  { apply for_each_ends. intros f st0 _. unfold walk_file.
    rewrite !run_bind. unfold count_walked, join_root, lift. rewrite Hroot.
    rewrite run_bind.
    pose proof (examine_ends label (Str.join root [parent; f])
      {| duplicates := duplicates st0; invalid_files := invalid_files st0;
         num_walked := S (num_walked st0) |}) as He.
    by destruct (examine _ _ _ _ _ _ _ _) as [[ys' st'] r]. }
  destruct (for_each files _ st) as [[ys0 st0] [e|[]]]; [done|].
  pose proof (IH ({[Str.join root [parent]]} ∪ seen) st0 Hnodup) as Hrest.
  destruct (walk_tree _ _ _ _ _ _ rest _ st0) as [[ys1 st1] r].
  apply Hrest. intros entry Hin Hs.
  apply elem_of_union in Hs as [Hs|Hs].
  - apply elem_of_singleton in Hs. apply Hfirst. simpl. rewrite <- Hs.
    apply list_elem_of_fmap. by exists entry.
  - apply (Hseen entry); [by right|done].
Qed.

Lemma walk_sample_file_ends label wavpath st :
  outcome (walk_sample_file sys cls self check_duplicates check_read
             label wavpath st) = inr tt.
Proof.
  unfold walk_sample_file. rewrite run_bind. unfold count_walked.
  pose proof (examine_ends label wavpath
    {| duplicates := duplicates st; invalid_files := invalid_files st;
       num_walked := S (num_walked st) |}) as He.
  by destruct (examine _ _ _ _ _ _ _ _) as [[ys' st'] r].
Qed.

End Ends.

Lemma walk_ends (sys : system) (fs : filesystem) (depth : nat)
    (cls : walker_class) (self : walker) (root : string)
    (check_duplicates check_read followlinks : bool) :
  well_listed fs →
  (∀ top links, os_walk sys top links = os_walk_from fs depth top links) →
  dataset_root self = Some root →
  speaker_check_is_total cls self →
  let r := walk sys cls self check_duplicates check_read followlinks in
  outcome r = inr tt ∧
  take (num_walked (final r)) (candidates sys self followlinks)
    = candidates sys self followlinks.
Proof.
  intros Hfs Hwalk Hroot Htotal r.
  assert (outcome r = inr tt) as Hend.
  { unfold r, walk, walk_body. apply for_each_ends. intros label st Hlabel.
    unfold walk_label.
    destruct (label_definitions self !! label) as [definition|] eqn:Hdef.
    2:{ apply elem_of_sorted, elem_of_elements, elem_of_dom in Hlabel as [d Hd].
        congruence. }
    rewrite run_bind.
    assert (outcome (for_each (default [] (sample_dirs definition))
              (walk_sample_dir sys cls self check_duplicates check_read
                 followlinks label) st) = inr tt) as Hdirs.
    { apply for_each_ends. intros sample_dir st0 _. unfold walk_sample_dir.
      rewrite Hwalk. apply (walk_tree_ends sys cls self _ _ Htotal root);
        [done| |].
      - by apply this_dirs_NoDup.
      - intros entry _. apply not_elem_of_empty. }
    destruct (for_each (default [] (sample_dirs definition)) _ st)
      as [[ys0 st0] [e|[]]]; [done|].
    assert (outcome (for_each (default [] (sample_files definition))
              (walk_sample_file sys cls self check_duplicates check_read label)
              st0) = inr tt) as Hfiles.
    { apply for_each_ends. intros wavpath st1 _.
      by apply walk_sample_file_ends. }
    by destruct (for_each (default [] (sample_files definition)) _ st0)
      as [[ys1 st1] r']. }
  split; [done|].
  by apply (walk_logged sys cls self check_duplicates check_read followlinks).
Qed.

(** X13: a walk over what [os.walk] reports, by a walker with a dataset
    root, ends normally, without any exception, when the speaker check
    cannot raise (no speaker filter is set, or the class parses every
    path); it then has examined every candidate. *)
Theorem walk_ends_normally (sys : system) (fs : filesystem) (depth : nat)
    (cls : walker_class) (self : walker) (root : string)
    (check_duplicates check_read followlinks : bool) :
  well_listed fs →
  (∀ top links, os_walk sys top links = os_walk_from fs depth top links) →
  dataset_root self = Some root →
  speaker_check_is_total cls self →
  let r := walk sys cls self check_duplicates check_read followlinks in
  outcome r = inr tt ∧
  take (num_walked (final r)) (candidates sys self followlinks)
    = candidates sys self followlinks.
Proof.
  intros Hfs Hwalk Hroot Htotal.
  by apply (walk_ends sys fs depth cls self root).
Qed.

(** ** Walks over given paths *)

(** a walk examines at most the candidates, and all of them when it ends
    normally *)
Lemma walk_examined_count sys cls self check_duplicates check_read followlinks :
  let r := walk sys cls self check_duplicates check_read followlinks in
  (num_walked (final r) ≤ length (candidates sys self followlinks))%nat ∧
  (outcome r = inr tt →
   num_walked (final r) = length (candidates sys self followlinks)).
Proof.
  assert (tracks sys check_duplicates check_read
            (candidates sys self followlinks)
            (walk_body sys cls self check_duplicates check_read followlinks))
    as Htracks.
  { unfold candidates, walk_body. apply tracks_for_each.
    intros label _. apply tracks_walk_label. }
  destruct (Htracks closure0) as (k & Hle & Hall & Hn & _).
  fold (walk sys cls self check_duplicates check_read followlinks) in *.
  simpl. rewrite length_take in Hn. simpl in Hn.
  split; [lia|]. intros Hr. specialize (Hall Hr). lia.
Qed.

(** a walk over sample files only ends normally when the speaker check
    cannot raise *)
Lemma walk_of_files_ends sys cls self check_duplicates check_read followlinks :
  (∀ label d, label_definitions self !! label = Some d →
              default [] (sample_dirs d) = []) →
  speaker_check_is_total cls self →
  outcome (walk sys cls self check_duplicates check_read followlinks) = inr tt.
Proof.
  intros Hdirs Htotal. unfold walk, walk_body.
  apply for_each_ends. intros label st Hlabel. unfold walk_label.
  destruct (label_definitions self !! label) as [definition|] eqn:Hdef.
  2:{ apply elem_of_sorted, elem_of_elements, elem_of_dom in Hlabel as [d Hd].
      congruence. }
  rewrite (Hdirs label definition Hdef), run_bind. simpl.
  assert (outcome (for_each (default [] (sample_files definition))
            (walk_sample_file sys cls self check_duplicates check_read label)
            st) = inr tt) as Hfiles.
  { apply for_each_ends. intros wavpath st1 _.
    by apply walk_sample_file_ends. }
  by destruct (for_each (default [] (sample_files definition)) _ st)
    as [[ys1 st1] r'].
Qed.

Lemma map_snd_labelled (f : string → list string) (labels : list string) :
  map snd (flat_map (λ label, map (pair label) (f label)) labels)
  = flat_map f labels.
Proof.
  induction labels as [|label labels IH]; [done|].
  simpl. rewrite map_app, IH. f_equal.
  rewrite map_map. simpl. apply map_id.
Qed.

(** X9: after [overwrite_target_paths] a walk examines the given paths and
    nothing else, whatever [os.walk] would find: label by label in sorted
    order, each label's paths in the order given.  It examines a prefix
    of them, and all of them, ending normally, when the speaker check
    cannot raise; the files it records as invalid are those of the
    examined paths that exist and cannot be read; without the two checks
    it yields exactly the examined paths that exist and pass the filters;
    and every triple it yields pairs a given path with the label given for
    it. *)
Theorem walk_after_overwrite_examines_given_paths (sys : system)
    (cls : walker_class) (self self' : walker)
    (paths labels checksums : list string)
    (check_duplicates check_read followlinks : bool) :
  overwrite_target_paths self paths labels checksums = inr self' →
  let items := zip3 labels paths checksums in
  let given :=
    flat_map (λ label, map (pair label) (paths_of label items))
      (Str.sorted (elements (dom (label_definitions self')))) in
  let r := walk sys cls self' check_duplicates check_read followlinks in
  let examined := take (num_walked (final r)) given in
  (num_walked (final r) ≤ length given)%nat ∧
  (speaker_check_is_total cls self' →
   outcome r = inr tt ∧ num_walked (final r) = length given) ∧
  invalid_files (final r)
    = List.filter (unreadable sys check_read) (map snd examined) ∧
  (check_duplicates = false → check_read = false →
   yields r
     = map (triple_of sys) (List.filter (accepts sys cls self') examined)) ∧
  Forall (λ t, ∃ checksum, (t_label t, t_path t, checksum) ∈ items) (yields r).
Proof.
  intros Hover items given r examined.
  pose proof (overwrite_target_paths_lookup _ _ _ _ _ Hover) as Hlookup.
  assert (labelled_candidates sys self' followlinks = given) as Hgiven.
  { unfold labelled_candidates, given. apply flat_map_ext_in.
    intros label Hlabel.
    apply elem_of_sorted, elem_of_elements, elem_of_dom in Hlabel as [d Hd].
    unfold labelled_paths, label_paths. rewrite Hd.
    destruct (Hlookup label d Hd) as [-> ->]. done. }
  assert (candidates sys self' followlinks = map snd given) as Hcandidates.
  { rewrite <- Hgiven. unfold labelled_candidates, labelled_paths, candidates.
    symmetry. apply map_snd_labelled. }
  assert (length (candidates sys self' followlinks) = length given) as Hlength.
  { by rewrite Hcandidates, length_map. }
  destruct (walk_examined_count sys cls self' check_duplicates check_read
              followlinks) as [Hle Hall].
  fold r in Hle, Hall. rewrite Hlength in Hle, Hall.
  split; [done|]. split; [|split; [|split]].
  - intros Htotal.
    assert (outcome r = inr tt) as Hend.
    { apply walk_of_files_ends; [|done]. intros label d Hd.
      by destruct (Hlookup label d Hd) as [-> _]. }
    split; [done | by apply Hall].
  - destruct (walk_logged sys cls self' check_duplicates check_read followlinks)
      as (_ & Hinvalid & _).
    fold r in Hinvalid. rewrite Hinvalid, Hcandidates.
    unfold examined. f_equal. apply firstn_map.
  - intros -> ->.
    destruct (walk_emits sys cls self' followlinks) as [Hy _].
    fold r in Hy. by rewrite Hy, Hgiven.
  - apply walk_yields_sat.
    intros label wavpath st st' (d & Hd & Hfrom) _.
    destruct (Hlookup label d Hd) as [Hdirs Hfiles].
    destruct Hfrom as [(sample_dir & parent & dirs & files & f & Hdir & _)|Hfile].
    + rewrite Hdirs in Hdir. by apply elem_of_nil in Hdir.
    + rewrite Hfiles in Hfile. simpl in Hfile. unfold paths_of in Hfile.
      apply list_elem_of_fmap in Hfile as ([[l p] c] & -> & Hin).
      apply list_elem_of_In, filter_In in Hin as [Hin Heq].
      apply String.eqb_eq in Heq. simpl in Heq. subst l.
      exists c. by apply list_elem_of_In.
Qed.

(** ** The order of the yielded triples *)

Section YieldOrder.

Variable sys : system.
Variable cls : walker_class.
Variable self : walker.
Variables check_duplicates check_read followlinks : bool.

Lemma walk_label_yields_label label :
  respects (λ _ ys _, Forall (λ t, t_label t = label) ys)
    (walk_label sys cls self check_duplicates check_read followlinks label).
Proof.
  set (R := λ (_ : closure) (ys : list triple) (_ : closure),
              Forall (λ t, t_label t = label) ys).
  assert (∀ st, R st [] st) as Hskip by (intros st; constructor).
  assert (∀ st ys st1 ys' st2, R st ys st1 → R st1 ys' st2 → R st (ys ++ ys') st2)
    as Hseq by (intros st ys st1 ys' st2 H1 H2; by apply Forall_app).
  assert (∀ wavpath,
            respects R (examine sys cls self check_duplicates check_read
                          label wavpath)) as Hexamine.
  { intros wavpath st. rewrite run_examine.
    destruct (audiofile_ok _ _ _ _ _ _ _ _) as [st' [e|[|]]]; unfold R;
      simpl; [constructor| |constructor].
    by apply Forall_singleton. }
  assert (respects R count_walked) as Hcount by (intros st; constructor).
  unfold walk_label.
  destruct (label_definitions self !! label) as [definition|];
    [|by apply respects_raise].
  apply respects_bind; [done| |].
  - apply respects_for_each; [done..|]. intros sample_dir _.
    unfold walk_sample_dir. generalize (∅ : gset string).
    induction (os_walk sys sample_dir followlinks)
      as [|[[parent dirs] files] rest IH]; intros seen.
    + by apply respects_ret.
    + simpl. apply respects_bind; [done | by apply respects_lift |].
      intros this_dir. case_bool_decide; [by apply respects_raise|].
      apply respects_bind; [done| |intros _; apply IH].
      apply respects_for_each; [done..|]. intros f _. unfold walk_file.
      apply respects_bind; [done..|]. intros _.
      apply respects_lift_bind; [done..|]. intros wavpath _. apply Hexamine.
  - intros _. apply respects_for_each; [done..|]. intros wavpath _.
    unfold walk_sample_file. apply respects_bind; [done..|]. intros _.
    apply Hexamine.
Qed.

Lemma for_each_yields_sorted (l : list string) (body : string → gen unit) :
  StronglySorted Str.le l →
  (∀ x st, Forall (λ t, t_label t = x) (yields (body x st))) →
  ∀ st, StronglySorted Str.le (map t_label (yields (for_each l body st))) ∧
        Forall (λ t, t_label t ∈ l) (yields (for_each l body st)).
Proof.
  intros Hsorted Hbody. induction Hsorted as [|x l Hl IH Hx]; intros st.
  - split; constructor.
  - rewrite run_for_each_cons, run_bind. specialize (Hbody x st) as Hhere.
    assert (StronglySorted Str.le (map t_label (yields (body x st))))
      as Hsame.
    { induction Hhere as [|t ys Ht Hys IHys]; [constructor|].
      simpl. constructor; [done|]. rewrite Forall_fmap.
      eapply Forall_impl; [exact Hys|]. intros t' Ht'. simpl.
      rewrite Ht, Ht'. apply str_le_refl. }
    assert (Forall (λ t, t_label t ∈ x :: l) (yields (body x st))) as Hin.
    { eapply Forall_impl; [exact Hhere|]. intros t ->. left. }
    destruct (body x st) as [[ys st1] [e|[]]]; [done|].
    destruct (IH st1) as [Hrest Hmem].
    destruct (for_each l body st1) as [[ys' st2] r].
    unfold yields in *. simpl in *. split.
    + rewrite map_app. apply StronglySorted_app. split; [|done].
      intros a b Ha Hb.
      apply list_elem_of_fmap in Ha as (ta & -> & Hta).
      apply list_elem_of_fmap in Hb as (tb & -> & Htb).
      rewrite Forall_forall in Hhere. rewrite Forall_forall in Hmem.
      rewrite Forall_forall in Hx.
      rewrite (Hhere ta Hta). apply Hx, Hmem, Htb.
    + apply Forall_app. split; [done|].
      eapply Forall_impl; [exact Hmem|]. intros t Ht. by right.
Qed.

End YieldOrder.

(** X14: whatever the flags and however the walk ends, the labels of the
    yielded triples are in ascending order (so the triples come grouped by
    label) and are labels of [label_definitions]. *)
Theorem walk_yields_in_label_order (sys : system) (cls : walker_class)
    (self : walker) (check_duplicates check_read followlinks : bool) :
  let ys := yields (walk sys cls self check_duplicates check_read followlinks) in
  StronglySorted Str.le (map t_label ys) ∧
  Forall (λ t, t_label t ∈ dom (label_definitions self)) ys.
Proof.
  intros ys.
  destruct (for_each_yields_sorted
              (Str.sorted (elements (dom (label_definitions self))))
              (walk_label sys cls self check_duplicates check_read followlinks)
              ltac:(apply StronglySorted_merge_sort; apply _)
              (walk_label_yields_label sys cls self check_duplicates
                 check_read followlinks)
              closure0) as [Hsorted Hmem].
  split; [exact Hsorted|].
  eapply Forall_impl; [exact Hmem|]. intros t Ht.
  by apply elem_of_sorted, elem_of_elements in Ht.
Qed.

(** ** Restricting a walker to its own speakers *)

Lemma speakers_of_elem parse ys label s :
  s ∈ speakers_of parse ys label ↔
  ∃ t, t ∈ ys ∧ t_label t = label ∧ parse (t_path t) = inr s.
Proof.
  induction ys as [|t ys IH]; simpl.
  - split; [by intros ?%not_elem_of_empty|]. intros (t & Ht & _).
    by apply elem_of_nil in Ht.
  - rewrite elem_of_union, IH. split.
    + intros [Hhere|(t' & Ht' & Hl & Hp)].
      * destruct (String.eqb_spec (t_label t) label) as [Hl|];
          [|by apply not_elem_of_empty in Hhere].
        destruct (parse (t_path t)) as [e|s'] eqn:Hp;
          [by apply not_elem_of_empty in Hhere|].
        apply elem_of_singleton in Hhere as ->. exists t.
        split; [left|done].
      * exists t'. split; [by right|done].
    + intros (t' & Ht' & Hl & Hp). apply elem_of_cons in Ht' as [->|Ht'].
      * left. rewrite Hl, String.eqb_refl, Hp. by apply elem_of_singleton.
      * right. by exists t'.
Qed.

Lemma labelled_candidate_label sys self followlinks item :
  item ∈ labelled_candidates sys self followlinks →
  item.1 ∈ dom (label_definitions self).
Proof.
  unfold labelled_candidates, labelled_paths. intros Hin.
  apply list_elem_of_In, in_flat_map in Hin as (label & Hlabel & Hitem).
  apply list_elem_of_In in Hlabel, Hitem.
  apply list_elem_of_fmap in Hitem as (p & -> & _). simpl.
  by apply elem_of_sorted, elem_of_elements in Hlabel.
Qed.

(** the lists that [speaker_ids_by_label] returns hold the speakers of the
    yielded triples *)
Lemma speaker_ids_lookup sys cls self parse ids :
  parse_speaker_id cls = Some parse →
  (∀ p, ∃ speaker_id, parse p = inr speaker_id) →
  speaker_ids_by_label sys cls self = inr ids →
  ∀ label, label ∈ dom (label_definitions self) →
    ∃ l, ids !! label = Some l ∧
      ∀ s, s ∈ l ↔ s ∈ speakers_of parse (yields (iter sys cls self)) label.
Proof.
  intros Hparse Htotal Hids label Hlabel.
  destruct (count_loop_spec cls parse (yields (iter sys cls self))
              ((λ _, ∅ : gmap string nat) <$> label_definitions self) Hparse)
    as (c' & Hloop & Hdom & Hcounts).
  { intros t Ht. split; [|apply Htotal].
    rewrite dom_fmap_L. revert t Ht. apply Forall_forall.
    apply walk_yields_sat. intros l wavpath st st' (d & Hd & _) _.
    apply elem_of_dom. by eexists. }
  rewrite dom_fmap_L in Hdom.
  unfold speaker_ids_by_label, count_files_per_speaker_by_label in Hids.
  rewrite Hloop in Hids.
  destruct (outcome (iter sys cls self)) as [e|[]]; [done|].
  injection Hids as <-. rewrite <- Hdom in Hlabel.
  apply elem_of_dom in Hlabel as [counter' Hc'].
  destruct (Hcounts label counter' Hc') as (counter & Hc & Hdomc).
  rewrite lookup_fmap in Hc.
  destruct (label_definitions self !! label); [|done].
  injection Hc as <-. rewrite dom_empty_L, union_empty_l_L in Hdomc.
  rewrite lookup_fmap, Hc'. simpl. eexists. split; [done|].
  intros s. by rewrite elem_of_sorted, elem_of_elements, Hdomc.
Qed.

Lemma filter_ext_in {A} (f g : A → bool) (l : list A) :
  (∀ x, x ∈ l → f x = g x) → List.filter f l = List.filter g l.
Proof.
  induction l as [|x l IH]; intros Hfg; [done|]. simpl.
  rewrite (Hfg x) by left. rewrite IH; [done|].
  intros y Hy. apply Hfg. by right.
Qed.

(** X15: restricting a walker to the speakers it yields changes nothing:
    when [speaker_ids_by_label] returns [ids] (for a class that parses
    every path, on a walker with a root), the default iteration after
    [set_speaker_filter(ids)] yields the same triples as before. *)
Theorem speaker_filter_of_own_speakers (sys : system) (fs : filesystem)
    (depth : nat) (cls : walker_class) (self : walker) (root : string)
    (parse : string → exn + string) (ids : gmap string (list string)) :
  well_listed fs →
  (∀ top links, os_walk sys top links = os_walk_from fs depth top links) →
  dataset_root self = Some root →
  parse_speaker_id cls = Some parse →
  (∀ p, ∃ speaker_id, parse p = inr speaker_id) →
  speaker_ids_by_label sys cls self = inr ids →
  yields (iter sys cls (set_speaker_filter self ids)) = yields (iter sys cls self)
  ∧ outcome (iter sys cls (set_speaker_filter self ids)) = inr tt.
Proof.
  intros Hfs Hwalk Hroot Hparse Htotal Hids.
  set (self' := set_speaker_filter self ids).
  assert (speaker_check_is_total cls self) as Ht by (right; by exists parse).
  assert (speaker_check_is_total cls self') as Ht' by (right; by exists parse).
  destruct (walk_ends sys fs depth cls self root false false true
              Hfs Hwalk Hroot Ht) as [Hend _].
  destruct (walk_ends sys fs depth cls self' root false false true
              Hfs Hwalk Hroot Ht') as [Hend' _].
  split; [|exact Hend'].
  destruct (walk_emits sys cls self true) as [Hy Hall].
  destruct (walk_emits sys cls self' true) as [Hy' Hall'].
  fold (iter sys cls self) in *. fold (iter sys cls self') in *.
  rewrite (Hall Hend), firstn_all in Hy.
  rewrite (Hall' Hend'), firstn_all in Hy'.
  change (labelled_candidates sys self' true)
    with (labelled_candidates sys self true) in Hy'.
  rewrite Hy', Hy at 1. f_equal. apply filter_ext_in.
  intros [label p] Hitem.
  apply labelled_candidate_label in Hitem as Hlabel. simpl in Hlabel.
  destruct (speaker_ids_lookup sys cls self parse ids Hparse Htotal Hids
              label Hlabel) as (l & Hl & Hmem).
  destruct (Htotal p) as [s Hs].
  assert (speaker_id_is_ignored cls self' p label
          = inr (negb (bool_decide (s ∈ l)))) as Hign'.
  { unfold speaker_id_is_ignored, self'. simpl.
    rewrite lookup_fmap, Hl, Hparse, Hs. simpl. do 2 f_equal.
    apply bool_decide_ext. apply elem_of_list_to_set. }
  (* a yielded file of this label and speaker was not ignored before *)
  assert (s ∈ l → speaker_id_is_ignored cls self p label = inr false) as Hkept.
  { intros Hin. apply Hmem, speakers_of_elem in Hin as (t & Hty & Hlt & Hpt).
    rewrite Hy in Hty. apply list_elem_of_fmap in Hty as ([l0 q] & -> & Hq).
    apply list_elem_of_In, filter_In in Hq as [_ Hacc].
    unfold t_label, t_path, triple_of in Hlt, Hpt. simpl in Hlt, Hpt. subst l0.
    unfold accepts in Hacc. simpl in Hacc.
    apply andb_true_iff in Hacc as [_ Hacc].
    apply bool_decide_eq_true in Hacc.
    apply check_filters_true in Hacc as [Hq _].
    unfold speaker_id_is_ignored in Hq |- *.
    destruct (ignored_speaker_ids_by_label self !! label); [|done].
    rewrite Hparse in Hq |- *. by rewrite Hpt in Hq; rewrite Hs. }
  unfold accepts. simpl.
  destruct (os_path_exists sys p) eqn:Hexists; simpl; [|done].
  apply bool_decide_ext. unfold check_filters. rewrite Hign'.
  destruct (bool_decide (s ∈ l)) eqn:Hin; simpl.
  - apply bool_decide_eq_true in Hin. by rewrite (Hkept Hin).
  - apply bool_decide_eq_false in Hin.
    destruct (speaker_id_is_ignored cls self p label) as [e|[|]] eqn:Hign;
      [done..|].
    split; [done|]. intros Hwav. exfalso. apply Hin, Hmem, speakers_of_elem.
    exists (triple_of sys (label, p)). split; [|done].
    rewrite Hy. apply list_elem_of_fmap. exists (label, p). split; [done|].
    apply list_elem_of_In, filter_In. split; [by apply list_elem_of_In|].
    unfold accepts. simpl. rewrite Hexists. simpl.
    apply bool_decide_eq_true. unfold check_filters. by rewrite Hign.
Qed.

(** ** Checks only remove triples *)

Lemma reachable_candidate sys self followlinks label wavpath :
  reachable sys self followlinks label wavpath →
  (label, wavpath) ∈ labelled_candidates sys self followlinks.
Proof.
  intros (definition & Hdef & Hfrom).
  unfold labelled_candidates. apply list_elem_of_In, in_flat_map.
  exists label. split.
  { apply list_elem_of_In, elem_of_sorted, elem_of_elements, elem_of_dom.
    by eexists. }
  apply list_elem_of_In. unfold labelled_paths, label_paths. rewrite Hdef.
  apply list_elem_of_fmap. exists wavpath. split; [done|].
  apply elem_of_app.
  destruct Hfrom
    as [(sample_dir & parent & dirs & files & f & Hdir & Hwalk & Hf & Hjoin)
       |Hfile]; [left|by right].
  apply list_elem_of_In, in_flat_map. exists sample_dir.
  split; [by apply list_elem_of_In|].
  unfold tree_paths. apply in_flat_map. exists (parent, dirs, files).
  split; [by apply list_elem_of_In|]. simpl.
  unfold join_root in Hjoin.
  destruct (dataset_root self) as [root|]; [|done]. injection Hjoin as <-.
  apply list_elem_of_In, list_elem_of_fmap. by exists f.
Qed.

(** X16: the two checks only remove triples: when the default iteration
    ends normally, every triple that a walk with [check_duplicates] or
    [check_read] (and the same [followlinks]) yields is also yielded by
    the default iteration. *)
Theorem checks_only_remove_triples (sys : system) (cls : walker_class)
    (self : walker) (check_duplicates check_read : bool) :
  outcome (iter sys cls self) = inr tt →
  ∀ t, t ∈ yields (walk sys cls self check_duplicates check_read true) →
       t ∈ yields (iter sys cls self).
Proof.
  intros Hend.
  destruct (walk_emits sys cls self true) as [Hy Hall].
  fold (iter sys cls self) in Hy, Hall.
  rewrite (Hall Hend), firstn_all in Hy. rewrite Hy.
  apply Forall_forall. apply walk_yields_sat.
  intros label wavpath st st' Hreach Hok.
  apply list_elem_of_fmap. exists (label, wavpath). split; [done|].
  apply list_elem_of_In, filter_In.
  split; [by apply list_elem_of_In, reachable_candidate|].
  apply audiofile_ok_true in Hok as (Hexists & _ & Hhash).
  apply check_hash_true in Hhash as [Hfilters _].
  unfold accepts. simpl. rewrite Hexists. simpl.
  by apply bool_decide_eq_true.
Qed.

(** ** [count_files_per_speaker_by_label] *)

Lemma count_loop_counts cls parse ys (c : gmap string (gmap string nat)) :
  parse_speaker_id cls = Some parse →
  (∀ t, t ∈ ys →
        t_label t ∈ dom c ∧ ∃ speaker_id, parse (t_path t) = inr speaker_id) →
  ∃ c', count_loop cls ys c = inr c' ∧ dom c' = dom c ∧
    ∀ label counter', c' !! label = Some counter' →
      ∃ counter, c !! label = Some counter ∧
        ∀ speaker_id,
          default 0 (counter' !! speaker_id) =
            default 0 (counter !! speaker_id)
            + count_of parse ys label speaker_id.
Proof.
  intros Hparse. revert c.
  induction ys as [|[[label0 path] checksum] rest IH]; intros c Hys.
  - exists c. split; [done|]. split; [done|]. intros label counter' Hc.
    exists counter'. split; [done|]. intros speaker_id.
    unfold count_of. simpl. lia.
  - destruct (Hys (label0, path, checksum)) as [Hlabel [speaker0 Hid]];
      [by left|].
    unfold t_label, t_path in Hlabel, Hid. simpl in Hlabel, Hid.
    apply elem_of_dom in Hlabel as [counter0 Hcounter0].
    simpl. rewrite Hparse, Hid. unfold count_one. rewrite Hcounter0.
    set (c1 := <[label0 := _]> c).
    assert (dom c1 = dom c) as Hdom1.
    { unfold c1. apply dom_insert_lookup_L. by eexists. }
    destruct (IH c1) as (c' & Hloop & Hdom & Hcounts).
    { intros t Ht. rewrite Hdom1. apply Hys. by right. }
    exists c'. split; [done|]. split; [by rewrite Hdom|].
    intros label counter' Hc'.
    destruct (Hcounts label counter' Hc') as (counter1 & Hc1 & Hsum).
    unfold count_of, t_label, t_path in *. simpl. rewrite Hid.
    destruct (String.eqb_spec label0 label) as [->|Hne]; simpl.
    + unfold c1 in Hc1. rewrite lookup_insert_eq in Hc1. injection Hc1 as <-.
      exists counter0. split; [done|]. intros speaker_id.
      rewrite Hsum. case_bool_decide as Hsame; simpl.
      * injection Hsame as ->. rewrite lookup_insert_eq. simpl. lia.
      * rewrite lookup_insert_ne by congruence. lia.
    + unfold c1 in Hc1. rewrite lookup_insert_ne in Hc1 by done.
      exists counter1. split; [done|]. intros speaker_id. by rewrite Hsum.
Qed.

(** X17: for a class with [parse_speaker_id], when the default iteration
    ends normally and every yielded path parses,
    [count_files_per_speaker_by_label] returns counters for exactly the
    labels of [label_definitions], and the count it gives for a label and
    a speaker is the number of yielded triples with that label whose path
    parses to that speaker (none when the speaker has no entry). *)
Theorem files_per_speaker_are_counted (sys : system) (cls : walker_class)
    (self : walker) (parse : string → exn + string) :
  parse_speaker_id cls = Some parse →
  outcome (iter sys cls self) = inr tt →
  (∀ t, t ∈ yields (iter sys cls self) →
        ∃ speaker_id, parse (t_path t) = inr speaker_id) →
  ∃ counts,
    count_files_per_speaker_by_label sys cls self = inr counts ∧
    dom counts = dom (label_definitions self) ∧
    ∀ label counter speaker_id,
      counts !! label = Some counter →
      default 0 (counter !! speaker_id)
        = count_of parse (yields (iter sys cls self)) label speaker_id.
Proof.
  intros Hparse Hend Hids.
  destruct (count_loop_counts cls parse (yields (iter sys cls self))
              ((λ _, ∅ : gmap string nat) <$> label_definitions self) Hparse)
    as (c' & Hloop & Hdom & Hcounts).
  { intros t Ht. split; [|by apply Hids].
    rewrite dom_fmap_L. revert t Ht. apply Forall_forall.
    apply walk_yields_sat. intros label wavpath st st' (d & Hd & _) _.
    apply elem_of_dom. by eexists. }
  rewrite dom_fmap_L in Hdom. exists c'.
  unfold count_files_per_speaker_by_label. rewrite Hloop, Hend.
  split; [done|]. split; [done|].
  intros label counter speaker_id Hc.
  destruct (Hcounts label counter Hc) as (counter0 & Hc0 & Hsum).
  rewrite lookup_fmap in Hc0.
  destruct (label_definitions self !! label); [|done].
  injection Hc0 as <-. by rewrite Hsum, lookup_empty.
Qed.

(** ** [KerasWrapper.parse_metrics] *)

Lemma parse_metrics_loop_spec metrics acc :
  (∀ ks, parse_metrics_loop metrics acc = inr ks →
         ∃ new, ks = acc ++ new ∧ Forall2 metric_of metrics new)
  ∧ (∀ e, parse_metrics_loop metrics acc = inl e →
          e = AssertionError ∧ ∃ m, m ∈ metrics ∧ ¬ known_metric m)
  ∧ (Forall known_metric metrics →
     ∃ ks, parse_metrics_loop metrics acc = inr ks).
Proof.
  revert acc. induction metrics as [|m rest IH]; intros acc.
  - split; [|split].
    + intros ks [= <-]. exists []. split; [by rewrite app_nil_r|constructor].
    + intros e [=].
    + intros _. by eexists.
  - simpl.
    destruct (String.eqb_spec m "accuracy") as [->|Ha];
      [|destruct (String.eqb_spec m "precision") as [->|Hp];
        [|destruct (String.eqb_spec m "recall") as [->|Hr]]].
    1: destruct (IH (acc ++ [MetricName "accuracy"])) as (Hok & Herr & Htot).
    2: destruct (IH (acc ++ [Precision])) as (Hok & Herr & Htot).
    3: destruct (IH (acc ++ [Recall])) as (Hok & Herr & Htot).
    1-3: split; [|split].
    1,4,7: intros ks Hks; destruct (Hok ks Hks) as (new & -> & Hnew);
      eexists (_ :: new); split; [by rewrite <- app_assoc|];
      constructor; [|done]; unfold metric_of; tauto.
    1,3,5: intros e He; destruct (Herr e He) as (-> & m & Hm & Hunknown);
      split; [done|]; exists m; split; [by right|done].
    1-3: intros Hall; apply Htot; by inversion Hall.
    split; [|split].
    + intros ks [=].
    + intros e [= <-]. split; [done|]. exists m. split; [by left|].
      unfold known_metric. tauto.
    + intros Hall. inversion Hall as [|? ? Hm _]; subst.
      unfold known_metric in Hm. tauto.
Qed.

Lemma metric_of_known metrics ks :
  Forall2 metric_of metrics ks → Forall known_metric metrics.
Proof.
  intros H. induction H as [|m k ms ks' Hm _ IH]; constructor; [|done].
  unfold metric_of, known_metric in *. tauto.
Qed.

Lemma metric_of_functional metrics ks ks' :
  Forall2 metric_of metrics ks → Forall2 metric_of metrics ks' → ks = ks'.
Proof.
  intros H. revert ks'.
  induction H as [|m k ms ks0 Hm _ IH]; intros ks' H';
    inversion H' as [|? k' ? ks0' Hm' Hrest]; subst; [done|].
  f_equal; [|by apply IH].
  unfold metric_of in Hm, Hm'.
  destruct Hm as [[-> ->]|[[-> ->]|[-> ->]]];
    destruct Hm' as [[? ->]|[[? ->]|[? ->]]]; done.
Qed.

(** X18: [parse_metrics] returns a list exactly when every name is
    ["accuracy"], ["precision"] or ["recall"]; the list then has one
    metric per name, in the order of the names: the string itself for
    ["accuracy"], a [Precision] or a [Recall] object for the other two.
    Any other name makes it fail with [AssertionError]. *)
Theorem parse_metrics_known_names (metrics : list string) :
  (∀ ks, parse_metrics metrics = inr ks ↔ Forall2 metric_of metrics ks)
  ∧ (∀ e, parse_metrics metrics = inl e →
          e = AssertionError ∧ ∃ m, m ∈ metrics ∧ ¬ known_metric m)
  ∧ (Forall known_metric metrics ↔ ∃ ks, parse_metrics metrics = inr ks).
Proof.
  unfold parse_metrics.
  destruct (parse_metrics_loop_spec metrics []) as (Hok & Herr & Htot).
  pose proof (metric_of_known metrics) as Hknown.
  pose proof (metric_of_functional metrics) as Hfun.
  split; [|split].
  - intros ks. split.
    + intros Hks. destruct (Hok ks Hks) as (new & -> & Hnew). done.
    + intros Hks. destruct (Htot (Hknown ks Hks)) as [ks' Hks'].
      rewrite Hks'. f_equal.
      destruct (Hok ks' Hks') as (new & -> & Hnew). simpl.
      by apply (Hfun new ks).
  - done.
  - split; [done|]. intros [ks Hks].
    destruct (Hok ks Hks) as (new & -> & Hnew). by apply (Hknown new).
Qed.

(** ** [speech_dataset_to_embeddings] *)

Lemma merge_batches_spec batches acc :
  (∀ m, merge_batches batches acc = inr m →
        (∀ b path, b ∈ batches → path ∈ dom b → path ∉ dom acc)
        ∧ (∀ path, ¬ reported_twice batches path)
        ∧ ∀ path file,
            m !! path = Some file ↔
            acc !! path = Some file
            ∨ ∃ b, b ∈ batches ∧ b !! path = Some file)
  ∧ (∀ e, merge_batches batches acc = inl e →
          e = AssertionError
          ∧ ∃ path, reported_twice batches path
                    ∨ (path ∈ dom acc ∧ ∃ b, b ∈ batches ∧ path ∈ dom b)).
Proof.
  revert acc. induction batches as [|batch rest IH]; intros acc.
  - split.
    + intros m [= <-]. split; [|split].
      * intros b path Hb. by apply elem_of_nil in Hb.
      * intros path (i & j & b1 & b2 & _ & Hi & _). by destruct i.
      * intros path file. split; [by left|].
        intros [H|(b & Hb & _)]; [done|]. by apply elem_of_nil in Hb.
    + intros e [=].
  - simpl. destruct (IH (batch ∪ acc)) as [Hok Herr].
    case_bool_decide as Hdisjoint.
    + assert (∀ path, path ∈ dom batch → path ∉ dom acc) as Hnew.
      { intros path Hb Ha.
        assert (path ∈ dom batch ∩ dom acc) as Hin
          by (apply elem_of_intersection; done).
        rewrite Hdisjoint in Hin. by apply elem_of_empty in Hin. }
      split.
      * intros m Hm. destruct (Hok m Hm) as (Hfresh & Honce & Hlookup).
        split; [|split].
        -- intros b path Hb Hpath.
           apply elem_of_cons in Hb as [->|Hb]; [by apply Hnew|].
           intros Ha. apply (Hfresh b path Hb Hpath).
           rewrite dom_union. apply elem_of_union. by right.
        -- intros path (i & j & b1 & b2 & Hlt & Hi & Hj & H1 & H2).
           destruct j as [|j]; [lia|]. simpl in Hj.
           destruct i as [|i]; simpl in Hi.
           ++ injection Hi as <-.
              apply (Hfresh b2 path); [by eapply list_elem_of_lookup_2|done|].
              rewrite dom_union. apply elem_of_union. by left.
           ++ apply (Honce path). exists i, j, b1, b2.
              repeat split; try done. lia.
        -- intros path file. rewrite Hlookup. split.
           ++ intros [Hu|(b & Hb & Hfile)].
              ** apply lookup_union_Some_raw in Hu as [Hu|[_ Hu]].
                 --- right. exists batch. split; [by left|done].
                 --- by left.
              ** right. exists b. split; [by right|done].
           ++ intros [Ha|(b & Hb & Hfile)].
              ** left. apply lookup_union_Some_raw. right. split; [|done].
                 apply not_elem_of_dom. intros Hb.
                 apply (Hnew path Hb). apply elem_of_dom. by eexists.
              ** apply elem_of_cons in Hb as [->|Hb].
                 --- left. apply lookup_union_Some_raw. by left.
                 --- right. by exists b.
      * intros e He. destruct (Herr e He) as (-> & path & Hpath).
        split; [done|]. exists path.
        destruct Hpath
          as [(i & j & b1 & b2 & Hlt & Hi & Hj & H1 & H2)|(Hu & b & Hb & Hin)].
        -- left. exists (S i), (S j), b1, b2. repeat split; try done. lia.
        -- rewrite dom_union in Hu. apply elem_of_union in Hu as [Hu|Hu].
           ++ left. apply list_elem_of_lookup in Hb as [j Hj].
              exists 0, (S j), batch, b. repeat split; try done. lia.
           ++ right. split; [done|]. exists b. split; [by right|done].
    + split; [intros m [=]|]. intros e [= <-]. split; [done|].
      apply set_choose_L in Hdisjoint as [path Hpath].
      apply elem_of_intersection in Hpath as [Hb Ha].
      exists path. right. split; [done|]. exists batch. split; [by left|done].
Qed.

(** X19: the first loop of [speech_dataset_to_embeddings] ends without an
    error exactly when no path is reported by two of the batches; the
    table it builds then maps a path to a file exactly when some batch
    does.  When a path is reported twice, the loop fails with
    [AssertionError]. *)
Theorem batches_merged_when_disjoint (batches : list (gmap string string)) :
  (∀ m, merge_batches batches ∅ = inr m →
        (∀ path, ¬ reported_twice batches path)
        ∧ ∀ path file,
            m !! path = Some file ↔ ∃ b, b ∈ batches ∧ b !! path = Some file)
  ∧ (∀ e, merge_batches batches ∅ = inl e →
          e = AssertionError ∧ ∃ path, reported_twice batches path).
Proof.
  destruct (merge_batches_spec batches ∅) as [Hok Herr]. split.
  - intros m Hm. destruct (Hok m Hm) as (_ & Honce & Hlookup).
    split; [done|]. intros path file. rewrite Hlookup, lookup_empty.
    split; [by intros [?|?]|by right].
  - intros e He. destruct (Herr e He) as (-> & path & [H|[H _]]).
    + split; [done|]. by exists path.
    + rewrite dom_empty in H. by apply elem_of_empty in H.
Qed.

Lemma label_to_index_lookup (self : walker) (label : string) (i : nat) :
  make_label_to_index_dict self !! label = Some i ↔
  Str.sorted (elements (dom (label_definitions self))) !! i = Some label.
Proof.
  set (labels := Str.sorted (elements (dom (label_definitions self)))).
  assert (NoDup labels) as Hnodup.
  { unfold labels, Str.sorted. rewrite merge_sort_Permutation.
    apply NoDup_elements. }
  unfold make_label_to_index_dict. fold labels.
  rewrite enumerate_dict_lookup by done. simpl.
  destruct (list_find (λ y, y = label) labels) as [[k z]|] eqn:Hfind.
  - apply list_find_Some in Hfind as (Hk & -> & _). split.
    + by intros [= <-].
    + intros Hi. f_equal. by eapply NoDup_lookup.
  - rewrite lookup_empty. split; [done|]. intros Hi.
    eapply list_find_None in Hfind. rewrite Forall_forall in Hfind.
    destruct (Hfind label); [|done]. by eapply list_elem_of_lookup_2.
Qed.

Lemma label_to_index_size (self : walker) :
  size (make_label_to_index_dict self) =
  length (Str.sorted (elements (dom (label_definitions self)))).
Proof.
  set (labels := Str.sorted (elements (dom (label_definitions self)))).
  assert (NoDup labels) as Hnodup.
  { unfold labels, Str.sorted. rewrite merge_sort_Permutation.
    apply NoDup_elements. }
  assert (dom (make_label_to_index_dict self)
          = (list_to_set labels : gset string)) as Hdom.
  { apply set_eq. intros label.
    rewrite elem_of_dom, elem_of_list_to_set. split.
    - intros [i Hi]. apply label_to_index_lookup in Hi.
      by eapply list_elem_of_lookup_2.
    - intros Hin. apply list_elem_of_lookup in Hin as [i Hi].
      exists i. by apply label_to_index_lookup. }
  by rewrite <- size_dom, Hdom, size_list_to_set.
Qed.

(** X20: with the table of [make_label_to_index_dict], the target vector
    that [speech_dataset_to_embeddings] builds for a label of
    [label_definitions] has one entry per label, in sorted order of the
    labels: 1.0 at the place of the label itself and 0.0 everywhere else.
    For any other label the lookup in the table fails with [KeyError]. *)
Theorem onehot_marks_sorted_position (self : walker) (label : string) :
  onehot (make_label_to_index_dict self) label =
    match label_definitions self !! label with
    | Some _ =>
        inr ((λ l, if bool_decide (l = label) then 1%Q else 0%Q)
               <$> Str.sorted (elements (dom (label_definitions self))))
    | None => inl KeyError
    end.
Proof.
  set (labels := Str.sorted (elements (dom (label_definitions self)))).
  assert (NoDup labels) as Hnodup.
  { unfold labels, Str.sorted. rewrite merge_sort_Permutation.
    apply NoDup_elements. }
  unfold onehot. rewrite label_to_index_size. fold labels.
  destruct (make_label_to_index_dict self !! label) as [i|] eqn:Hindex.
  - apply label_to_index_lookup in Hindex. fold labels in Hindex.
    assert (label ∈ labels) as Hin by by eapply list_elem_of_lookup_2.
    apply elem_of_sorted, elem_of_elements, elem_of_dom in Hin as [d ->].
    pose proof (lookup_lt_Some _ _ _ Hindex) as Hlt.
    rewrite bool_decide_eq_true_2 by done. f_equal.
    apply list_eq. intros k. rewrite list_lookup_fmap.
    destruct (decide (i = k)) as [<-|Hne].
    + rewrite list_lookup_insert_eq by by rewrite length_replicate.
      rewrite Hindex. simpl. by rewrite bool_decide_eq_true_2.
    + rewrite list_lookup_insert_ne by done.
      destruct (labels !! k) as [l|] eqn:Hk; simpl.
      * rewrite lookup_replicate_2 by by eapply lookup_lt_Some.
        rewrite bool_decide_eq_false_2; [done|]. intros ->.
        apply Hne. by eapply NoDup_lookup.
      * apply lookup_replicate_None. by apply lookup_ge_None.
  - destruct (label_definitions self !! label) as [d|] eqn:Hdef; [|done].
    assert (label ∈ labels) as Hin.
    { apply elem_of_sorted, elem_of_elements, elem_of_dom. by eexists. }
    apply list_elem_of_lookup in Hin as [i Hi].
    apply label_to_index_lookup in Hi. by rewrite Hindex in Hi.
Qed.

(** ** The further properties on the small corpus *)

Lemma walk_after_overwrite_examines_given_paths_witness :
  overwrite_target_paths Demo.bare Given.paths Given.labels Given.checksums
    = inr Given.listed ∧
  let items := zip3 Given.labels Given.paths Given.checksums in
  let given :=
    flat_map (λ label, map (pair label) (paths_of label items))
      (Str.sorted (elements (dom (label_definitions Given.listed)))) in
  let r := walk Demo.sys OGI.class Given.listed false false true in
  let examined := take (num_walked (final r)) given in
  (num_walked (final r) ≤ length given)%nat ∧
  (speaker_check_is_total OGI.class Given.listed →
   outcome r = inr tt ∧ num_walked (final r) = length given) ∧
  invalid_files (final r)
    = List.filter (unreadable Demo.sys false) (map snd examined) ∧
  (false = false → false = false →
   yields r
     = map (triple_of Demo.sys)
         (List.filter (accepts Demo.sys OGI.class Given.listed) examined)) ∧
  Forall (λ t, ∃ checksum, (t_label t, t_path t, checksum) ∈ items) (yields r).
Proof.
  split; [vm_compute; reflexivity|].
  apply (walk_after_overwrite_examines_given_paths Demo.sys OGI.class
           Demo.bare Given.listed Given.paths Given.labels Given.checksums
           false false true).
  vm_compute. reflexivity.
Defined.

Lemma absolute_root_paths_found_in_tree_witness :
  Str.startswith "/data" "/" = true ∧
  dataset_tree OGI.class = Some OGI.tree ∧
  dataset_root Demo.bare = Some "/data" ∧
  parse_directory_tree OGI.class Demo.bare = inr Demo.ogi ∧
  Forall (found_in_dataset_tree Given.sys true OGI.tree "/data" Demo.ogi)
    (yields (walk Given.sys OGI.class Demo.ogi true true true)).
Proof.
  split; [reflexivity|]. split; [reflexivity|]. split; [reflexivity|].
  split; [vm_compute; reflexivity|].
  apply (absolute_root_paths_found_in_tree Given.sys Given.fs 3 OGI.class
           Demo.bare Demo.ogi OGI.tree "/data" true true true).
  - intros top links. reflexivity.
  - reflexivity.
  - reflexivity.
  - reflexivity.
  - vm_compute. reflexivity.
Defined.

Lemma parse_directory_tree_sets_sample_dirs_witness :
  dataset_tree OGI.class = Some OGI.tree ∧
  dataset_root Demo.bare = Some "/data" ∧
  (dom (label_definitions Demo.bare) ⊆ dom OGI.tree →
     ∃ self',
       parse_directory_tree OGI.class Demo.bare = inr self' ∧
       dataset_root self' = Some "/data" ∧
       (∀ label,
          label_definitions self' !! label =
            (λ d, with_sample_dirs
                    (map (Str.join "/data") (default [] (OGI.tree !! label))) d)
              <$> label_definitions Demo.bare !! label) ∧
       parse_directory_tree OGI.class self' = inr self') ∧
  (¬ dom (label_definitions Demo.bare) ⊆ dom OGI.tree →
     parse_directory_tree OGI.class Demo.bare = inl KeyError).
Proof.
  split; [reflexivity|]. split; [reflexivity|].
  apply (parse_directory_tree_sets_sample_dirs OGI.class Demo.bare OGI.tree
           "/data"); reflexivity.
Defined.

Lemma given_fs_well_listed : well_listed Given.fs.
Proof.
  intros p dirs nondirs. unfold Given.fs. cbv beta iota delta [scandir].
  destruct (String.eqb p "/data/wav/english").
  - intros [= <- <-]. split; [apply NoDup_singleton|].
    intros d Hd. apply list_elem_of_singleton in Hd as ->.
    split; [discriminate | reflexivity].
  - destruct (String.eqb p "/data/wav/english/more"); [|discriminate].
    intros [= <- <-]. split; [constructor|].
    intros d Hd. by apply elem_of_nil in Hd.
Qed.

Lemma walk_ends_normally_witness :
  dataset_root Demo.ogi = Some "/data" ∧
  speaker_check_is_total OGI.class Demo.ogi ∧
  let r := walk Given.sys OGI.class Demo.ogi true true true in
  outcome r = inr tt ∧
  take (num_walked (final r)) (candidates Given.sys Demo.ogi true)
    = candidates Given.sys Demo.ogi true.
Proof.
  split; [vm_compute; reflexivity|].
  split; [left; vm_compute; reflexivity|].
  apply (walk_ends_normally Given.sys Given.fs 3 OGI.class Demo.ogi "/data"
           true true true).
  - apply given_fs_well_listed.
  - intros top links. reflexivity.
  - vm_compute. reflexivity.
  - left. vm_compute. reflexivity.
Defined.

Lemma speaker_filter_of_own_speakers_witness :
  speaker_ids_by_label Given.sys OGI.class Demo.ogi = inr Given.own_speakers ∧
  yields (iter Given.sys OGI.class
            (set_speaker_filter Demo.ogi Given.own_speakers))
    = yields (iter Given.sys OGI.class Demo.ogi) ∧
  outcome (iter Given.sys OGI.class
             (set_speaker_filter Demo.ogi Given.own_speakers)) = inr tt.
Proof.
  split; [vm_compute; reflexivity|].
  apply (speaker_filter_of_own_speakers Given.sys Given.fs 3 OGI.class
           Demo.ogi "/data" OGI.speaker_id Given.own_speakers).
  - apply given_fs_well_listed.
  - intros top links. reflexivity.
  - vm_compute. reflexivity.
  - reflexivity.
  - intros p. by eexists.
  - vm_compute. reflexivity.
Defined.

Lemma checks_only_remove_triples_witness :
  outcome (iter Demo.sys OGI.class Demo.ogi) = inr tt ∧
  ∀ t, t ∈ yields (walk Demo.sys OGI.class Demo.ogi true true true) →
       t ∈ yields (iter Demo.sys OGI.class Demo.ogi).
Proof.
  split; [vm_compute; reflexivity|].
  apply (checks_only_remove_triples Demo.sys OGI.class Demo.ogi true true).
  vm_compute. reflexivity.
Defined.

Lemma files_per_speaker_are_counted_witness :
  parse_speaker_id OGI.class = Some OGI.speaker_id ∧
  outcome (iter Demo.sys OGI.class Demo.ogi) = inr tt ∧
  ∃ counts,
    count_files_per_speaker_by_label Demo.sys OGI.class Demo.ogi = inr counts ∧
    dom counts = dom (label_definitions Demo.ogi) ∧
    ∀ label counter speaker_id,
      counts !! label = Some counter →
      default 0 (counter !! speaker_id)
        = count_of OGI.speaker_id (yields (iter Demo.sys OGI.class Demo.ogi))
            label speaker_id.
Proof.
  split; [reflexivity|]. split; [vm_compute; reflexivity|].
  apply (files_per_speaker_are_counted Demo.sys OGI.class Demo.ogi
           OGI.speaker_id).
  - reflexivity.
  - vm_compute. reflexivity.
  - intros t _. by eexists.
Defined.
